(** * PetMaps: coordinate resolution and nearest-neighbour ranking

    A shallow embedding of [src/ILoveDogs/src/components/PetMaps.jsx]:
    [getCoordsFromRecord], [bestAddress], [geocode], the resolution loop of
    the second effect of [PetMaps], [haversineKm] and the [nearest] memo.

    Conventions of the embedding.
    - A JavaScript value is a [JSVal]; an object used as a map of fields is a
      [gmap string JSVal] of its own properties.  A record of the feed is
      such a map.  The one lookup under a key that the data chooses,
      [cache[address]], also sees the members every object inherits from
      [Object.prototype].
    - Strings are byte strings: the UTF-8 form of the JavaScript string,
      with a lone surrogate, which has no UTF-8 form, held as the three
      bytes [ED A0..BF 80..BF] of its generalised form.
    - A finite number is kept as the decimal [m * 10^e] it was written as;
      rounding to the nearest double is not modelled, overflow to an
      infinity is.  The arithmetic of [haversineKm] is over the reals, with
      NaN and the infinities added and with results from [2^1024 - 2^970]
      on taken to an infinity; what the ranker does with the distances is
      stated for any distance function, so that it holds of the rounded
      one.
    - [geocode] and the loop run in a small state-and-exception monad over the
      storage content and the trace of calls, sleeps and network requests.
      The network and the storage quota are oracles of the environment.
    - The cache in [localStorage] is read as missing, as a text that does not
      parse, or as a map from addresses to coordinate pairs; texts that parse
      to anything else are outside the model.  [JSON.stringify] writes a
      number that is not finite as [null]: what is said of the entries a
      write leaves is said of finite pairs.
    - React state, the [cancelled] flag and the rendering are not modelled:
      the loop is taken up to the list it hands to [setPoints]. *)

From stdpp Require Import gmap strings list pretty sorting.
From Stdlib Require Import Ascii ZArith Reals Lra Lia.

#[local] Set Warnings "-register-all".

(** ** JavaScript values *)

Module JS.

(** Numbers: [Fin m e] stands for [m * 10^e]. *)
Inductive Num : Type :=
| NaN
| PInf
| NInf
| Fin (m e : Z).

Inductive JSVal : Type :=
| VUndefined
| VNull
| VBool (b : bool)
| VNum (n : Num)
| VStr (s : string)
| VArr (l : list JSVal)
| VObj (o : gmap string JSVal).

(** [Number.isFinite] on a number. *)
Definition Number_isFinite (n : Num) : bool :=
  match n with
  | Fin _ _ => true
  | _ => false
  end.

(** ToBoolean. *)
Definition truthy (v : JSVal) : bool :=
  match v with
  | VUndefined | VNull => false
  | VBool b => b
  | VNum NaN => false
  | VNum (Fin m _) => negb (m =? 0)%Z
  | VNum _ => true
  | VStr s => negb (String.eqb s "")
  | VArr _ | VObj _ => true
  end.

Inductive JSType : Type :=
| TUndefined | TObject | TBoolean | TNumber | TString.

(** The [typeof] operator ([typeof null] is ["object"]). *)
Definition typeof (v : JSVal) : JSType :=
  match v with
  | VUndefined => TUndefined
  | VNull | VArr _ | VObj _ => TObject
  | VBool _ => TBoolean
  | VNum _ => TNumber
  | VStr _ => TString
  end.

Definition is_string (v : JSVal) : bool :=
  match typeof v with TString => true | _ => false end.

Definition is_object (v : JSVal) : bool :=
  match typeof v with TObject => true | _ => false end.

Definition Array_isArray (v : JSVal) : bool :=
  match v with VArr _ => true | _ => false end.

(** [a || b]. *)
Definition or_else (a b : JSVal) : JSVal := if truthy a then a else b.

(** [k in v] for an object or array [v] and a named key [k] other than
    [length]. *)
Definition has_prop (k : string) (v : JSVal) : bool :=
  match v with
  | VObj o => bool_decide (is_Some (o !! k))
  | _ => false
  end.

(** [v.k] for a named key on a value that is neither [null] nor
    [undefined]; [length] is the one named key arrays and strings own (for a
    string it counts bytes; only whether it is 0 is ever looked at). *)
Definition get (v : JSVal) (k : string) : JSVal :=
  match v with
  | VObj o => default VUndefined (o !! k)
  | VArr l =>
      if String.eqb k "length" then VNum (Fin (Z.of_nat (length l)) 0)
      else VUndefined
  | VStr s =>
      if String.eqb k "length" then VNum (Fin (Z.of_nat (String.length s)) 0)
      else VUndefined
  | _ => VUndefined
  end.

(** [v?.k]. *)
Definition get_opt (v : JSVal) (k : string) : JSVal :=
  match v with
  | VUndefined | VNull => VUndefined
  | _ => get v k
  end.

(** [v[i]] for an index [i] on a value that is neither [null] nor
    [undefined]. *)
Definition get_idx (v : JSVal) (i : nat) : JSVal :=
  match v with
  | VArr l => nth i l VUndefined
  | VStr s =>
      match String.get i s with
      | Some c => VStr (String c EmptyString)
      | None => VUndefined
      end
  | VObj o => default VUndefined (o !! pretty i)
  | _ => VUndefined
  end.

(** *** Number::toString *)

Definition zeros (n : nat) : string := String.string_of_list_ascii (repeat "0"%char n).

Fixpoint strip_zeros_rev (l : list ascii) : list ascii :=
  match l with
  | "0"%char :: l' => strip_zeros_rev l'
  | _ => l
  end.

(** The digits of [p] without its trailing zeros, and how many were cut. *)
Definition significand (p : positive) : string * nat :=
  let ds := String.list_ascii_of_string (pretty (Npos p)) in
  let sig := rev (strip_zeros_rev (rev ds)) in
  (String.string_of_list_ascii sig, (length ds - length sig)%nat).

Definition take_str (n : nat) (s : string) : string := String.substring 0 n s.
Definition drop_str (n : nat) (s : string) : string :=
  String.substring n (String.length s - n) s.

Definition exponent_str (x : Z) : string :=
  ((if (0 <=? x)%Z then "+" else "-") ++ pretty (Z.abs_N x))%string.

(** The digits [s] (there are [k] of them) scaled so that the decimal point
    sits after the [n]-th digit. *)
Definition format_decimal (s : string) (k n : Z) : string :=
  if ((k <=? n) && (n <=? 21))%Z then
    (s ++ zeros (Z.to_nat (n - k)))%string
  else if ((0 <? n) && (n <=? 21))%Z then
    (take_str (Z.to_nat n) s ++ "." ++ drop_str (Z.to_nat n) s)%string
  else if ((-6 <? n) && (n <=? 0))%Z then
    ("0." ++ zeros (Z.to_nat (- n)) ++ s)%string
  else if (k =? 1)%Z then
    (s ++ "e" ++ exponent_str (n - 1))%string
  else
    (take_str 1 s ++ "." ++ drop_str 1 s ++ "e" ++ exponent_str (n - 1))%string.

Definition Number_toString (x : Num) : string :=
  match x with
  | NaN => "NaN"
  | PInf => "Infinity"
  | NInf => "-Infinity"
  | Fin Z0 _ => "0"
  | Fin (Zpos p) e =>
      let '(s, z) := significand p in
      let k := Z.of_nat (String.length s) in
      format_decimal s k (k + Z.of_nat z + e)
  | Fin (Zneg p) e =>
      let '(s, z) := significand p in
      let k := Z.of_nat (String.length s) in
      ("-" ++ format_decimal s k (k + Z.of_nat z + e))%string
  end.

(** *** ToString *)

Definition join_with (sep : string) (parts : list string) : string :=
  match parts with
  | [] => ""
  | p :: ps => fold_left (fun acc q => (acc ++ sep ++ q)%string) ps p
  end.

Fixpoint ToString (v : JSVal) : string :=
  match v with
  | VUndefined => "undefined"
  | VNull => "null"
  | VBool true => "true"
  | VBool false => "false"
  | VNum n => Number_toString n
  | VStr s => s
  | VArr l =>
      join_with ","
        ((fix elems (l : list JSVal) : list string :=
            match l with
            | [] => []
            | VUndefined :: l' | VNull :: l' => ""%string :: elems l'
            | x :: l' => ToString x :: elems l'
            end) l)
  | VObj _ => "[object Object]"
  end.

End JS.

(** ** parseFloat and encodeURIComponent *)

Module Builtins.
Import JS.

Definition byte_of (c : ascii) : N := N_of_ascii c.

Definition is_digit (c : ascii) : bool :=
  ((48 <=? byte_of c) && (byte_of c <=? 57))%N.

Definition digit_val (c : ascii) : Z := Z.of_N (byte_of c) - 48.

(** StrWhiteSpaceChar of one byte: TAB, LF, VT, FF, CR, SP. *)
Definition is_space1 (c : ascii) : bool :=
  let b := byte_of c in
  ((b =? 9) || (b =? 10) || (b =? 11) || (b =? 12) || (b =? 13) || (b =? 32))%N.

(** StrWhiteSpaceChar of two bytes: U+00A0. *)
Definition is_space2 (c1 c2 : ascii) : bool :=
  ((byte_of c1 =? 194) && (byte_of c2 =? 160))%N.

(** StrWhiteSpaceChar of three bytes: U+1680, U+2000 to U+200A, U+2028,
    U+2029, U+202F, U+205F, U+3000, U+FEFF. *)
Definition is_space3 (c1 c2 c3 : ascii) : bool :=
  let '(a, b, c) := (byte_of c1, byte_of c2, byte_of c3) in
  (((a =? 225) && (b =? 154) && (c =? 128))
   || ((a =? 226) && (b =? 128)
       && (((128 <=? c) && (c <=? 138)) || (c =? 168) || (c =? 169) || (c =? 175)))
   || ((a =? 226) && (b =? 129) && (c =? 159))
   || ((a =? 227) && (b =? 128) && (c =? 128))
   || ((a =? 239) && (b =? 187) && (c =? 191)))%N.

(** Leading white space removed. *)
Fixpoint trim_start (s : string) : string :=
  match s with
  | String c1 s1 =>
      if is_space1 c1 then trim_start s1
      else
        match s1 with
        | String c2 s2 =>
            if is_space2 c1 c2 then trim_start s2
            else
              match s2 with
              | String c3 s3 =>
                  if is_space3 c1 c2 c3 then trim_start s3 else s
              | EmptyString => s
              end
        | EmptyString => s
        end
  | EmptyString => s
  end.

(** The leading decimal digits of [s], most significant first, and the rest. *)
Fixpoint span_digits (s : string) : list Z * string :=
  match s with
  | String c s' =>
      if is_digit c then
        let '(ds, r) := span_digits s' in (digit_val c :: ds, r)
      else ([], s)
  | EmptyString => ([], s)
  end.

Definition digits_value (ds : list Z) : Z :=
  fold_left (fun acc d => 10 * acc + d)%Z ds 0%Z.

(** An ExponentPart at the head of [s], when there is a complete one. *)
Definition exponent_part (s : string) : Z :=
  match s with
  | String c s1 =>
      if (Ascii.eqb c "e" || Ascii.eqb c "E")%char then
        match s1 with
        | String "+"%char s2 =>
            match span_digits s2 with
            | ([], _) => 0
            | (ds, _) => digits_value ds
            end
        | String "-"%char s2 =>
            match span_digits s2 with
            | ([], _) => 0
            | (ds, _) => - digits_value ds
            end
        | _ =>
            match span_digits s1 with
            | ([], _) => 0
            | (ds, _) => digits_value ds
            end
        end%Z
      else 0%Z
  | EmptyString => 0%Z
  end.

(** [m * 10^e] with the trailing zeros of [m] moved into [e]. *)
Fixpoint normalise_fuel (fuel : nat) (m e : Z) : Z * Z :=
  match fuel with
  | O => (m, e)
  | S fuel' =>
      if (m =? 0)%Z then (0, 0)%Z
      else if (m mod 10 =? 0)%Z then normalise_fuel fuel' (m / 10)%Z (e + 1)%Z
      else (m, e)
  end.

Definition normalise (m e : Z) : Z * Z :=
  normalise_fuel (S (Z.to_nat (Z.log2 (Z.abs m)))) m e.

(** Magnitudes from [2^1024 - 2^970] on round to an infinity. *)
Definition overflow_bound : Z := (2 ^ 1024 - 2 ^ 970)%Z.

Definition overflows (m e : Z) : bool :=
  if (0 <=? e)%Z then (overflow_bound <=? Z.abs m * 10 ^ e)%Z
  else (overflow_bound * 10 ^ (- e) <=? Z.abs m)%Z.

Definition mk_number (neg : bool) (m e : Z) : Num :=
  if overflows m e then (if neg then NInf else PInf)
  else
    let '(m', e') := normalise m e in
    Fin (if neg then - m' else m')%Z e'.

Definition starts_with (p s : string) : bool :=
  String.prefix p s.

(** The longest prefix of [s] that is an unsigned StrDecimalLiteral. *)
Definition parse_unsigned (neg : bool) (s : string) : Num :=
  if starts_with "Infinity" s then (if neg then NInf else PInf)
  else
    let '(ip, r1) := span_digits s in
    match r1 with
    | String "."%char r2 =>
        let '(fp, r3) := span_digits r2 in
        match ip, fp with
        | [], [] => NaN
        | _, _ =>
            mk_number neg (digits_value (ip ++ fp))
              (exponent_part r3 - Z.of_nat (length fp))
        end
    | _ =>
        match ip with
        | [] => NaN
        | _ => mk_number neg (digits_value ip) (exponent_part r1)
        end
    end.

Definition parse_decimal (s : string) : Num :=
  match s with
  | String "+"%char s' => parse_unsigned false s'
  | String "-"%char s' => parse_unsigned true s'
  | _ => parse_unsigned false s
  end.

(** [parseFloat(v)]. *)
Definition parseFloat (v : JSVal) : Num :=
  parse_decimal (trim_start (ToString v)).

(** *** encodeURIComponent *)

Definition hex_digit (n : N) : ascii :=
  if (n <? 10)%N then ascii_of_N (48 + n) else ascii_of_N (55 + n).

(** Letters, digits and [- _ . ! ~ * ' ( )] are kept. *)
Definition uri_unreserved (c : ascii) : bool :=
  let b := byte_of c in
  (((65 <=? b) && (b <=? 90)) || ((97 <=? b) && (b <=? 122))
   || ((48 <=? b) && (b <=? 57))
   || (b =? 45) || (b =? 95) || (b =? 46) || (b =? 33) || (b =? 126)
   || (b =? 42) || (b =? 39) || (b =? 40) || (b =? 41))%N.

(** [s] holds a lone surrogate: a byte [ED] followed by a byte from [A0] to
    [BF].  On such a string [encodeURIComponent] throws a URIError. *)
Fixpoint has_lone_surrogate (s : string) : bool :=
  match s with
  | String c1 s1 =>
      match s1 with
      | String c2 _ =>
          ((byte_of c1 =? 237) && (160 <=? byte_of c2) && (byte_of c2 <=? 191))%N
          || has_lone_surrogate s1
      | EmptyString => false
      end
  | EmptyString => false
  end.

(** The value of [encodeURIComponent(s)] where it has one: each byte other
    than an unreserved one becomes its escape. *)
Fixpoint encodeURIComponent (s : string) : string :=
  match s with
  | EmptyString => EmptyString
  | String c s' =>
      if uri_unreserved c then String c (encodeURIComponent s')
      else
        String "%" (String (hex_digit (byte_of c / 16))
                      (String (hex_digit (byte_of c mod 16))
                         (encodeURIComponent s')))
  end.

End Builtins.

(** ** Effects: storage, network, pacing *)

Module Eff.
Import JS.

(** A coordinate is the two-element array [[lat, lng]]. *)
Abbreviation Coord := (Num * Num)%type.

(** What [localStorage.getItem(CACHE_KEY)] holds: nothing (or the empty
    string), a text that [JSON.parse] rejects, or the text of an object that
    maps addresses to coordinates. *)
Inductive Store : Type :=
| Absent
| Garbled
| Cached (c : gmap string Coord).

(** The members every object inherits from [Object.prototype]: eleven
    functions and the accessor [__proto__], which yields [Object.prototype]
    itself.  All are truthy, and none can be iterated. *)
Definition Object_prototype : list string :=
  ["constructor"; "hasOwnProperty"; "isPrototypeOf"; "propertyIsEnumerable";
   "toLocaleString"; "toString"; "valueOf"; "__proto__";
   "__defineGetter__"; "__defineSetter__"; "__lookupGetter__";
   "__lookupSetter__"].

Definition inherited (k : string) : bool :=
  bool_decide (k ∈ Object_prototype).

(** A truthy value of [cache[address]], and so of [coords]: the array
    [[lat, lng]], or the member of [Object.prototype] of the given name. *)
Inductive Found : Type :=
| Pair (c : Coord)
| Member (k : string).

(** [cache[k]]: the entry the cache owns under [k], else the member it
    inherits under [k], else [undefined]. *)
Definition lookup (cache : gmap string Coord) (k : string) : option Found :=
  match cache !! k with
  | Some c => Some (Pair c)
  | None => if inherited k then Some (Member k) else None
  end.

(** What [fetch] comes back with: a rejected promise, or a response with its
    [ok] flag and the value [res.json()] resolves to ([None] when it
    rejects). *)
Inductive Response : Type :=
| Rejected
| Replied (ok : bool) (body : option JSVal).

(** The observable steps.  [Called] is a ghost event: it marks an entry into
    [geocode], so that invocations can be counted. *)
Inductive Event : Type :=
| Called (address : string)
| Slept (ms : Z)
| Fetched (url : string).

Definition is_fetch (e : Event) : bool :=
  match e with Fetched _ => true | _ => false end.
Definition is_call (e : Event) : bool :=
  match e with Called _ => true | _ => false end.

(** The environment: the answer of the network to the [n]-th request, and
    whether the storage takes a write of the given content ([setItem] throws
    when it does not). *)
Record Env : Type := {
  network : nat -> string -> Response;
  storage_accepts : gmap string Coord -> bool
}.

Record State : Type := {
  store : Store;
  trace : list Event
}.

Inductive Outcome (A : Type) : Type :=
| Ok (a : A)
| Thrown.
Arguments Ok {A} a.
Arguments Thrown {A}.

Definition M (A : Type) : Type := Env -> State -> Outcome A * State.

Definition ret {A} (a : A) : M A := fun _ s => (Ok a, s).

Definition bind {A B} (c : M A) (k : A -> M B) : M B :=
  fun env s =>
    match c env s with
    | (Ok a, s') => k a env s'
    | (Thrown, s') => (Thrown, s')
    end.

Definition throw {A} : M A := fun _ s => (Thrown, s).

(** [try { body } catch { handler }]: what [body] did before it threw
    stays done. *)
Definition try_catch {A} (body handler : M A) : M A :=
  fun env s =>
    match body env s with
    | (Ok a, s') => (Ok a, s')
    | (Thrown, s') => handler env s'
    end.

Definition log (e : Event) : M unit :=
  fun _ s => (Ok tt, {| store := store s; trace := trace s ++ [e] |}).

(** [await sleep(ms)]. *)
Definition sleep (ms : Z) : M unit := log (Slept ms).

(** How many requests a trace holds. *)
Definition fetch_count (tr : list Event) : nat :=
  length (filter (fun e => is_fetch e = true) tr).

(** [await fetch(url, ...)]: the request is recorded, then answered. *)
Definition fetch (url : string) : M (bool * option JSVal) :=
  fun env s =>
    let n := fetch_count (trace s) in
    let s' := {| store := store s; trace := trace s ++ [Fetched url] |} in
    match network env n url with
    | Rejected => (Thrown, s')
    | Replied ok body => (Ok (ok, body), s')
    end.

(** [await res.json()]. *)
Definition res_json (body : option JSVal) : M JSVal :=
  match body with
  | Some j => ret j
  | None => throw
  end.

(** [JSON.parse(localStorage.getItem(CACHE_KEY) || '{}')]. *)
Definition read_cache : M (gmap string Coord) :=
  fun _ s =>
    match store s with
    | Absent => (Ok ∅, s)
    | Garbled => (Thrown, s)
    | Cached c => (Ok c, s)
    end.

(** [localStorage.setItem(CACHE_KEY, JSON.stringify(cache))].  The text
    written reads back as [c] as far as the numbers of [c] are finite;
    a number that is not finite is written as [null]. *)
Definition write_cache (c : gmap string Coord) : M unit :=
  fun env s =>
    if storage_accepts env c
    then (Ok tt, {| store := Cached c; trace := trace s |})
    else (Thrown, s).

(** [v.k] where [v] may be [null] or [undefined]. *)
Definition get_or_throw (v : JSVal) (k : string) : M JSVal :=
  match v with
  | VUndefined | VNull => throw
  | _ => ret (get v k)
  end.

End Eff.

Declare Scope eff_scope.
Delimit Scope eff_scope with eff.
Notation "'do' x <- c ; k" := (Eff.bind c (fun x => k))
  (at level 10, x name, c at level 100, k at level 200) : eff_scope.
Notation "'do' ' p <- c ; k" := (Eff.bind c (fun x => match x with p => k end))
  (at level 10, p pattern, c at level 100, k at level 200) : eff_scope.
Notation "c ;; k" := (Eff.bind c (fun _ => k))
  (at level 100, k at level 200, right associativity) : eff_scope.

(** ** The source functions *)

Module PetMaps.
Import JS Builtins Eff.

#[local] Open Scope eff_scope.
#[local] Infix "|||" := or_else (at level 50, left associativity).

(** [rec.k] and [rec[k]] on a record of the feed. *)
Definition field (rec : gmap string JSVal) (k : string) : JSVal :=
  get (VObj rec) k.

Definition candidates : list string :=
  ["intake_location"; "location"; "found_location"].

(** The [for (const k of candidates)] loop of [getCoordsFromRecord]. *)
Fixpoint coords_among (rec : gmap string JSVal) (ks : list string)
  : option Coord :=
  match ks with
  | [] => None
  | k :: ks' =>
      let v := field rec k in
      if truthy v && is_object v && has_prop "latitude" v
         && has_prop "longitude" v
      then
        let lat := parseFloat (get v "latitude") in
        let lng := parseFloat (get v "longitude") in
        if Number_isFinite lat && Number_isFinite lng then Some (lat, lng)
        else coords_among rec ks'
      else coords_among rec ks'
  end.

Definition getCoordsFromRecord (rec : gmap string JSVal) : option Coord :=
  coords_among rec candidates.

Definition bestAddress (rec : gmap string JSVal) : JSVal :=
  get_opt (field rec "intake_location") "human_address"
  ||| get_opt (field rec "found_location") "human_address"
  ||| field rec "intake_location"
  ||| field rec "found_location"
  ||| field rec "address"
  ||| field rec "location_text"
  ||| VNull.

Definition geocode_url (address : JSVal) : string :=
  ("https://nominatim.openstreetmap.org/search?format=jsonv2&limit=1&q="
   ++ encodeURIComponent (ToString address ++ ", Montgomery County, MD"))%string.

(** [encodeURIComponent(s)] as a step: it throws on a lone surrogate. *)
Definition encode_component (s : string) : M string :=
  if has_lone_surrogate s then throw else ret (encodeURIComponent s).

(** The body of the [try] block of [geocode]. *)
Definition geocode_try (address : JSVal) : M (option Found) :=
  do cache <- read_cache;
  match lookup cache (ToString address) with
  | Some v => ret (Some v)
  | None =>
      sleep 1100;;
      do q <- encode_component (ToString address ++ ", Montgomery County, MD");
      do '(ok, body) <-
        fetch ("https://nominatim.openstreetmap.org/search?format=jsonv2&limit=1&q="
               ++ q)%string;
      if negb ok then ret None
      else
        do json <- res_json body;
        if negb (truthy (get_opt json "length")) then ret None
        else
          do lat0 <- get_or_throw (get_idx json 0) "lat";
          let lat := parseFloat lat0 in
          do lon0 <- get_or_throw (get_idx json 0) "lon";
          let lng := parseFloat lon0 in
          if negb (Number_isFinite lat) || negb (Number_isFinite lng)
          then ret None
          else
            write_cache (<[ToString address := (lat, lng)]> cache);;
            ret (Some (Pair (lat, lng)))
  end.

Definition geocode (address : JSVal) : M (option Found) :=
  log (Called (ToString address));;
  if negb (truthy address) then ret None
  else try_catch (geocode_try address) (ret None).

(** The objects pushed on [out]. *)
Record Point : Type := {
  lat : Num;
  lng : Num;
  rec : gmap string JSVal;
  photo : JSVal;
  name : JSVal;
  species : JSVal;
  address : JSVal
}.

Definition mk_point (coords : Coord) (r : gmap string JSVal) : Point :=
  {| lat := coords.1;
     lng := coords.2;
     rec := r;
     photo := if Array_isArray (field r "photo_links")
              then get_idx (field r "photo_links") 0
              else field r "photo_links";
     name := field r "name" ||| field r "animalid" ||| VStr "Unknown";
     species := field r "species" ||| VStr "PET";
     address := if is_string (field r "intake_location")
                then field r "intake_location"
                else get_opt (field r "intake_location") "human_address"
                     ||| field r "found_location" ||| VStr "" |}.

Definition MAX_GEOCODE : Z := 150.

(** The string handed to [geocode] for an address source. *)
Definition address_text (addrSource : JSVal) : JSVal :=
  if is_string addrSource then addrSource
  else if is_object addrSource && truthy (get addrSource "address") then
    VStr (ToString (get addrSource "address") ++ " "
          ++ ToString (get addrSource "city" ||| VStr "") ++ " "
          ++ ToString (get addrSource "state" ||| VStr "") ++ " "
          ++ ToString (get addrSource "zip" ||| VStr ""))%string
  else VNull.

(** The [if (!coords) { ... }] block: what the address fallback found, if
    anything, and the counter afterwards. *)
Definition address_fallback (r : gmap string JSVal) (geocoded : Z)
  : M (option Found * Z) :=
  let addrSource := bestAddress r in
  if truthy addrSource && (geocoded <? MAX_GEOCODE)%Z then
    let addr := address_text addrSource in
    if truthy addr then
      do g <- geocode addr;
      match g with
      | Some v => ret (Some v, geocoded + 1)%Z
      | None => ret (None, geocoded)
      end
    else ret (None, geocoded)
  else ret (None, geocoded).

(** The value of [coords] when a turn reaches [if (coords)], and the
    counter there. *)
Definition resolve_coords (r : gmap string JSVal) (geocoded : Z)
  : M (option Found * Z) :=
  match getCoordsFromRecord r with
  | Some c => ret (Some (Pair c), geocoded)
  | None => address_fallback r geocoded
  end.

(** [const [lat, lng] = coords]: a TypeError when [coords] is a member of
    [Object.prototype], which is not iterable. *)
Definition destructure (coords : Found) : M Coord :=
  match coords with
  | Pair c => ret c
  | Member _ => throw
  end.

(** One turn of [for (const rec of records)]. *)
Definition resolve_record (r : gmap string JSVal) (acc : list Point * Z)
  : M (list Point * Z) :=
  let '(out, geocoded) := acc in
  do '(coords, geocoded') <- resolve_coords r geocoded;
  match coords with
  | Some v =>
      do c <- destructure v;
      ret (out ++ [mk_point c r], geocoded')
  | None => ret (out, geocoded')
  end.

Fixpoint resolve_all (records : list (gmap string JSVal))
  (acc : list Point * Z) : M (list Point * Z) :=
  match records with
  | [] => ret acc
  | r :: records' =>
      do acc' <- resolve_record r acc;
      resolve_all records' acc'
  end.

(** The second effect of [PetMaps]: the list it hands to [setPoints]; when
    the loop throws nothing is handed over. *)
Definition locate (records : list (gmap string JSVal)) : M (list Point) :=
  match records with
  | [] => ret []
  | _ =>
      do '(out, _) <- resolve_all records ([], 0%Z);
      ret out
  end.

End PetMaps.

(** ** Arithmetic of the ranker

    The numbers the ranker computes with: a real, an infinity or NaN.
    A sum, difference, product or quotient of reals is exact as long as its
    magnitude stays below [2^1024 - 2^970], and is the infinity of its sign
    from there on. *)

Module Arith.
Import JS Builtins.

#[local] Open Scope R_scope.

Inductive XR : Type :=
| XNaN
| XInf (neg : bool)
| XFin (r : R).

Definition of_Num (n : Num) : XR :=
  match n with
  | NaN => XNaN
  | PInf => XInf false
  | NInf => XInf true
  | Fin m e => XFin (IZR m * powerRZ 10 e)
  end.

Definition is_neg (r : R) : bool := if Rlt_dec r 0 then true else false.
Definition is_zero (r : R) : bool := if Req_dec_T r 0 then true else false.

Definition huge : R := IZR overflow_bound.

(** The result of an operation whose exact value is [r]. *)
Definition fit (r : R) : XR :=
  if Rle_dec huge (Rabs r) then XInf (is_neg r) else XFin r.

Definition xsub (a b : XR) : XR :=
  match a, b with
  | XNaN, _ | _, XNaN => XNaN
  | XInf s, XInf t => if Bool.eqb s t then XNaN else XInf s
  | XInf s, XFin _ => XInf s
  | XFin _, XInf t => XInf (negb t)
  | XFin x, XFin y => fit (x - y)
  end.

Definition xadd (a b : XR) : XR :=
  match a, b with
  | XNaN, _ | _, XNaN => XNaN
  | XInf s, XInf t => if Bool.eqb s t then XInf s else XNaN
  | XInf s, XFin _ => XInf s
  | XFin _, XInf t => XInf t
  | XFin x, XFin y => fit (x + y)
  end.

Definition xmul (a b : XR) : XR :=
  match a, b with
  | XNaN, _ | _, XNaN => XNaN
  | XInf s, XInf t => XInf (xorb s t)
  | XInf s, XFin y => if is_zero y then XNaN else XInf (xorb s (is_neg y))
  | XFin x, XInf t => if is_zero x then XNaN else XInf (xorb (is_neg x) t)
  | XFin x, XFin y => fit (x * y)
  end.

Definition xdiv (a b : XR) : XR :=
  match a, b with
  | XNaN, _ | _, XNaN => XNaN
  | XInf _, XInf _ => XNaN
  | XInf s, XFin y => XInf (xorb s (is_neg y))
  | XFin _, XInf _ => XFin 0
  | XFin x, XFin y =>
      if is_zero y then (if is_zero x then XNaN else XInf (is_neg x))
      else fit (x / y)
  end.

Definition xsin (a : XR) : XR :=
  match a with XFin x => XFin (sin x) | _ => XNaN end.

Definition xcos (a : XR) : XR :=
  match a with XFin x => XFin (cos x) | _ => XNaN end.

Definition xsqrt (a : XR) : XR :=
  match a with
  | XNaN => XNaN
  | XInf s => if s then XNaN else XInf false
  | XFin x => if is_neg x then XNaN else XFin (sqrt x)
  end.

Definition xasin (a : XR) : XR :=
  match a with
  | XFin x =>
      if Rle_dec (-1) x then (if Rle_dec x 1 then XFin (asin x) else XNaN)
      else XNaN
  | _ => XNaN
  end.

(** [a ** 2]. *)
Definition xsquare (a : XR) : XR := xmul a a.

(** [v > 0] for the value a comparator returns; NaN counts as [+0]. *)
Definition is_positive (a : XR) : bool :=
  match a with
  | XNaN => false
  | XInf s => negb s
  | XFin x => if Rlt_dec 0 x then true else false
  end.

#[global] Instance XR_eq_dec : EqDecision XR.
Proof.
  intros [| s | x] [| t | y];
    try (right; discriminate); try (left; reflexivity).
  - destruct (Bool.bool_dec s t) as [-> | Hne];
      [left; reflexivity | right; congruence].
  - destruct (Req_dec_T x y) as [-> | Hne];
      [left; reflexivity | right; congruence].
Defined.

(** [a <= b]. *)
Definition xle (a b : XR) : Prop :=
  match a, b with
  | XNaN, _ | _, XNaN => False
  | XInf s, XInf t => s = true \/ t = false
  | XInf s, XFin _ => s = true
  | XFin _, XInf t => t = false
  | XFin x, XFin y => x <= y
  end.

End Arith.

Declare Scope xr_scope.
Delimit Scope xr_scope with xr.
Infix "-" := Arith.xsub : xr_scope.
Infix "+" := Arith.xadd : xr_scope.
Infix "*" := Arith.xmul : xr_scope.
Infix "/" := Arith.xdiv : xr_scope.

(** ** The proximity ranker *)

Module Ranker.
Import JS Eff Arith PetMaps.

Definition Math_PI : XR := XFin PI.
Definition lit (z : Z) : XR := XFin (IZR z).

Definition toRad (d : XR) : XR := ((d * Math_PI) / lit 180)%xr.

(** The steps of [haversineKm] in the arithmetic above: each step exact up
    to overflow, where the code rounds each step to a double. *)
Definition haversineKm (a b : Coord) : XR :=
  let R := lit 6371 in
  let dLat := toRad (of_Num b.1 - of_Num a.1)%xr in
  let dLon := toRad (of_Num b.2 - of_Num a.2)%xr in
  let lat1 := toRad (of_Num a.1) in
  let lat2 := toRad (of_Num b.1) in
  let h :=
    (xsquare (xsin (dLat / lit 2))
     + xcos lat1 * xcos lat2 * xsquare (xsin (dLon / lit 2)))%xr in
  (lit 2 * R * xasin (xsqrt h))%xr.

(** A point with its distance: [{...p, dist}]. *)
Record Ranked : Type := {
  point : Point;
  dist : XR
}.

(** [Array.prototype.sort(cmp)] is a stable sort: an element moves behind
    another only when the comparator puts it strictly after.  Where the
    comparator is consistent the sorted array is unique, and this insertion
    sort computes it. *)
Section Sort.
Context {A : Type} (cmp : A -> A -> XR).

Fixpoint insert (x : A) (l : list A) : list A :=
  match l with
  | [] => [x]
  | y :: l' => if is_positive (cmp x y) then y :: insert x l' else x :: l
  end.

Definition Array_sort (l : list A) : list A := foldr insert [] l.
End Sort.

(** [(a, b) => a.dist - b.dist]. *)
Definition by_dist (a b : Ranked) : XR := (dist a - dist b)%xr.

(** The [nearest] memo, the function that measures the distances left
    open.  For [distance] the double [haversineKm] returns, read as the real
    it is, this is the memo as it runs: the sign of a difference of two
    doubles is the sign of their exact difference. *)
Section Distance.
Context (distance : Coord -> Coord -> XR).

Definition with_dist_by (u : Coord) (points : list Point) : list Ranked :=
  map (fun p => {| point := p; dist := distance u (lat p, lng p) |}) points.

(** [userPos] is [null] or the array of the position. *)
Definition nearest_by (userPos : option Coord) (points : list Point)
  : list Ranked :=
  match userPos, points with
  | None, _ => []
  | Some _, [] => []
  | Some u, _ => take 25 (Array_sort by_dist (with_dist_by u points))
  end.
End Distance.

(** The memo over the distance of this embedding. *)
Definition with_dist (u : Coord) (points : list Point) : list Ranked :=
  with_dist_by haversineKm u points.

Definition nearest (userPos : option Coord) (points : list Point)
  : list Ranked :=
  nearest_by haversineKm userPos points.

End Ranker.

(** ** Vocabulary of the properties *)

Module Vocabulary.
Import JS Builtins Eff PetMaps Arith Ranker.

(** Field [k] of [rec] holds an object whose [latitude] and [longitude] parse
    to the finite pair [c]. *)
Definition valid_embedded (rec : gmap string JSVal) (k : string) (c : Coord)
  : Prop :=
  exists o a b,
    rec !! k = Some (VObj o)
    /\ o !! "latitude" = Some a /\ o !! "longitude" = Some b
    /\ c = (parseFloat a, parseFloat b)
    /\ Number_isFinite c.1 = true /\ Number_isFinite c.2 = true.

Definition coord_finite (c : Coord) : bool :=
  Number_isFinite c.1 && Number_isFinite c.2.

(** What one turn of the candidate loop tests. *)
Definition try_field (rec : gmap string JSVal) (k : string) : option Coord :=
  let v := field rec k in
  if truthy v && is_object v && has_prop "latitude" v && has_prop "longitude" v
  then
    let c := (parseFloat (get v "latitude"), parseFloat (get v "longitude")) in
    if coord_finite c then Some c else None
  else None.

(** The cache the store stands for, when it can be read. *)
Definition cache_of (st : Store) : option (gmap string Coord) :=
  match st with
  | Absent => Some ∅
  | Garbled => None
  | Cached c => Some c
  end.

(** Address [k] is cached with coordinate [c]. *)
Definition cached_at (st : Store) (k : string) (c : Coord) : Prop :=
  exists m, st = Cached m /\ m !! k = Some c.

Definition with_event (s : State) (e : Event) : State :=
  {| store := store s; trace := trace s ++ [e] |}.

Definition with_store (s : State) (st : Store) : State :=
  {| store := st; trace := trace s |}.

(** Every cached coordinate is finite. *)
Definition store_finite (st : Store) : Prop :=
  forall k c, cached_at st k c -> coord_finite c = true.

Definition point_finite (p : Point) : bool := coord_finite (lat p, lng p).

(** How many times [geocode] was entered. *)
Definition call_count (tr : list Event) : nat :=
  length (filter (fun e => is_call e = true) tr).

(** Latitude within [-90, 90] and longitude within [-180, 180]. *)
Definition in_range (c : Coord) : Prop :=
  (xle (lit (-90)) (of_Num c.1) /\ xle (of_Num c.1) (lit 90))
  /\ (xle (lit (-180)) (of_Num c.2) /\ xle (of_Num c.2) (lit 180)).

(** The coordinate a response carries, as [geocode] reads it. *)
Definition reply_coords (json : JSVal) : Coord :=
  (parseFloat (get (get_idx json 0) "lat"),
   parseFloat (get (get_idx json 0) "lon")).

(** The text [encodeURIComponent] is given holds a lone surrogate. *)
Definition malformed (address : JSVal) : bool :=
  has_lone_surrogate (ToString address ++ ", Montgomery County, MD").

(** The state once [geocode] has paced. *)
Definition after_sleep (s : State) (address : JSVal) : State :=
  with_event (with_event s (Called (ToString address))) (Slept 1100).

(** The state once [geocode] has paced and sent its request. *)
Definition after_request (s : State) (address : JSVal) : State :=
  with_event
    (with_event (with_event s (Called (ToString address))) (Slept 1100))
    (Fetched (geocode_url address)).

(** The coordinate a miss ends with: the response must be a success with a
    non-empty result whose first entry parses to a finite pair. *)
Definition fresh_coords (resp : Response) : option Coord :=
  match resp with
  | Replied true (Some json) =>
      if truthy (get_opt json "length") then
        match get_idx json 0 with
        | VUndefined | VNull => None
        | _ => if coord_finite (reply_coords json)
               then Some (reply_coords json) else None
        end
      else None
  | _ => None
  end.

(** The point was resolved by the address fallback: its record has no
    embedded coordinate. *)
Definition by_fallback (p : Point) : bool :=
  match getCoordsFromRecord (rec p) with
  | Some _ => false
  | None => true
  end.

(** The budget a turn uses. *)
Definition units {A} (oc : option A) : Z :=
  match oc with
  | Some _ => 1
  | None => 0
  end.

(** The points a turn adds. *)
Definition pushed (r : gmap string JSVal) (oc : option Coord) : list Point :=
  match oc with
  | Some c => [mk_point c r]
  | None => []
  end.

(** [turns env records n s ocs n' s']: from counter [n] and state [s], the
    turns of the loop over [records] all complete and end with counter [n']
    and state [s'], and [ocs] lists the value [coords] had at the end of
    each turn: [null] or a pair. *)
Inductive turns (env : Env)
  : list (gmap string JSVal) -> Z -> State ->
    list (option Coord) -> Z -> State -> Prop :=
| turns_nil n s : turns env [] n s [] n s
| turns_cons r records n s oc n1 s1 ocs n2 s2 :
    resolve_coords r n env s = (Ok (Pair <$> oc, n1), s1) ->
    turns env records n1 s1 ocs n2 s2 ->
    turns env (r :: records) n s (oc :: ocs) n2 s2.

(** The text the address fallback of a record hands to [geocode]. *)
Definition fallback_text (r : gmap string JSVal) : string :=
  ToString (address_text (bestAddress r)).

(** The record has an embedded coordinate, or the text of its address
    fallback is not the name of a member of [Object.prototype]. *)
Definition plain (r : gmap string JSVal) : bool :=
  match getCoordsFromRecord r with
  | Some _ => true
  | None => negb (inherited (fallback_text r))
  end.

(** The records that resolved, each as its point, in the order of the
    records. *)
Fixpoint resolved_points (records : list (gmap string JSVal))
  (ocs : list (option Coord)) : list Point :=
  match records, ocs with
  | r :: records', oc :: ocs' => pushed r oc ++ resolved_points records' ocs'
  | _, _ => []
  end.

(** The real a finite number stands for. *)
Definition real_of (m e : Z) : R := (IZR m * powerRZ 10 e)%R.

(** The haversine formula over the reals, in kilometres, for positions in
    degrees. *)
Definition haversine_real (a1 a2 b1 b2 : R) : R :=
  (2 * 6371
   * asin (sqrt (sin ((b1 - a1) * PI / 180 / 2) * sin ((b1 - a1) * PI / 180 / 2)
                 + cos (a1 * PI / 180) * cos (b1 * PI / 180)
                   * (sin ((b2 - a2) * PI / 180 / 2)
                      * sin ((b2 - a2) * PI / 180 / 2)))))%R.

(** The distance of a ranked point is a real number. *)
Definition dist_finite (a : Ranked) : Prop := exists x, dist a = XFin x.

(** [a] is no farther than [b]. *)
Definition dist_le (a b : Ranked) : Prop := xle (dist a) (dist b).

(** The ranked points at distance [d], in the order of the list. *)
Definition at_dist (d : XR) (l : list Ranked) : list Ranked :=
  filter (fun a => dist a = d) l.

(** *** Concrete environments and records *)

Definition fresh : State := {| store := Absent; trace := [] |}.

(** A network that answers every request with the one result [lat], [lon],
    and a storage that takes every write. *)
Definition answering (lat lon : string) : Env :=
  {| network := fun _ _ =>
       Replied true (Some (VArr [VObj {[ "lat" := VStr lat; "lon" := VStr lon ]}]));
     storage_accepts := fun _ => true |}.

(** A network that is down. *)
Definition offline : Env :=
  {| network := fun _ _ => Rejected; storage_accepts := fun _ => true |}.

Definition embedded_record : gmap string JSVal :=
  {[ "location" :=
       VObj {[ "latitude" := VStr "39.0"; "longitude" := VStr "-77.1" ]} ]}.

Definition far_record : gmap string JSVal :=
  {[ "location" :=
       VObj {[ "latitude" := VStr "91"; "longitude" := VStr "200" ]} ]}.

Definition address_record : gmap string JSVal :=
  {[ "address" := VStr "100 Main St" ]}.

(** A structured address, the zip code a number. *)
Definition structured_record : gmap string JSVal :=
  {[ "found_location" :=
       VObj {[ "address" := VStr "123 Elm St"; "city" := VStr "Rockville";
               "zip" := VNum (Fin 20850 0) ]} ]}.

(** An intake location that is an object with neither [human_address] nor
    [address]. *)
Definition bare_location_record : gmap string JSVal :=
  {[ "intake_location" := VObj {[ "city" := VStr "Rockville" ]} ]}.

(** An address that is the name of a member of [Object.prototype]. *)
Definition inherited_record : gmap string JSVal :=
  {[ "address" := VStr "constructor" ]}.

(** An address that ends in the lone surrogate U+D800. *)
Definition torn_address : string :=
  ("5 Elm St" ++ String (ascii_of_N 237) (String (ascii_of_N 160)
                   (String (ascii_of_N 128) "")))%string.

Definition torn_record : gmap string JSVal :=
  {[ "address" := VStr torn_address ]}.

(** A latitude that is finite and beyond [2^1024 / PI]. *)
Definition huge_record : gmap string JSVal :=
  {[ "location" :=
       VObj {[ "latitude" := VStr "7e307"; "longitude" := VStr "0" ]} ]}.

(** A reference position and two points, the first at the position. *)
Definition here : Coord := (Fin 3915 (-2), Fin (-7724) (-2)).

Definition point_here : Point :=
  mk_point (Fin 3915 (-2), Fin (-7724) (-2)) address_record.

Definition point_away : Point :=
  mk_point (Fin 396 (-1), Fin (-7724) (-2)) address_record.

Definition point_beyond : Point := mk_point (Fin 7 307, Fin 0 0) huge_record.

End Vocabulary.

(** ** The rest of the component *)

(** [Math.min], [Math.max] and the order of numbers. *)
Module MathBuiltins.
Import JS.

(** [m1 * 10^e1] against [m2 * 10^e2], both scaled to the smaller
    exponent. *)
Definition dec_compare (m1 e1 m2 e2 : Z) : comparison :=
  let e := Z.min e1 e2 in
  (m1 * 10 ^ (e1 - e) ?= m2 * 10 ^ (e2 - e))%Z.

(** [a < b]; false as soon as one side is NaN. *)
Definition Num_ltb (a b : Num) : bool :=
  match a, b with
  | NaN, _ | _, NaN => false
  | _, NInf => false
  | NInf, _ => true
  | PInf, _ => false
  | Fin _ _, PInf => true
  | Fin m1 e1, Fin m2 e2 =>
      match dec_compare m1 e1 m2 e2 with Lt => true | _ => false end
  end.

Definition is_NaN (a : Num) : bool :=
  match a with NaN => true | _ => false end.

(** [Math.min(...l)]: NaN if an argument is NaN, [Infinity] for no argument,
    else the first of the least arguments. *)
Definition Math_min (l : list Num) : Num :=
  if existsb is_NaN l then NaN
  else fold_left (fun lowest x => if Num_ltb x lowest then x else lowest) l PInf.

(** [Math.max(...l)]. *)
Definition Math_max (l : list Num) : Num :=
  if existsb is_NaN l then NaN
  else fold_left (fun highest x => if Num_ltb highest x then x else highest)
         l NInf.

End MathBuiltins.

Module Component.
Import JS Builtins Eff PetMaps Arith Ranker MathBuiltins.

#[local] Open Scope eff_scope.

Definition SOC_DATA_URL : string :=
  "https://data.montgomerycountymd.gov/resource/e54u-qx42.json?$limit=5000".

(** The first effect of [PetMaps]: the array it hands to [setRecords]. *)
Definition load_records : M (list JSVal) :=
  try_catch
    (do '(_, body) <- fetch SOC_DATA_URL;
     do data <- res_json body;
     ret (match data with VArr l => l | _ => [] end))
    (ret []).

(** An entry of the feed that is an object is a record; [None] stands for an
    entry that is [null], on which the first [rec[k]] of
    [getCoordsFromRecord] throws. *)
Definition resolve_entry (entry : option (gmap string JSVal))
  (acc : list Point * Z) : M (list Point * Z) :=
  match entry with
  | Some r => resolve_record r acc
  | None => throw
  end.

Fixpoint resolve_entries (entries : list (option (gmap string JSVal)))
  (acc : list Point * Z) : M (list Point * Z) :=
  match entries with
  | [] => ret acc
  | entry :: entries' =>
      do acc' <- resolve_entry entry acc;
      resolve_entries entries' acc'
  end.

(** The second effect of [PetMaps] over a feed that may hold [null]
    entries. *)
Definition locate_entries (entries : list (option (gmap string JSVal)))
  : M (list Point) :=
  match entries with
  | [] => ret []
  | _ =>
      do '(out, _) <- resolve_entries entries ([], 0%Z);
      ret out
  end.

(** The call [map.fitBounds([[south, west], [north, east]], {padding})]. *)
Record FitCall : Type := {
  south : Num;
  west : Num;
  north : Num;
  east : Num;
  padding : XR * XR
}.

(** [pad = 0.1]. *)
Definition default_pad : Num := Fin 1 (-1).

(** The effect of [FitBounds] for a map of size [size]: the call of
    [map.fitBounds] it makes, if it makes one. *)
Definition FitBounds (size : Num * Num) (points : list Point) (pad : Num)
  : option FitCall :=
  match points with
  | [] => None
  | _ =>
      let lats := map lat points in
      let lngs := map lng points in
      let south := Math_min lats in
      let west := Math_min lngs in
      let north := Math_max lats in
      let east := Math_max lngs in
      if Number_isFinite south && Number_isFinite west
         && Number_isFinite north && Number_isFinite east
      then
        Some {| south := south; west := west; north := north; east := east;
                padding := ((of_Num size.1 * of_Num pad)%xr,
                            (of_Num size.2 * of_Num pad)%xr) |}
      else None
  end.

(** What the third map fits: [nearest.length ? nearest : points]. *)
Definition fitted_points (ranked : list Ranked) (points : list Point)
  : list Point :=
  match ranked with
  | [] => points
  | _ => map point ranked
  end.

(** The [FitBounds] of the third map, rendered only with a position: the
    call it makes for a map of size [size]. *)
Definition nearest_view_fit (size : Num * Num) (userPos : option Coord)
  (points : list Point) : option FitCall :=
  match userPos with
  | None => None
  | Some _ =>
      FitBounds size (fitted_points (nearest userPos points) points)
        default_pad
  end.

End Component.

(** ** More vocabulary *)

Module Vocabulary2.
Import JS Builtins Eff PetMaps Arith Ranker MathBuiltins Component Vocabulary.

(** The trace a run adds: a sequence of calls of [geocode], each for a
    non-empty address, each either alone, or followed at once by the 1100 ms
    sleep, or by that sleep and then the request for that address. *)
Inductive paced : list Event -> Prop :=
| paced_nil : paced []
| paced_call a tr :
    a <> "" -> paced tr -> paced (Called a :: tr)
| paced_sleep a tr :
    a <> "" -> paced tr -> paced (Called a :: Slept 1100 :: tr)
| paced_request a tr :
    a <> "" -> paced tr ->
    paced (Called a :: Slept 1100 :: Fetched (geocode_url (VStr a)) :: tr).

Definition is_sleep (e : Event) : bool :=
  match e with Slept _ => true | _ => false end.

Definition sleep_count (tr : list Event) : nat :=
  length (filter (fun e => is_sleep e = true) tr).

(** The ways a call of [geocode] can go: the value it returns and the state
    it leaves. *)
Inductive geocode_outcome (address : JSVal) (s : State)
  : option Found -> State -> Prop :=
| outcome_falsy :
    truthy address = false ->
    geocode_outcome address s None (with_event s (Called (ToString address)))
| outcome_garbled :
    truthy address = true ->
    store s = Garbled ->
    geocode_outcome address s None (with_event s (Called (ToString address)))
| outcome_hit m v :
    truthy address = true ->
    cache_of (store s) = Some m ->
    lookup m (ToString address) = Some v ->
    geocode_outcome address s (Some v)
      (with_event s (Called (ToString address)))
| outcome_malformed m :
    truthy address = true ->
    cache_of (store s) = Some m ->
    lookup m (ToString address) = None ->
    malformed address = true ->
    geocode_outcome address s None (after_sleep s address)
| outcome_failed m :
    truthy address = true ->
    cache_of (store s) = Some m ->
    lookup m (ToString address) = None ->
    malformed address = false ->
    geocode_outcome address s None (after_request s address)
| outcome_fetched m c :
    truthy address = true ->
    cache_of (store s) = Some m ->
    lookup m (ToString address) = None ->
    malformed address = false ->
    coord_finite c = true ->
    geocode_outcome address s (Some (Pair c))
      (with_store (after_request s address)
         (Cached (<[ToString address := c]> m))).

(** How many addresses the cache holds. *)
Definition cache_size (st : Store) : nat :=
  match st with
  | Cached m => size m
  | _ => 0
  end.

(** The six sources [bestAddress] looks at, in its order. *)
Definition address_sources (r : gmap string JSVal) : list JSVal :=
  [get_opt (field r "intake_location") "human_address";
   get_opt (field r "found_location") "human_address";
   field r "intake_location";
   field r "found_location";
   field r "address";
   field r "location_text"].

(** The point a record with an embedded coordinate becomes. *)
Definition embedded_point (r : gmap string JSVal) : option Point :=
  match getCoordsFromRecord r with
  | Some c => Some (mk_point c r)
  | None => None
  end.

Definition has_embedded (r : gmap string JSVal) : bool :=
  match getCoordsFromRecord r with
  | Some _ => true
  | None => false
  end.

(** [a <= b] on numbers, through the reals they stand for. *)
Definition Num_le (a b : Num) : Prop := xle (of_Num a) (of_Num b).

(** NaN or an infinity. *)
Definition unreal (x : XR) : Prop := x = XNaN \/ exists s, x = XInf s.

(** [- x]. *)
Definition xneg (x : XR) : XR :=
  match x with
  | XNaN => XNaN
  | XInf s => XInf (negb s)
  | XFin r => XFin (- r)
  end.

(** A finite number of magnitude at most [10^6]. *)
Definition modest_num (n : Num) : Prop :=
  match n with
  | Fin m e => (Rabs (real_of m e) <= 1000000)%R
  | _ => False
  end.

Definition modest (c : Coord) : Prop := modest_num c.1 /\ modest_num c.2.

(** The part of the haversine term that one coordinate difference [d], in
    degrees, contributes: [Math.sin(toRad(d) / 2) ** 2]. *)
Definition half_chord (d : XR) : XR := xsquare (xsin (toRad d / lit 2)%xr).

(** The call [FitBounds] makes for the two sample points on a map of 800 by
    360 pixels. *)
Definition sample_fit : FitCall :=
  {| south := Fin 3915 (-2); west := Fin (-7724) (-2);
     north := Fin 396 (-1); east := Fin (-7724) (-2);
     padding := ((of_Num (Fin 800 0) * of_Num default_pad)%xr,
                 (of_Num (Fin 360 0) * of_Num default_pad)%xr) |}.

(** A record with numeric coordinates under [found_location]. *)
Definition numeric_record : gmap string JSVal :=
  {[ "found_location" :=
       VObj {[ "latitude" := VNum (Fin 3908 (-2));
               "longitude" := VNum (Fin (-772) (-1)) ]} ]}.

End Vocabulary2.

(** * Properties *)

(** ** Sanity checks of the built-ins *)

Module BuiltinExamples.
Import JS Builtins Vocabulary.

Example parseFloat_decimal :
  parseFloat (VStr "39.0") = Fin 39 0
  /\ parseFloat (VStr "-77.1") = Fin (-771) (-1)
  /\ parseFloat (VStr "  .5e1x") = Fin 5 0
  /\ parseFloat (VNum (Fin 1234 (-2))) = Fin 1234 (-2).
Proof. repeat split; vm_compute; reflexivity. Qed.

Example parseFloat_not_finite :
  parseFloat (VStr "") = NaN
  /\ parseFloat (VStr "n/a") = NaN
  /\ parseFloat VNull = NaN
  /\ parseFloat (VStr "1e400") = PInf
  /\ parseFloat (VStr "-Infinity") = NInf.
Proof. repeat split; vm_compute; reflexivity. Qed.

Example Number_toString_forms :
  Number_toString (Fin 20850 0) = "20850"
  /\ Number_toString (Fin (-771) (-1)) = "-77.1"
  /\ Number_toString (Fin 15 20) = "1.5e+21"
  /\ Number_toString (Fin 15 (-8)) = "1.5e-7".
Proof. repeat split; vm_compute; reflexivity. Qed.

Example encodeURIComponent_query :
  encodeURIComponent "100 Main St, Montgomery County, MD"
  = "100%20Main%20St%2C%20Montgomery%20County%2C%20MD".
Proof. vm_compute; reflexivity. Qed.

Example lone_surrogate_found :
  has_lone_surrogate "100 Main St, Montgomery County, MD" = false
  /\ has_lone_surrogate torn_address = true.
Proof. split; vm_compute; reflexivity. Qed.

End BuiltinExamples.

(** ** Embedded extraction *)

Module ExtractionFacts.
Import JS Builtins Eff PetMaps Vocabulary.

Lemma coords_among_cons rec k ks :
  coords_among rec (k :: ks)
  = match try_field rec k with
    | Some c => Some c
    | None => coords_among rec ks
    end.
Proof.
  unfold try_field, coord_finite; cbn [coords_among fst snd].
  destruct (truthy _ && _ && _ && _); [|reflexivity].
  destruct (Number_isFinite _ && Number_isFinite _); reflexivity.
Qed.

Lemma get_Some o k (v : JSVal) : o !! k = Some v -> get (VObj o) k = v.
Proof. intros H; unfold get; rewrite H; reflexivity. Qed.

Lemma get_None (o : gmap string JSVal) k :
  o !! k = None -> get (VObj o) k = VUndefined.
Proof. intros H; unfold get; rewrite H; reflexivity. Qed.

Lemma has_prop_Some o k (v : JSVal) :
  o !! k = Some v -> has_prop k (VObj o) = true.
Proof.
  intros H; unfold has_prop. apply bool_decide_eq_true. rewrite H. eauto.
Qed.

Lemma has_prop_None (o : gmap string JSVal) k :
  o !! k = None -> has_prop k (VObj o) = false.
Proof.
  intros H; unfold has_prop. apply bool_decide_eq_false. rewrite H.
  intros [? ?]; discriminate.
Qed.


Lemma try_field_Some rec k c :
  try_field rec k = Some c -> valid_embedded rec k c.
Proof.
  unfold try_field, field, coord_finite.
  destruct (rec !! k) as [v|] eqn:Hk;
    [rewrite (get_Some _ _ _ Hk)|rewrite (get_None _ _ Hk); discriminate].
  destruct v as [| |x|n|t|l|o]; try discriminate.
  - destruct (truthy (VBool x)); discriminate.
  - destruct (truthy (VNum n)); discriminate.
  - destruct (truthy (VStr t)); discriminate.
  - cbn [truthy is_object typeof andb].
    destruct (o !! "latitude") as [a|] eqn:Ha;
      [|rewrite (has_prop_None _ _ Ha); discriminate].
    destruct (o !! "longitude") as [b|] eqn:Hb;
      [|rewrite (has_prop_None _ _ Hb), andb_false_r; discriminate].
    rewrite (has_prop_Some _ _ _ Ha), (has_prop_Some _ _ _ Hb),
      (get_Some _ _ _ Ha), (get_Some _ _ _ Hb).
    cbn [andb fst snd].
    destruct (Number_isFinite (parseFloat a)) eqn:Hf1; [|discriminate].
    destruct (Number_isFinite (parseFloat b)) eqn:Hf2; [|discriminate].
    intros [= <-]. exists o, a, b. cbn [fst snd]. auto 10.
Qed.


Lemma coords_among_finite rec ks c :
  coords_among rec ks = Some c -> coord_finite c = true.
Proof.
  induction ks as [|k ks IH]; [discriminate|].
  rewrite coords_among_cons.
  destruct (try_field rec k) as [c'|] eqn:Ht; [|exact IH].
  intros [= <-]. apply try_field_Some in Ht.
  destruct Ht as (_ & _ & _ & _ & _ & _ & _ & H1 & H2).
  unfold coord_finite. rewrite H1, H2. reflexivity.
Qed.

End ExtractionFacts.

(** ** The monad *)

Module EffFacts.
Import JS Eff Vocabulary.

Section Laws.
Context {A B : Type}.

Lemma bind_ok (c : M A) (k : A -> M B) env s a s' :
    c env s = (Ok a, s') -> bind c k env s = k a env s'.
Proof. intros H; unfold bind; rewrite H; reflexivity. Qed.

Lemma bind_thrown (c : M A) (k : A -> M B) env s s' :
    c env s = (Thrown, s') -> bind c k env s = (Thrown, s').
Proof. intros H; unfold bind; rewrite H; reflexivity. Qed.

Lemma try_catch_ok (c h : M A) env s a s' :
    c env s = (Ok a, s') -> try_catch c h env s = (Ok a, s').
Proof. intros H; unfold try_catch; rewrite H; reflexivity. Qed.

Lemma try_catch_thrown (c h : M A) env s s' :
    c env s = (Thrown, s') -> try_catch c h env s = h env s'.
Proof. intros H; unfold try_catch; rewrite H; reflexivity. Qed.
End Laws.

Lemma fetch_count_snoc tr e :
  fetch_count (tr ++ [e]) = (fetch_count tr + if is_fetch e then 1 else 0)%nat.
Proof.
  unfold fetch_count. rewrite filter_app, length_app.
  destruct e; reflexivity.
Qed.

Lemma call_count_app tr1 tr2 :
  call_count (tr1 ++ tr2) = (call_count tr1 + call_count tr2)%nat.
Proof. unfold call_count. rewrite filter_app, length_app. reflexivity. Qed.

Lemma read_cache_ok env s m :
  cache_of (store s) = Some m -> read_cache env s = (Ok m, s).
Proof. unfold read_cache; destruct (store s); simpl; congruence. Qed.

Lemma read_cache_garbled env s :
  store s = Garbled -> read_cache env s = (Thrown, s).
Proof. unfold read_cache; intros ->; reflexivity. Qed.

Lemma cache_of_cases st :
  st = Garbled \/ exists m, cache_of st = Some m.
Proof. destruct st; simpl; eauto. Qed.

End EffFacts.

(** ** The geocoder *)

Module GeocodeFacts.
Import JS Builtins Eff PetMaps Vocabulary Vocabulary2 EffFacts.

Lemma geocode_falsy address env s :
  truthy address = false ->
  geocode address env s = (Ok None, with_event s (Called (ToString address))).
Proof. intros Ht. unfold geocode, bind, log. rewrite Ht. reflexivity. Qed.

Lemma geocode_truthy address env s :
  truthy address = true ->
  geocode address env s
  = try_catch (geocode_try address) (ret None) env
      (with_event s (Called (ToString address))).
Proof. intros Ht. unfold geocode, bind, log. rewrite Ht. reflexivity. Qed.

Lemma geocode_garbled address env s :
  store s = Garbled ->
  geocode address env s = (Ok None, with_event s (Called (ToString address))).
Proof.
  intros Hs. destruct (truthy address) eqn:Ht; [|apply geocode_falsy, Ht].
  rewrite (geocode_truthy _ _ _ Ht).
  erewrite try_catch_thrown; [reflexivity|]. unfold geocode_try.
  apply bind_thrown, read_cache_garbled. exact Hs.
Qed.

Lemma lookup_own (m : gmap string Coord) k c :
  m !! k = Some c -> lookup m k = Some (Pair c).
Proof. intros H. unfold lookup. rewrite H. reflexivity. Qed.

Lemma lookup_Pair (m : gmap string Coord) k c :
  lookup m k = Some (Pair c) -> m !! k = Some c.
Proof.
  unfold lookup. destruct (m !! k) as [c'|]; [congruence|].
  destruct (inherited k); discriminate.
Qed.

Lemma lookup_Member (m : gmap string Coord) k k' :
  lookup m k = Some (Member k') ->
  k' = k /\ m !! k = None /\ inherited k = true.
Proof.
  unfold lookup. destruct (m !! k) as [c'|]; [discriminate|].
  destruct (inherited k); [|discriminate]. intros [= <-]. auto.
Qed.

Lemma lookup_None (m : gmap string Coord) k :
  lookup m k = None <-> m !! k = None /\ inherited k = false.
Proof.
  unfold lookup. destruct (m !! k) as [c'|].
  - split; [discriminate|intros [? _]; discriminate].
  - destruct (inherited k); split; try discriminate; auto.
    intros [_ ?]; discriminate.
Qed.

(** A truthy [cache[address]] is returned at once. *)
Lemma geocode_hit address env s m v :
  truthy address = true ->
  cache_of (store s) = Some m ->
  lookup m (ToString address) = Some v ->
  geocode address env s
  = (Ok (Some v), with_event s (Called (ToString address))).
Proof.
  intros Ht Hc Hm. rewrite (geocode_truthy _ _ _ Ht).
  erewrite try_catch_ok; [reflexivity|]. unfold geocode_try.
  rewrite (bind_ok _ _ _ _ _ _
             (read_cache_ok env (with_event s (Called (ToString address)))
                m Hc)).
  cbv beta. rewrite Hm. reflexivity.
Qed.

(** On a lone surrogate the [try] block throws after the sleep. *)
Lemma geocode_try_malformed address env s m :
  cache_of (store s) = Some m ->
  lookup m (ToString address) = None ->
  malformed address = true ->
  geocode_try address env s = (Thrown, with_event s (Slept 1100)).
Proof.
  intros Hc Hm Hbad. unfold geocode_try.
  rewrite (bind_ok _ _ _ _ _ _ (read_cache_ok env s m Hc)). cbv beta.
  rewrite Hm. unfold malformed in Hbad.
  unfold bind at 1, sleep, log. unfold bind at 1, encode_component.
  rewrite Hbad. reflexivity.
Qed.

(** What the [try] block does on a miss. *)
Lemma geocode_try_miss address env s m :
  cache_of (store s) = Some m ->
  lookup m (ToString address) = None ->
  malformed address = false ->
  let s1 := with_event (with_event s (Slept 1100))
              (Fetched (geocode_url address)) in
  geocode_try address env s =
    match network env (fetch_count (trace s)) (geocode_url address) with
    | Replied true (Some json) =>
        if truthy (get_opt json "length") then
          match get_idx json 0 with
          | VUndefined | VNull => (Thrown, s1)
          | _ =>
              let c := reply_coords json in
              if coord_finite c then
                if storage_accepts env (<[ToString address := c]> m)
                then (Ok (Some (Pair c)),
                      with_store s1 (Cached (<[ToString address := c]> m)))
                else (Thrown, s1)
              else (Ok None, s1)
          end
        else (Ok None, s1)
    | Replied true None => (Thrown, s1)
    | Replied false _ => (Ok None, s1)
    | Rejected => (Thrown, s1)
    end.
Proof.
  intros Hc Hm Hgood s1. unfold geocode_try.
  rewrite (bind_ok _ _ _ _ _ _ (read_cache_ok env s m Hc)). cbv beta.
  rewrite Hm. unfold malformed in Hgood.
  unfold bind at 1, sleep, log. unfold bind at 1, encode_component.
  rewrite Hgood. unfold ret at 1.
  fold (geocode_url address).
  unfold bind at 1, fetch.
  cbn [store trace]. rewrite fetch_count_snoc. cbn [is_fetch].
  rewrite Nat.add_0_r.
  change {| store := store s;
            trace := (trace s ++ [Slept 1100])
                     ++ [Fetched (geocode_url address)] |} with s1.
  destruct (network env _ _) as [|[|] [json|]]; cbn [negb res_json];
    try reflexivity.
  unfold bind at 1, ret at 1.
  destruct (truthy (get_opt json "length")); cbn [negb]; [|reflexivity].
  unfold coord_finite, reply_coords.
  destruct (get_idx json 0) eqn:Hj; cbn [get_or_throw]; try reflexivity.
  all: unfold bind at 1, ret at 1; unfold bind at 1, ret at 1; cbn [fst snd].
  all: destruct (Number_isFinite (parseFloat (get _ "lat")));
    destruct (Number_isFinite (parseFloat (get _ "lon")));
    cbn [negb orb andb]; try reflexivity.
  all: unfold bind, write_cache, ret, with_store; cbn [store trace];
    destruct (storage_accepts env _); reflexivity.
Qed.

Lemma geocode_malformed address env s m :
  truthy address = true ->
  cache_of (store s) = Some m ->
  lookup m (ToString address) = None ->
  malformed address = true ->
  geocode address env s = (Ok None, after_sleep s address).
Proof.
  intros Ht Hc Hm Hbad. rewrite (geocode_truthy _ _ _ Ht).
  erewrite try_catch_thrown; [reflexivity|].
  apply (geocode_try_malformed address env
           (with_event s (Called (ToString address))) m Hc Hm Hbad).
Qed.

Lemma geocode_miss address env s m :
  truthy address = true ->
  cache_of (store s) = Some m ->
  lookup m (ToString address) = None ->
  malformed address = false ->
  geocode address env s =
    match fresh_coords
            (network env (fetch_count (trace s)) (geocode_url address)) with
    | Some c =>
        if storage_accepts env (<[ToString address := c]> m)
        then (Ok (Some (Pair c)),
              with_store (after_request s address)
                (Cached (<[ToString address := c]> m)))
        else (Ok None, after_request s address)
    | None => (Ok None, after_request s address)
    end.
Proof.
  intros Ht Hc Hm Hgood. rewrite (geocode_truthy _ _ _ Ht).
  pose proof (geocode_try_miss address env
                (with_event s (Called (ToString address))) m Hc Hm Hgood) as H.
  cbv zeta in H.
  assert (Hn : fetch_count (trace (with_event s (Called (ToString address))))
               = fetch_count (trace s)).
  { unfold with_event; cbn [trace]. rewrite fetch_count_snoc.
    cbn [is_fetch]. lia. }
  rewrite Hn in H. fold (after_request s address) in H.
  unfold try_catch. rewrite H. unfold fresh_coords, ret.
  destruct (network env _ _) as [|[|] [json|]]; try reflexivity.
  destruct (truthy (get_opt json "length")); [|reflexivity].
  destruct (get_idx json 0); try reflexivity;
    destruct (coord_finite (reply_coords json)); try reflexivity;
    destruct (storage_accepts env _); reflexivity.
Qed.

Lemma fresh_coords_Some resp c :
  fresh_coords resp = Some c ->
  exists json,
    resp = Replied true (Some json)
    /\ truthy (get_opt json "length") = true
    /\ c = reply_coords json
    /\ coord_finite c = true.
Proof.
  unfold fresh_coords.
  destruct resp as [|[|] [json|]]; try discriminate.
  destruct (truthy (get_opt json "length")) eqn:Hl; [|discriminate].
  destruct (coord_finite (reply_coords json)) eqn:Hf;
    destruct (get_idx json 0); try discriminate;
    intros [= <-]; exists json; auto.
Qed.

(** The ways a call of [geocode] can go. *)
Lemma geocode_outcome_holds address env s :
  exists g s',
    geocode address env s = (Ok g, s') /\ geocode_outcome address s g s'.
Proof.
  destruct (truthy address) eqn:Ht.
  2: { rewrite (geocode_falsy _ _ _ Ht). do 2 eexists.
       split; [reflexivity|]. apply outcome_falsy, Ht. }
  destruct (cache_of_cases (store s)) as [Hg | [m Hc]].
  { rewrite (geocode_garbled _ _ _ Hg). do 2 eexists.
    split; [reflexivity|]. apply outcome_garbled; assumption. }
  destruct (lookup m (ToString address)) as [v|] eqn:Hm.
  { rewrite (geocode_hit _ _ _ _ _ Ht Hc Hm). do 2 eexists.
    split; [reflexivity|]. eapply outcome_hit; eassumption. }
  destruct (malformed address) eqn:Hbad.
  { rewrite (geocode_malformed _ _ _ _ Ht Hc Hm Hbad). do 2 eexists.
    split; [reflexivity|]. eapply outcome_malformed; eassumption. }
  rewrite (geocode_miss _ _ _ _ Ht Hc Hm Hbad).
  destruct (fresh_coords _) as [c|] eqn:Hf.
  - apply fresh_coords_Some in Hf. destruct Hf as (_ & _ & _ & _ & Hfin).
    destruct (storage_accepts env _); do 2 eexists; (split; [reflexivity|]).
    + eapply outcome_fetched; eassumption.
    + eapply outcome_failed; eassumption.
  - do 2 eexists. split; [reflexivity|]. eapply outcome_failed; eassumption.
Qed.

Lemma cache_of_cached st m k c :
  cache_of st = Some m -> m !! k = Some c -> cached_at st k c.
Proof.
  destruct st as [| |m']; simpl; intros [= <-] Hk.
  - rewrite lookup_empty in Hk. discriminate.
  - exists m'. auto.
Qed.

Lemma cached_cache_of st k c :
  cached_at st k c -> exists m, cache_of st = Some m /\ m !! k = Some c.
Proof. intros (m & -> & Hk). exists m. auto. Qed.

(** A call of [geocode] keeps the entries of the cache, and the one entry
    it can add is a finite pair under the address. *)
Lemma outcome_store address s g s' :
  geocode_outcome address s g s' ->
  (forall k c, cached_at (store s) k c -> cached_at (store s') k c)
  /\ (forall k c, cached_at (store s') k c ->
        cached_at (store s) k c
        \/ (k = ToString address /\ truthy address = true
            /\ g = Some (Pair c) /\ coord_finite c = true)).
Proof.
  intros Ho.
  destruct Ho as [Ht | Ht Hs | m v Ht Hc Hm | m Ht Hc Hm Hb | m Ht Hc Hm Hb
                 | m c0 Ht Hc Hm Hb Hf];
    try (split; intros k c Hk; [exact Hk | left; exact Hk]).
  apply lookup_None in Hm as [Hm _].
  cbn [with_store store]. split; intros k c Hk.
  - destruct (cached_cache_of _ _ _ Hk) as (m' & Hc' & Hk').
    rewrite Hc in Hc'. injection Hc' as <-.
    eexists. split; [reflexivity|].
    rewrite lookup_insert_ne; [exact Hk'|]. congruence.
  - destruct Hk as (m' & [= <-] & Hk).
    destruct (decide (ToString address = k)) as [<- | Hne].
    + rewrite lookup_insert_eq in Hk. injection Hk as <-. right. auto.
    + rewrite lookup_insert_ne in Hk by exact Hne. left.
      exact (cache_of_cached _ _ _ _ Hc Hk).
Qed.

(** The only key [geocode] can add for a string address is that address,
    and then the address is not empty. *)
Lemma geocode_writes_nonempty_key (a : string) env s g s' :
  geocode (VStr a) env s = (g, s') ->
  forall k c, cached_at (store s') k c ->
    cached_at (store s) k c \/ (k = a /\ a <> "").
Proof.
  intros Hg k c Hk.
  destruct (geocode_outcome_holds (VStr a) env s) as (g0 & s0 & Hg0 & Ho).
  rewrite Hg in Hg0. injection Hg0 as -> ->.
  destruct (proj2 (outcome_store _ _ _ _ Ho) k c Hk)
    as [Hold | (-> & Ht & _)]; [left; exact Hold|].
  right. split; [reflexivity|].
  cbn [truthy] in Ht. apply negb_true_iff, String.eqb_neq in Ht. exact Ht.
Qed.

End GeocodeFacts.

(** ** Claims about the geocoder *)

Module GeocodeClaims.
Import JS Builtins Eff PetMaps Vocabulary Vocabulary2 EffFacts GeocodeFacts.

(** Two states that read as the same cache and share a trace are taken the
    same way by [geocode]. *)
Lemma geocode_reads_cache_only address env s1 s2 m :
  cache_of (store s1) = Some m ->
  cache_of (store s2) = Some m ->
  trace s1 = trace s2 ->
  exists r s1' s2',
    geocode address env s1 = (Ok r, s1')
    /\ geocode address env s2 = (Ok r, s2')
    /\ trace s1' = trace s2'
    /\ cache_of (store s1') = cache_of (store s2').
Proof.
  intros H1 H2 Htr.
  destruct (truthy address) eqn:Ht.
  - destruct (lookup m (ToString address)) as [v|] eqn:Hm.
    + rewrite (geocode_hit _ _ _ _ _ Ht H1 Hm), (geocode_hit _ _ _ _ _ Ht H2 Hm).
      do 3 eexists. repeat split; cbn [with_event trace store]; congruence.
    + destruct (malformed address) eqn:Hbad.
      * rewrite (geocode_malformed _ _ _ _ Ht H1 Hm Hbad),
          (geocode_malformed _ _ _ _ Ht H2 Hm Hbad).
        do 3 eexists. repeat split;
          cbn [after_sleep with_event trace store]; congruence.
      * rewrite (geocode_miss _ _ _ _ Ht H1 Hm Hbad),
          (geocode_miss _ _ _ _ Ht H2 Hm Hbad).
        rewrite Htr.
        destruct (fresh_coords _) as [c|];
          [destruct (storage_accepts env _)|];
          do 3 eexists; repeat split;
          cbn [after_request with_store with_event trace store]; congruence.
  - rewrite !(geocode_falsy _ _ _ Ht).
    do 3 eexists. repeat split; cbn [with_event trace store]; congruence.
Qed.

(** C2, as amended.  A missing store reads as the empty cache: [geocode]
    returns the same value, leaves the same trace and the same cache as it
    does from an empty cache, and does not throw.  A store whose text does
    not parse makes [geocode] return [null] at once, with no delay and no
    request, and leaves the store as it was. *)
Theorem missing_store_reads_as_empty address env tr :
  (exists r s1 s2,
     geocode address env {| store := Absent; trace := tr |} = (Ok r, s1)
     /\ geocode address env {| store := Cached ∅; trace := tr |} = (Ok r, s2)
     /\ trace s1 = trace s2
     /\ cache_of (store s1) = cache_of (store s2))
  /\ geocode address env {| store := Garbled; trace := tr |}
     = (Ok None,
        {| store := Garbled; trace := tr ++ [Called (ToString address)] |}).
Proof.
  split.
  - apply (geocode_reads_cache_only address env _ _ ∅); reflexivity.
  - apply geocode_garbled. reflexivity.
Qed.

(** C2 as stated fails: with a store that does not parse, an address the
    network would resolve gets [null] and no request is sent, while from an
    empty cache the same call sleeps, asks the network and returns the
    coordinate. *)
Lemma garbled_store_blocks_lookup :
  geocode (VStr "100 Main St") (answering "39.2" "-77.3")
    {| store := Garbled; trace := [] |}
  = (Ok None, {| store := Garbled; trace := [Called "100 Main St"] |})
  /\ geocode (VStr "100 Main St") (answering "39.2" "-77.3")
       {| store := Cached ∅; trace := [] |}
     = (Ok (Some (Pair (Fin 392 (-1), Fin (-773) (-1)))),
        {| store := Cached {[ "100 Main St" := (Fin 392 (-1), Fin (-773) (-1)) ]};
           trace := [Called "100 Main St"; Slept 1100;
                     Fetched (geocode_url (VStr "100 Main St"))] |}).
Proof. split; vm_compute; reflexivity. Qed.

(** C6.  For an address found in the cache, [geocode] adds nothing to the
    trace but the mark of its own call (no sleep, no request), leaves the
    store alone, and, the address being a non-empty string as every key
    written by [geocode] is, returns the cached coordinate. *)
Theorem cached_address_returns_at_once (a : string) c m env s :
  store s = Cached m ->
  m !! a = Some c ->
  exists r,
    geocode (VStr a) env s = (r, with_event s (Called a))
    /\ (a <> "" -> r = Ok (Some (Pair c))).
Proof.
  intros Hs Hm.
  assert (Hc : cache_of (store s) = Some m) by (rewrite Hs; reflexivity).
  destruct (truthy (VStr a)) eqn:Ht.
  - exists (Ok (Some (Pair c))). split; [|reflexivity].
    exact (geocode_hit (VStr a) env s m (Pair c) Ht Hc (lookup_own m a c Hm)).
  - exists (Ok None). split; [exact (geocode_falsy (VStr a) env s Ht)|].
    intros Ha. exfalso. cbn [truthy] in Ht.
    apply negb_false_iff, String.eqb_eq in Ht. contradiction.
Qed.

Lemma cached_address_returns_at_once_witness :
  exists r,
    geocode (VStr "100 Main St") offline
      {| store := Cached {[ "100 Main St" := (Fin 392 (-1), Fin (-773) (-1)) ]};
         trace := [] |}
    = (r, {| store := Cached {[ "100 Main St" := (Fin 392 (-1), Fin (-773) (-1)) ]};
             trace := [Called "100 Main St"] |})
    /\ ("100 Main St" <> ""
        -> r = Ok (Some (Pair (Fin 392 (-1), Fin (-773) (-1))))).
Proof.
  apply (cached_address_returns_at_once "100 Main St"
           (Fin 392 (-1), Fin (-773) (-1))
           {[ "100 Main St" := (Fin 392 (-1), Fin (-773) (-1)) ]} offline
           {| store := Cached {[ "100 Main St" := (Fin 392 (-1), Fin (-773) (-1)) ]};
              trace := [] |}).
  - reflexivity.
  - vm_compute; reflexivity.
Defined.



(** The member a cache inherits is returned whatever the network would
    say, and nothing is asked of it. *)
Example geocode_of_inherited_name :
  geocode (VStr "constructor") (answering "39.2" "-77.3") fresh
  = (Ok (Some (Member "constructor")),
     {| store := Absent; trace := [Called "constructor"] |}).
Proof. vm_compute; reflexivity. Qed.

End GeocodeClaims.

(** ** The resolution loop *)

Module PipelineFacts.
Import JS Builtins Eff PetMaps Vocabulary Vocabulary2.
Import EffFacts GeocodeFacts ExtractionFacts.

#[local] Open Scope Z_scope.

Lemma call_count_with_event s e :
  call_count (trace (with_event s e))
  = (call_count (trace s) + if is_call e then 1 else 0)%nat.
Proof.
  unfold with_event; cbn [trace]. rewrite call_count_app.
  destruct e; reflexivity.
Qed.

Lemma outcome_calls address s g s' :
  geocode_outcome address s g s' ->
  call_count (trace s') = S (call_count (trace s)).
Proof.
  intros Ho.
  destruct Ho as [Ht | Ht Hs | m v Ht Hc Hm | m Ht Hc Hm Hb | m Ht Hc Hm Hb
                 | m c0 Ht Hc Hm Hb Hf];
    unfold after_request, after_sleep, with_store; cbn [trace];
    rewrite !call_count_with_event; cbn [is_call]; lia.
Qed.

(** What [geocode] leaves behind: one more call on the trace; a store whose
    entries are the old ones or one new finite pair; a result that is an old
    entry, that new pair, or an inherited member named by the address. *)
Lemma geocode_effect address env s :
  exists r s',
    geocode address env s = (Ok r, s')
    /\ call_count (trace s') = S (call_count (trace s))
    /\ (forall c, r = Some (Pair c) ->
          cached_at (store s) (ToString address) c \/ coord_finite c = true)
    /\ (forall k, r = Some (Member k) ->
          k = ToString address /\ inherited k = true)
    /\ (forall k c, cached_at (store s') k c ->
          cached_at (store s) k c \/ coord_finite c = true).
Proof.
  destruct (geocode_outcome_holds address env s) as (g & s' & Hg & Ho).
  exists g, s'. split; [exact Hg|]. split; [exact (outcome_calls _ _ _ _ Ho)|].
  split; [|split].
  - intros c ->.
    inversion Ho as [| | m v Ht Hc Hm | | | m c0 Ht Hc Hm Hb Hf]; subst.
    + left. exact (cache_of_cached _ _ _ _ Hc (lookup_Pair _ _ _ Hm)).
    + right. assumption.
  - intros k ->.
    inversion Ho as [| | m v Ht Hc Hm | | |]; subst.
    apply lookup_Member in Hm as (-> & _ & Hin). auto.
  - intros k c Hk.
    destruct (proj2 (outcome_store _ _ _ _ Ho) k c Hk)
      as [Hold | (_ & _ & _ & Hfin)]; auto.
Qed.

(** The address fallback, by cases. *)
Lemma address_fallback_effect r n env s :
  exists oc n' s',
    address_fallback r n env s = (Ok (oc, n'), s')
    /\ n' = n + units oc
    /\ (is_Some oc -> n < MAX_GEOCODE)
    /\ (s' = s /\ oc = None
        \/ call_count (trace s') = S (call_count (trace s)))
    /\ (forall c, oc = Some (Pair c) ->
          (exists k, cached_at (store s) k c) \/ coord_finite c = true)
    /\ (forall k, oc = Some (Member k) ->
          k = fallback_text r /\ inherited k = true)
    /\ (forall k c, cached_at (store s') k c ->
          cached_at (store s) k c \/ coord_finite c = true).
Proof.
  assert (Hskip : exists oc n' s',
            (Ok (@None Found, n), s) = (Ok (oc, n'), s')
            /\ n' = n + units oc
            /\ (is_Some oc -> n < MAX_GEOCODE)
            /\ (s' = s /\ oc = None
                \/ call_count (trace s') = S (call_count (trace s)))
            /\ (forall c, oc = Some (Pair c) ->
                  (exists k, cached_at (store s) k c) \/ coord_finite c = true)
            /\ (forall k, oc = Some (Member k) ->
                  k = fallback_text r /\ inherited k = true)
            /\ (forall k c, cached_at (store s') k c ->
                  cached_at (store s) k c \/ coord_finite c = true)).
  { exists None, n, s. split; [reflexivity|]. split; [cbn [units]; lia|].
    split; [intros [? ?]; discriminate|]. split; [auto|].
    split; [discriminate|]. split; [discriminate|auto]. }
  unfold address_fallback.
  destruct (truthy (bestAddress r)); cbn [andb]; [|exact Hskip].
  destruct (n <? MAX_GEOCODE) eqn:Hn; [|exact Hskip].
  apply Z.ltb_lt in Hn.
  destruct (truthy (address_text (bestAddress r))); [|exact Hskip].
  destruct (geocode_effect (address_text (bestAddress r)) env s)
    as (g & s' & Hg & Hcalls & Hres & Hmem & Hst).
  rewrite (bind_ok _ _ _ _ _ _ Hg).
  destruct g as [v|]; unfold ret.
  - exists (Some v), (n + 1), s'. split; [reflexivity|].
    split; [reflexivity|]. split; [auto|]. split; [auto|].
    split; [|split; [|exact Hst]].
    + intros c [= ->]. destruct (Hres c eq_refl); eauto.
    + intros k [= ->]. exact (Hmem k eq_refl).
  - exists None, n, s'. split; [reflexivity|]. split; [cbn [units]; lia|].
    split; [intros [? ?]; discriminate|]. split; [auto|].
    split; [discriminate|]. split; [discriminate|exact Hst].
Qed.

(** The search for the coordinate of a record always completes; with an
    embedded coordinate it touches nothing. *)
Lemma resolve_coords_effect r n env s :
  exists oc n' s',
    resolve_coords r n env s = (Ok (oc, n'), s')
    /\ (forall c, getCoordsFromRecord r = Some c ->
          oc = Some (Pair c) /\ n' = n /\ s' = s)
    /\ (getCoordsFromRecord r = None ->
          n' = n + units oc
          /\ (is_Some oc -> n < MAX_GEOCODE)
          /\ (s' = s /\ oc = None
              \/ call_count (trace s') = S (call_count (trace s))))
    /\ (forall c, oc = Some (Pair c) ->
          (exists k, cached_at (store s) k c) \/ coord_finite c = true)
    /\ (forall k, oc = Some (Member k) -> plain r = false)
    /\ (forall k c, cached_at (store s') k c ->
          cached_at (store s) k c \/ coord_finite c = true).
Proof.
  unfold resolve_coords, plain.
  destruct (getCoordsFromRecord r) as [c|] eqn:Hc.
  - exists (Some (Pair c)), n, s. unfold ret. split; [reflexivity|].
    split; [intros c' [= <-]; auto|]. split; [discriminate|].
    split; [|split; [discriminate|auto]].
    intros c' [= <-]. right. exact (coords_among_finite _ _ _ Hc).
  - destruct (address_fallback_effect r n env s)
      as (oc & n' & s' & Hf & Hn & Hlt & Hs & Hres & Hmem & Hst).
    exists oc, n', s'. split; [exact Hf|]. split; [discriminate|].
    split; [auto|]. split; [exact Hres|]. split; [|exact Hst].
    intros k Hk. destruct (Hmem k Hk) as [-> Hin]. rewrite Hin. reflexivity.
Qed.

(** A turn whose [coords] is [null] or a pair completes. *)
Lemma resolve_record_turn r out n env s oc n' s' :
  resolve_coords r n env s = (Ok (Pair <$> oc, n'), s') ->
  resolve_record r (out, n) env s = (Ok (out ++ pushed r oc, n'), s').
Proof.
  intros H. unfold resolve_record. rewrite (bind_ok _ _ _ _ _ _ H).
  destruct oc; unfold ret, pushed; [reflexivity|].
  cbn [fmap option_fmap option_map]. rewrite app_nil_r. reflexivity.
Qed.

(** A turn whose [coords] is an inherited member throws where it takes the
    array apart. *)
Lemma resolve_record_member r out n env s k n' s' :
  resolve_coords r n env s = (Ok (Some (Member k), n'), s') ->
  resolve_record r (out, n) env s = (Thrown, s').
Proof.
  intros H. unfold resolve_record. rewrite (bind_ok _ _ _ _ _ _ H).
  reflexivity.
Qed.

(** A turn, by cases. *)
Lemma resolve_record_cases r out n env s :
  (exists oc n' s',
     resolve_coords r n env s = (Ok (Pair <$> oc, n'), s')
     /\ resolve_record r (out, n) env s = (Ok (out ++ pushed r oc, n'), s'))
  \/ (exists s',
        resolve_record r (out, n) env s = (Thrown, s')
        /\ plain r = false).
Proof.
  destruct (resolve_coords_effect r n env s)
    as (oc & n' & s' & Hr & _ & _ & _ & Hmem & _).
  destruct oc as [[c|k]|].
  - left. exists (Some c), n', s'. split; [exact Hr|].
    exact (resolve_record_turn r out n env s (Some c) n' s' Hr).
  - right. exists s'.
    split; [exact (resolve_record_member _ _ _ _ _ _ _ _ Hr)|].
    exact (Hmem k eq_refl).
  - left. exists None, n', s'. split; [exact Hr|].
    exact (resolve_record_turn r out n env s None n' s' Hr).
Qed.

(** The loop is the sequence of its turns, up to the first that throws. *)
Lemma resolve_all_run env records :
  forall out n s,
    (exists ocs n' s',
       turns env records n s ocs n' s'
       /\ resolve_all records (out, n) env s
          = (Ok (out ++ resolved_points records ocs, n'), s'))
    \/ (exists s',
          resolve_all records (out, n) env s = (Thrown, s')
          /\ Exists (fun r => plain r = false) records).
Proof.
  induction records as [|r records IH]; intros out n s.
  - left. exists [], n, s. split; [constructor|].
    cbn [resolve_all resolved_points]. rewrite app_nil_r. reflexivity.
  - cbn [resolve_all].
    destruct (resolve_record_cases r out n env s)
      as [(oc & n1 & s1 & Hr & Hrec) | (s1 & Hrec & Hbad)].
    + rewrite (bind_ok _ _ _ _ _ _ Hrec).
      destruct (IH (out ++ pushed r oc) n1 s1)
        as [(ocs & n2 & s2 & Ht & Hall) | (s2 & Hall & Hex)].
      * left. exists (oc :: ocs), n2, s2.
        split; [econstructor; eassumption|].
        cbn [resolved_points]. rewrite Hall, app_assoc. reflexivity.
      * right. exists s2. split; [exact Hall|]. apply Exists_cons_tl, Hex.
    + right. exists s1. split; [exact (bind_thrown _ _ _ _ _ Hrec)|].
      apply Exists_cons_hd, Hbad.
Qed.

(** A loop that completes went through its turns. *)
Lemma resolve_all_Ok env records out n s out' n' s' :
  resolve_all records (out, n) env s = (Ok (out', n'), s') ->
  exists ocs,
    turns env records n s ocs n' s'
    /\ out' = out ++ resolved_points records ocs.
Proof.
  intros H.
  destruct (resolve_all_run env records out n s)
    as [(ocs & n2 & s2 & Ht & Hall) | (s2 & Hall & _)];
    rewrite Hall in H; [|discriminate].
  injection H as <- <- <-. eauto.
Qed.

(** Over plain records the loop completes. *)
Lemma resolve_all_plain env records out n s :
  Forall (fun r => plain r = true) records ->
  exists ocs n' s',
    turns env records n s ocs n' s'
    /\ resolve_all records (out, n) env s
       = (Ok (out ++ resolved_points records ocs, n'), s').
Proof.
  intros Hall.
  destruct (resolve_all_run env records out n s)
    as [H | (s2 & _ & Hex)]; [exact H|].
  exfalso. apply Exists_exists in Hex as (r & Hin & Hbad).
  rewrite Forall_forall in Hall. rewrite (Hall r Hin) in Hbad. discriminate.
Qed.

Lemma locate_resolve_all records env s :
  locate records env s
  = match resolve_all records ([], 0) env s with
    | (Ok (out, _), s') => (Ok out, s')
    | (Thrown, s') => (Thrown, s')
    end.
Proof.
  destruct records as [|r records]; [reflexivity|].
  unfold locate, bind.
  destruct (resolve_all (r :: records) ([], 0) env s) as [[[out n']|] s'];
    reflexivity.
Qed.

(** A run that hands over a list went through its turns. *)
Lemma locate_Ok env records s out s' :
  locate records env s = (Ok out, s') ->
  exists ocs n',
    turns env records 0 s ocs n' s'
    /\ resolve_all records ([], 0) env s = (Ok (out, n'), s')
    /\ out = resolved_points records ocs.
Proof.
  rewrite locate_resolve_all.
  destruct (resolve_all records ([], 0) env s) as [[[out0 n']|] s0] eqn:Hall;
    [|discriminate].
  intros [= <- <-].
  destruct (resolve_all_Ok _ _ _ _ _ _ _ _ Hall) as (ocs & Ht & Hout).
  exists ocs, n'. auto.
Qed.


(** A turn leaves the state its search for the coordinate leaves. *)
Lemma resolve_record_state r out n env s :
  (resolve_record r (out, n) env s).2 = (resolve_coords r n env s).2.
Proof.
  unfold resolve_record, bind.
  destruct (resolve_coords r n env s) as [[[oc n']|] s']; [|reflexivity].
  destruct oc as [[c|k]|]; reflexivity.
Qed.

Lemma units_Pair (oc : option Coord) : units (Pair <$> oc) = units oc.
Proof. destruct oc; reflexivity. Qed.


(** What holds of the state after each turn, whatever the turn, holds of the
    state the loop ends in, whether it completes or throws. *)
Lemma resolve_all_state (P : State -> State -> Prop) env :
  (forall s, P s s) ->
  (forall s1 s2 s3, P s1 s2 -> P s2 s3 -> P s1 s3) ->
  (forall r acc s, P s (resolve_record r acc env s).2) ->
  forall records acc s, P s (resolve_all records acc env s).2.
Proof.
  intros Hrefl Htrans Hturn.
  induction records as [|r records IH]; intros acc s.
  - apply Hrefl.
  - cbn [resolve_all]. unfold bind.
    pose proof (Hturn r acc s) as H1.
    destruct (resolve_record r acc env s) as [[acc'|] s1]; cbn [snd] in *.
    + exact (Htrans _ _ _ H1 (IH acc' s1)).
    + exact H1.
Qed.

Lemma locate_state records env s :
  (locate records env s).2 = (resolve_all records ([], 0) env s).2.
Proof.
  rewrite locate_resolve_all.
  destruct (resolve_all records ([], 0) env s) as [[[out n']|] s'];
    reflexivity.
Qed.

End PipelineFacts.

(** ** Claims about the resolver and the pipeline *)

Module PipelineClaims.
Import JS Builtins Eff PetMaps Vocabulary Vocabulary2.
Import EffFacts GeocodeFacts ExtractionFacts PipelineFacts.

#[local] Open Scope Z_scope.




Lemma is_object_not_string v : is_object v = true -> is_string v = false.
Proof. destruct v; cbn; congruence. Qed.

Lemma get_without_prop v k :
  is_object v = true -> has_prop k v = false -> k <> "length" ->
  get v k = VUndefined.
Proof.
  intros Ho Hp Hk. destruct v as [| |x|x|x|l|o]; try discriminate Ho;
    try reflexivity.
  - cbn [get]. apply String.eqb_neq in Hk. rewrite Hk. reflexivity.
  - unfold has_prop in Hp. apply bool_decide_eq_false in Hp.
    destruct (o !! k) as [v|] eqn:Hv; [exfalso; apply Hp; eauto|].
    exact (get_None _ _ Hv).
Qed.

(** C10.  When the record has no embedded coordinate and the address source
    [bestAddress] picks is an object without an [address] field, the turn
    changes nothing: [geocode] is not entered, the counter keeps its value
    and no point is pushed. *)
Theorem addressless_object_skips_fallback r out n env s :
  getCoordsFromRecord r = None ->
  is_object (bestAddress r) = true ->
  has_prop "address" (bestAddress r) = false ->
  resolve_record r (out, n) env s = (Ok (out, n), s).
Proof.
  intros Hc Ho Hp.
  rewrite (resolve_record_turn r out n env s None n s).
  - cbn [pushed]. rewrite app_nil_r. reflexivity.
  - unfold resolve_coords. rewrite Hc. unfold address_fallback, address_text.
    rewrite (is_object_not_string _ Ho), Ho.
    rewrite (get_without_prop _ "address" Ho Hp) by discriminate.
    cbn [truthy andb].
    destruct (truthy (bestAddress r) && (n <? MAX_GEOCODE)); reflexivity.
Qed.

Lemma addressless_object_skips_fallback_witness :
  resolve_record bare_location_record ([], 0) (answering "39.2" "-77.3") fresh
  = (Ok ([], 0), fresh).
Proof.
  apply (addressless_object_skips_fallback bare_location_record [] 0
           (answering "39.2" "-77.3") fresh);
    vm_compute; reflexivity.
Defined.

(** The records of the output are the input records, some left out. *)
Lemma resolved_points_sublist records :
  forall ocs, sublist (map rec (resolved_points records ocs)) records.
Proof.
  induction records as [|r records IH]; intros ocs.
  - constructor.
  - destruct ocs as [|[c|] ocs]; cbn [resolved_points pushed app map].
    + apply sublist_nil_l.
    + cbn [mk_point rec]. apply sublist_skip, IH.
    + apply sublist_cons, IH.
Qed.


(** Along the turns the counter grows by one for each point resolved by the
    fallback, stays within the ceiling, and never outruns the calls of
    [geocode]. *)
Lemma turns_budget env records n s ocs n' s' :
  turns env records n s ocs n' s' ->
  0 <= n <= MAX_GEOCODE ->
  n' = n + Z.of_nat (length (filter (fun p => by_fallback p = true)
                               (resolved_points records ocs)))
  /\ n' <= MAX_GEOCODE
  /\ (call_count (trace s) <= call_count (trace s'))%nat
  /\ n' - n <= Z.of_nat (call_count (trace s'))
               - Z.of_nat (call_count (trace s)).
Proof.
  induction 1 as [n s | r records n s oc n1 s1 ocs n2 s2 Hr _ IH]; intros Hn.
  - simpl. lia.
  - destruct (resolve_coords_effect r n env s)
      as (oc' & n1' & s1' & Hr' & Hemb & Hfb & _).
    rewrite Hr in Hr'. injection Hr' as <- <- <-.
    cbn [resolved_points]. rewrite filter_app, length_app, Nat2Z.inj_add.
    destruct (getCoordsFromRecord r) as [c|] eqn:Hc.
    + destruct (Hemb c eq_refl) as (Hoc & -> & ->).
      destruct oc as [c'|]; [|discriminate Hoc]. injection Hoc as ->.
      destruct (IH Hn) as (-> & ? & ? & ?).
      cbn [pushed]. rewrite filter_cons_False.
      2: { unfold by_fallback. cbn [mk_point rec]. rewrite Hc. discriminate. }
      simpl. lia.
    + destruct (Hfb eq_refl) as (-> & Hlt & Hcalls).
      rewrite units_Pair in *.
      destruct oc as [c|]; cbn [units pushed] in *.
      * assert (n < MAX_GEOCODE) by (apply Hlt; eauto).
        destruct Hcalls as [[_ ?] | Hcalls]; [discriminate|].
        destruct IH as (-> & ? & ? & ?); [lia|].
        rewrite filter_cons_True.
        2: { unfold by_fallback. cbn [mk_point rec]. rewrite Hc. reflexivity. }
        simpl. lia.
      * destruct IH as (-> & ? & ? & ?); [lia|].
        simpl.
        destruct Hcalls as [[-> _] | Hcalls]; lia.
Qed.

(** C1, as amended.  A fallback call of [geocode] that returns something
    uses one unit of the budget; one that returns [null] uses none.  So when
    the loop completes, the counter ends as the number of points resolved by
    the fallback, it has not passed the ceiling of 150, and each unit stands
    for a call of [geocode]; the number of calls itself is not bounded by
    the ceiling.  Over plain records the loop completes. *)
Theorem budget_counts_resolved_fallbacks :
  (forall r n env s,
     exists oc n' s',
       address_fallback r n env s = (Ok (oc, n'), s')
       /\ n' = n + units oc
       /\ (is_Some oc ->
             n < MAX_GEOCODE
             /\ call_count (trace s') = S (call_count (trace s))))
  /\ (forall records env s out n' s',
        resolve_all records ([], 0) env s = (Ok (out, n'), s') ->
        locate records env s = (Ok out, s')
        /\ n' = Z.of_nat (length (filter (fun p => by_fallback p = true) out))
        /\ n' <= MAX_GEOCODE
        /\ n' <= Z.of_nat (call_count (trace s'))
                 - Z.of_nat (call_count (trace s)))
  /\ (forall records env s,
        Forall (fun r => plain r = true) records ->
        exists out n' s',
          resolve_all records ([], 0) env s = (Ok (out, n'), s')).
Proof.
  split; [|split].
  - intros r n env s.
    destruct (address_fallback_effect r n env s)
      as (oc & n' & s' & Hf & Hn & Hlt & Hs & _).
    exists oc, n', s'. split; [exact Hf|]. split; [exact Hn|].
    intros Hoc. split; [exact (Hlt Hoc)|].
    destruct Hs as [[_ ->] | Hs]; [|exact Hs].
    destruct Hoc; discriminate.
  - intros records env s out n' s' Hall.
    split; [rewrite locate_resolve_all, Hall; reflexivity|].
    destruct (resolve_all_Ok _ _ _ _ _ _ _ _ Hall) as (ocs & Ht & ->).
    destruct (turns_budget _ _ _ _ _ _ _ Ht) as (-> & ? & ? & ?);
      [unfold MAX_GEOCODE; lia|].
    cbn [app]. repeat split; lia.
  - intros records env s Hplain.
    destruct (resolve_all_plain env records [] 0 s Hplain)
      as (ocs & n' & s' & _ & Hall).
    eauto.
Qed.

(** C1 as stated fails: with the network down, a failed fallback leaves the
    counter at 0 after its call, and over 151 address-only records [geocode]
    is entered 151 times, past the ceiling of 150. *)
Lemma failed_lookups_exceed_budget :
  address_fallback address_record 0 offline fresh
  = (Ok (None, 0),
     {| store := Absent;
        trace := [Called "100 Main St"; Slept 1100;
                  Fetched (geocode_url (VStr "100 Main St"))] |})
  /\ (locate (replicate 151 address_record) offline fresh).1 = Ok []
  /\ call_count (trace (locate (replicate 151 address_record) offline fresh).2)
     = 151%nat
  /\ MAX_GEOCODE < 151.
Proof. repeat split; vm_compute; reflexivity. Qed.

(** Along the turns finite stores stay finite and only finite points are
    pushed. *)
Lemma turns_finite env records n s ocs n' s' :
  turns env records n s ocs n' s' ->
  store_finite (store s) ->
  store_finite (store s')
  /\ Forall (fun p => point_finite p = true) (resolved_points records ocs).
Proof.
  induction 1 as [n s | r records n s oc n1 s1 ocs n2 s2 Hr _ IH]; intros Hs.
  - split; [exact Hs|constructor].
  - destruct (resolve_coords_effect r n env s)
      as (oc' & n1' & s1' & Hr' & _ & _ & Hres & _ & Hst).
    rewrite Hr in Hr'. injection Hr' as <- <- <-.
    assert (Hs1 : store_finite (store s1)).
    { intros k c Hk. destruct (Hst k c Hk) as [Hold | Hfin]; [|exact Hfin].
      exact (Hs k c Hold). }
    destruct (IH Hs1) as [Hs2 Hpts]. split; [exact Hs2|].
    cbn [resolved_points]. apply Forall_app. split; [|exact Hpts].
    destruct oc as [c|]; cbn [pushed]; [|constructor].
    constructor; [|constructor].
    unfold point_finite. cbn [mk_point lat lng].
    destruct (Hres c eq_refl) as [[k Hold] | Hfin].
    + rewrite <- (Hs k c Hold). destruct c; reflexivity.
    + rewrite <- Hfin. destruct c; reflexivity.
Qed.

(** A finite cache stays finite through a turn, whether the turn completes
    or throws. *)
Lemma resolve_record_keeps_finite r acc env s :
  store_finite (store s) ->
  store_finite (store (resolve_record r acc env s).2).
Proof.
  intros Hs. destruct acc as [out n]. rewrite resolve_record_state.
  destruct (resolve_coords_effect r n env s)
    as (oc & n' & s' & Hr & _ & _ & _ & _ & Hst).
  rewrite Hr. cbn [snd]. intros k c Hk.
  destruct (Hst k c Hk) as [Hold | Hfin]; [exact (Hs k c Hold)|exact Hfin].
Qed.

(** C3, as amended.  A coordinate that [getCoordsFromRecord] returns has a
    finite latitude and a finite longitude.  A pair that [geocode] returns
    is an entry the cache already held or a finite pair, and it adds nothing
    else to the cache: a parse result that is not finite is neither returned
    nor stored.  (What [geocode] returns that is not a pair is the member of
    [Object.prototype] the address names.)  So from a cache of finite pairs
    a run leaves a cache of finite pairs, and the points it hands over, when
    it hands over a list, have finite coordinates.  No range is checked. *)
Theorem produced_coordinates_finite :
  (forall r c, getCoordsFromRecord r = Some c -> coord_finite c = true)
  /\ (forall address env s,
        exists g s',
          geocode address env s = (Ok g, s')
          /\ (forall c, g = Some (Pair c) ->
                cached_at (store s) (ToString address) c
                \/ coord_finite c = true)
          /\ (forall k, g = Some (Member k) ->
                k = ToString address /\ k ∈ Object_prototype)
          /\ (forall k c, cached_at (store s') k c ->
                cached_at (store s) k c \/ coord_finite c = true))
  /\ (forall records env s,
        store_finite (store s) ->
        store_finite (store (locate records env s).2)
        /\ forall out s',
             locate records env s = (Ok out, s') ->
             Forall (fun p => point_finite p = true) out).
Proof.
  split; [|split].
  - intros r c. apply coords_among_finite.
  - intros address env s.
    destruct (geocode_effect address env s)
      as (g & s' & Hg & _ & Hres & Hmem & Hst).
    exists g, s'. split; [exact Hg|]. split; [exact Hres|].
    split; [|exact Hst].
    intros k Hk. destruct (Hmem k Hk) as [-> Hin]. split; [reflexivity|].
    unfold inherited in Hin. apply bool_decide_eq_true in Hin. exact Hin.
  - intros records env s Hs. split.
    + rewrite locate_state.
      apply (resolve_all_state
               (fun s1 s2 => store_finite (store s1) ->
                             store_finite (store s2)) env);
        [auto | auto | | exact Hs].
      intros r acc s0. apply resolve_record_keeps_finite.
    + intros out s' Hl.
      destruct (locate_Ok _ _ _ _ _ Hl) as (ocs & n' & Ht & _ & ->).
      exact (proj2 (turns_finite _ _ _ _ _ _ _ Ht Hs)).
Qed.

(** C3 as stated fails: latitude 91 and longitude 200 are finite, so the
    extraction returns them, and [geocode] returns and caches them. *)
Lemma out_of_range_coordinate_kept :
  getCoordsFromRecord far_record = Some (Fin 91 0, Fin 2 2)
  /\ ~ in_range (Fin 91 0, Fin 2 2)
  /\ geocode (VStr "100 Main St") (answering "91" "200") fresh
     = (Ok (Some (Pair (Fin 91 0, Fin 2 2))),
        {| store := Cached {[ "100 Main St" := (Fin 91 0, Fin 2 2) ]};
           trace := [Called "100 Main St"; Slept 1100;
                     Fetched (geocode_url (VStr "100 Main St"))] |}).
Proof.
  split; [vm_compute; reflexivity|]. split; [|vm_compute; reflexivity].
  intros [[_ H] _]. cbn in H. lra.
Qed.

(** *** Scenarios *)

(** An address-only record, a budget not used up, a network that answers
    (39.2, -77.3): the record resolves there and the cache holds the pair
    under the address. *)
Example address_record_resolves :
  locate [address_record] (answering "39.2" "-77.3") fresh
  = (Ok [mk_point (Fin 392 (-1), Fin (-773) (-1)) address_record],
     {| store := Cached {[ "100 Main St" := (Fin 392 (-1), Fin (-773) (-1)) ]};
        trace := [Called "100 Main St"; Slept 1100;
                  Fetched (geocode_url (VStr "100 Main St"))] |}).
Proof. vm_compute; reflexivity. Qed.

(** Run again on the cache the first run left, with the network down: the
    same point, one call of [geocode], no sleep and no request. *)
Example address_record_resolves_again :
  locate [address_record] offline
    {| store := Cached {[ "100 Main St" := (Fin 392 (-1), Fin (-773) (-1)) ]};
       trace := [] |}
  = (Ok [mk_point (Fin 392 (-1), Fin (-773) (-1)) address_record],
     {| store := Cached {[ "100 Main St" := (Fin 392 (-1), Fin (-773) (-1)) ]};
        trace := [Called "100 Main St"] |}).
Proof. vm_compute; reflexivity. Qed.

(** A structured address is joined field by field; a missing state leaves
    its blank. *)
Example structured_address_text :
  address_text (bestAddress structured_record)
  = VStr "123 Elm St Rockville  20850".
Proof. vm_compute; reflexivity. Qed.

End PipelineClaims.

(** ** The ranker *)

Module RankerFacts.
Import JS Builtins Eff PetMaps Arith Ranker Vocabulary Vocabulary2.

#[local] Open Scope R_scope.

Lemma is_zero_IZR z : z <> 0%Z -> is_zero (IZR z) = false.
Proof.
  intros Hz. unfold is_zero. destruct (Req_dec_T (IZR z) 0) as [H|H];
    [|reflexivity].
  exfalso. apply Hz. apply eq_IZR. exact H.
Qed.

Lemma huge_large : 100000000 < huge.
Proof. unfold huge. apply IZR_lt. vm_compute. reflexivity. Qed.

Lemma fit_small r : Rabs r < huge -> fit r = XFin r.
Proof.
  intros H. unfold fit. destruct (Rle_dec huge (Rabs r)); [lra|reflexivity].
Qed.

Lemma fit_bounded r : -100000000 <= r <= 100000000 -> fit r = XFin r.
Proof.
  intros H. apply fit_small. pose proof huge_large.
  apply Rabs_def1; lra.
Qed.

Lemma fit_huge r : huge <= Rabs r -> fit r = XInf (is_neg r).
Proof.
  intros H. unfold fit. destruct (Rle_dec huge (Rabs r)); [reflexivity|lra].
Qed.

Lemma toRad_finite x :
  -10000000 <= x <= 10000000 -> toRad (XFin x) = XFin (x * PI / 180).
Proof.
  intros Hx. pose proof PI_RGT_0. pose proof PI_4.
  unfold toRad, Math_PI, lit. cbn [xmul].
  rewrite fit_bounded by nra.
  cbn [xdiv]. rewrite is_zero_IZR by discriminate.
  apply fit_bounded. nra.
Qed.

Lemma half_finite x :
  -100000000 <= x <= 100000000 -> (XFin x / lit 2)%xr = XFin (x / 2).
Proof.
  intros Hx. unfold lit. cbn [xdiv]. rewrite is_zero_IZR by discriminate.
  apply fit_bounded. lra.
Qed.

Lemma Rabs_bounds x a : Rabs x <= a -> - a <= x <= a.
Proof. unfold Rabs. destruct (Rcase_abs x); lra. Qed.

Lemma unit_mul x y : -1 <= x <= 1 -> -1 <= y <= 1 -> -1 <= x * y <= 1.
Proof. intros Hx Hy. split; nra. Qed.

Lemma xmul_unit x y :
  -1 <= x <= 1 -> -1 <= y <= 1 -> (XFin x * XFin y)%xr = XFin (x * y).
Proof.
  intros Hx Hy. cbn [xmul]. apply fit_bounded.
  pose proof (unit_mul x y Hx Hy). lra.
Qed.

(** The haversine term lies between 0 and 1, whatever the angles. *)
Lemma haversine_term_bounds x1 x2 dl :
  0 <= sin ((x2 - x1) / 2) * sin ((x2 - x1) / 2)
       + cos x1 * cos x2 * (sin (dl / 2) * sin (dl / 2)) <= 1.
Proof.
  pose proof (cos_2a_sin ((x2 - x1) / 2)) as Hd.
  replace (2 * ((x2 - x1) / 2)) with (x2 - x1) in Hd by field.
  rewrite cos_minus in Hd.
  pose proof (COS_bound (x1 + x2)) as [Hp1 Hp2].
  pose proof (COS_bound (x2 - x1)) as [Hm1 Hm2].
  rewrite cos_minus in Hm1, Hm2. rewrite cos_plus in Hp1, Hp2.
  pose proof (sin2_cos2 (dl / 2)) as Hs. unfold Rsqr in Hs.
  revert Hd Hp1 Hp2 Hm1 Hm2 Hs.
  generalize (sin ((x2 - x1) / 2)) (sin (dl / 2)) (cos (dl / 2))
    (cos x1) (cos x2) (sin x1) (sin x2).
  intros sa sd cd c1 c2 s1 s2 Hd Hp1 Hp2 Hm1 Hm2 Hs.
  assert (Hs0 : 0 <= sd * sd) by nra.
  assert (Hs1 : 0 <= 1 - sd * sd) by nra.
  assert (Hu : 0 <= 1 - (c1 * c2 + s1 * s2)) by lra.
  assert (Hv : 0 <= 1 + (c1 * c2 - s1 * s2)) by lra.
  assert (Hu' : 0 <= 1 + (c1 * c2 + s1 * s2)) by lra.
  assert (Hv' : 0 <= 1 - (c1 * c2 - s1 * s2)) by lra.
  pose proof (Rmult_le_pos _ _ Hs1 Hu) as K1.
  pose proof (Rmult_le_pos _ _ Hs0 Hv) as K2.
  pose proof (Rmult_le_pos _ _ Hs1 Hu') as K3.
  pose proof (Rmult_le_pos _ _ Hs0 Hv') as K4.
  split; nra.
Qed.

Lemma is_neg_nonneg x : 0 <= x -> is_neg x = false.
Proof.
  intros Hx. unfold is_neg. destruct (Rlt_dec x 0); [lra|reflexivity].
Qed.

Lemma xasin_unit x : -1 <= x <= 1 -> xasin (XFin x) = XFin (asin x).
Proof.
  intros [H1 H2]. unfold xasin.
  destruct (Rle_dec (-1) x); [|contradiction].
  destruct (Rle_dec x 1); [reflexivity|contradiction].
Qed.

Lemma sin_sin_unit t : -1 <= sin t * sin t <= 1.
Proof. apply unit_mul; apply SIN_bound. Qed.

(** What a coordinate difference of [d] degrees, not too large, contributes
    to the haversine term. *)
Lemma half_chord_finite d :
  -10000000 <= d <= 10000000 ->
  half_chord (XFin d)
  = XFin (sin (d * PI / 180 / 2) * sin (d * PI / 180 / 2)).
Proof.
  intros Hd. pose proof PI_RGT_0. pose proof PI_4.
  unfold half_chord. rewrite toRad_finite by exact Hd.
  rewrite half_finite by nra.
  cbn [xsin]. unfold xsquare. apply xmul_unit; apply SIN_bound.
Qed.

Lemma haversineKm_unfold a b :
  haversineKm a b
  = (lit 2 * lit 6371
     * xasin (xsqrt (half_chord (of_Num b.1 - of_Num a.1)
                     + xcos (toRad (of_Num a.1)) * xcos (toRad (of_Num b.1))
                       * half_chord (of_Num b.2 - of_Num a.2))))%xr.
Proof. reflexivity. Qed.

(** Between two positions with modest coordinates the distance is the real
    the haversine formula gives. *)
Lemma haversineKm_value m1 e1 m2 e2 m3 e3 m4 e4 :
  modest (Fin m1 e1, Fin m2 e2) ->
  modest (Fin m3 e3, Fin m4 e4) ->
  haversineKm (Fin m1 e1, Fin m2 e2) (Fin m3 e3, Fin m4 e4)
  = XFin (haversine_real (real_of m1 e1) (real_of m2 e2)
            (real_of m3 e3) (real_of m4 e4)).
Proof.
  unfold modest, modest_num. cbn [fst snd].
  intros [Ha1 Ha2] [Hb1 Hb2].
  apply Rabs_bounds in Ha1, Ha2, Hb1, Hb2.
  rewrite haversineKm_unfold. unfold haversine_real.
  cbn [fst snd of_Num xsub].
  fold (real_of m1 e1) (real_of m2 e2) (real_of m3 e3) (real_of m4 e4).
  revert Ha1 Ha2 Hb1 Hb2.
  generalize (real_of m1 e1) (real_of m2 e2) (real_of m3 e3) (real_of m4 e4).
  intros a1 a2 b1 b2 Ha1 Ha2 Hb1 Hb2.
  rewrite !fit_bounded by lra.
  rewrite !half_chord_finite by lra.
  rewrite !toRad_finite by lra.
  cbn [xcos].
  rewrite (xmul_unit (cos _) (cos _)) by apply COS_bound.
  rewrite xmul_unit by (first [apply sin_sin_unit | apply unit_mul; apply COS_bound]).
  assert (Hh : 0 <= sin ((b1 - a1) * PI / 180 / 2)
                    * sin ((b1 - a1) * PI / 180 / 2)
                    + cos (a1 * PI / 180) * cos (b1 * PI / 180)
                      * (sin ((b2 - a2) * PI / 180 / 2)
                         * sin ((b2 - a2) * PI / 180 / 2)) <= 1).
  { replace ((b1 - a1) * PI / 180 / 2)
      with ((b1 * PI / 180 - a1 * PI / 180) / 2) by field.
    apply haversine_term_bounds. }
  destruct Hh as [Hh0 Hh1]. cbn [xadd].
  rewrite fit_bounded by lra.
  set (h := _ + _) in *.
  cbn [xsqrt]. rewrite (is_neg_nonneg h Hh0).
  assert (Hs : -1 <= sqrt h <= 1).
  { split.
    - pose proof (sqrt_pos h). lra.
    - rewrite <- sqrt_1. apply sqrt_le_1; lra. }
  rewrite (xasin_unit _ Hs).
  unfold lit. cbn [xmul]. rewrite fit_bounded by lra. cbn [xmul].
  pose proof (asin_bound (sqrt h)) as [Hlo Hhi].
  pose proof PI_RGT_0. pose proof PI_4.
  rewrite fit_bounded by nra. reflexivity.
Qed.

(** At no distance the formula gives 0; along a meridian it gives the arc
    length. *)
Lemma haversine_real_same a1 a2 : haversine_real a1 a2 a1 a2 = 0.
Proof.
  unfold haversine_real.
  replace ((a1 - a1) * PI / 180 / 2) with 0 by field.
  replace ((a2 - a2) * PI / 180 / 2) with 0 by field.
  rewrite sin_0, !Rmult_0_r, Rplus_0_r, sqrt_0, asin_0. ring.
Qed.

Lemma haversine_real_meridian a1 a2 b1 :
  0 <= b1 - a1 <= 180 ->
  haversine_real a1 a2 b1 a2 = 6371 * ((b1 - a1) * PI / 180).
Proof.
  intros Hd. unfold haversine_real.
  replace ((a2 - a2) * PI / 180 / 2) with 0 by field.
  rewrite sin_0, !Rmult_0_r, Rplus_0_r.
  pose proof PI_RGT_0 as Hpi.
  assert (Ht : 0 <= (b1 - a1) * PI / 180 / 2 <= PI / 2).
  { split.
    - apply Rmult_le_pos; [|lra]. apply Rmult_le_pos; [|lra].
      apply Rmult_le_pos; lra.
    - assert ((b1 - a1) * PI <= 180 * PI) by (apply Rmult_le_compat_r; lra).
      lra. }
  set (t := (b1 - a1) * PI / 180 / 2) in *.
  rewrite sqrt_square by (apply sin_ge_0; lra).
  rewrite asin_sin by lra.
  unfold t. field.
Qed.

Lemma with_dist_by_finite distance u points :
  Forall (fun p => exists x, distance u (lat p, lng p) = XFin x) points ->
  Forall dist_finite (with_dist_by distance u points).
Proof.
  intros Hps. unfold with_dist_by. apply Forall_map.
  eapply Forall_impl; [exact Hps|].
  intros p Hp. exact Hp.
Qed.

(** *** The sort *)

(** The sign of a difference survives its overflow. *)
Lemma is_positive_fit d :
  is_positive (fit d) = if Rlt_dec 0 d then true else false.
Proof.
  pose proof huge_large as Hh.
  unfold fit. destruct (Rle_dec huge (Rabs d)) as [Hov | _];
    [|reflexivity].
  cbn [is_positive]. unfold is_neg.
  assert (d <> 0) by (intros ->; rewrite Rabs_R0 in Hov; lra).
  destruct (Rlt_dec d 0), (Rlt_dec 0 d); try reflexivity; lra.
Qed.

Lemma by_dist_finite a b x y :
  dist a = XFin x -> dist b = XFin y ->
  is_positive (by_dist a b) = if Rlt_dec y x then true else false.
Proof.
  intros Ha Hb. unfold by_dist. rewrite Ha, Hb. cbn [xsub].
  rewrite is_positive_fit.
  destruct (Rlt_dec 0 (x - y)), (Rlt_dec y x); try reflexivity; lra.
Qed.

(** The comparator puts [a] strictly after [b] only if their distances
    differ. *)
Lemma by_dist_positive_neq a b :
  is_positive (by_dist a b) = true -> dist a <> dist b.
Proof.
  unfold by_dist. intros Hp Heq. rewrite Heq in Hp.
  destruct (dist b) as [| s | y]; cbn [xsub is_positive] in Hp.
  - discriminate.
  - rewrite Bool.eqb_reflx in Hp. discriminate.
  - rewrite is_positive_fit in Hp.
    destruct (Rlt_dec 0 (y - y)); [lra|discriminate].
Qed.

Section Insertion.
Context {A : Type} (cmp : A -> A -> XR).

Lemma insert_length x l : length (insert cmp x l) = S (length l).
Proof.
    induction l as [|y l IH]; [reflexivity|]. cbn [insert].
    destruct (is_positive (cmp x y)); cbn [length]; congruence.
Qed.

Lemma Array_sort_length l : length (Array_sort cmp l) = length l.
Proof.
    induction l as [|x l IH]; [reflexivity|].
    cbn [Array_sort foldr]. fold (Array_sort cmp l).
    rewrite insert_length, IH. reflexivity.
Qed.

Lemma insert_Forall (P : A -> Prop) x l :
    P x -> Forall P l -> Forall P (insert cmp x l).
Proof.
    intros Hx Hl. induction Hl as [|y l Hy Hl IH]; cbn [insert].
    - constructor; [exact Hx|constructor].
    - destruct (is_positive (cmp x y)); repeat constructor; assumption.
Qed.

Lemma Array_sort_Forall (P : A -> Prop) l :
    Forall P l -> Forall P (Array_sort cmp l).
Proof.
    induction 1 as [|x l Hx Hl IH]; [constructor|].
    cbn [Array_sort foldr]. apply insert_Forall; assumption.
Qed.
End Insertion.

Lemma dist_le_finite a b x y :
  dist a = XFin x -> dist b = XFin y -> dist_le a b <-> x <= y.
Proof. intros Ha Hb. unfold dist_le. rewrite Ha, Hb. reflexivity. Qed.

Lemma insert_sorted a l :
  dist_finite a -> Forall dist_finite l ->
  StronglySorted dist_le l ->
  StronglySorted dist_le (insert by_dist a l).
Proof.
  intros [x Ha] Hfin Hs. induction Hs as [|b l Hs IH Hb]; cbn [insert].
  - repeat constructor.
  - apply Forall_cons in Hfin as [[y Hy] Hfin].
    rewrite (by_dist_finite a b x y Ha Hy).
    destruct (Rlt_dec y x) as [Hlt | Hge].
    + constructor; [exact (IH Hfin)|].
      apply insert_Forall; [|exact Hb].
      apply (dist_le_finite b a y x Hy Ha). lra.
    + constructor; [constructor; assumption|].
      constructor; [apply (dist_le_finite a b x y Ha Hy); lra|].
      rewrite Forall_forall in Hb, Hfin |- *. intros c Hc.
      destruct (Hfin c Hc) as [z Hz].
      apply (dist_le_finite a c x z Ha Hz).
      pose proof (proj1 (dist_le_finite b c y z Hy Hz) (Hb c Hc)). lra.
Qed.

Lemma Array_sort_sorted l :
  Forall dist_finite l -> StronglySorted dist_le (Array_sort by_dist l).
Proof.
  induction 1 as [|a l Ha Hl IH]; [constructor|].
  cbn [Array_sort foldr]. fold (Array_sort by_dist l).
  apply insert_sorted; [exact Ha| |exact IH].
  apply Array_sort_Forall. exact Hl.
Qed.

Lemma StronglySorted_take {A} (R : A -> A -> Prop) n l :
  StronglySorted R l -> StronglySorted R (take n l).
Proof.
  intros Hs. revert n. induction Hs as [|x l Hs IH Hx]; intros [|n];
    cbn [take]; try constructor.
  - apply IH.
  - apply Forall_take. exact Hx.
Qed.

(** Sorting does not change the order among points at equal distance. *)
Lemma insert_at_dist d a l :
  at_dist d (insert by_dist a l) = at_dist d (a :: l).
Proof.
  unfold at_dist. induction l as [|b l IH]; [reflexivity|]. cbn [insert].
  destruct (is_positive (by_dist a b)) eqn:Hp; [|reflexivity].
  apply by_dist_positive_neq in Hp.
  rewrite (filter_cons _ b), IH, !(filter_cons _ a), (filter_cons _ b).
  destruct (decide (dist a = d)) as [Ha|Ha];
    destruct (decide (dist b = d)) as [Hb|Hb]; try reflexivity.
  congruence.
Qed.

Lemma Array_sort_at_dist d l :
  at_dist d (Array_sort by_dist l) = at_dist d l.
Proof.
  induction l as [|a l IH]; [reflexivity|].
  cbn [Array_sort foldr]. fold (Array_sort by_dist l).
  rewrite insert_at_dist. unfold at_dist in *.
  rewrite !(filter_cons _ a), IH. reflexivity.
Qed.

Lemma at_dist_prefix d l1 l2 :
  l1 `prefix_of` l2 -> at_dist d l1 `prefix_of` at_dist d l2.
Proof.
  intros [k ->]. unfold at_dist. rewrite filter_app.
  apply prefix_app_r. reflexivity.
Qed.

Lemma with_dist_by_records distance u points :
  Forall (fun a => dist a = distance u (lat (point a), lng (point a)))
    (with_dist_by distance u points).
Proof.
  unfold with_dist_by. apply Forall_map, Forall_true.
  intros p. reflexivity.
Qed.

Lemma insert_perm {A} (cmp : A -> A -> XR) x l : insert cmp x l ≡ₚ x :: l.
Proof.
  induction l as [|y l IH]; [reflexivity|]. cbn [insert].
  destruct (is_positive (cmp x y)); [|reflexivity].
  rewrite IH. apply Permutation_swap.
Qed.

Lemma Array_sort_perm {A} (cmp : A -> A -> XR) l : Array_sort cmp l ≡ₚ l.
Proof.
  induction l as [|x l IH]; [reflexivity|].
  cbn [Array_sort foldr]. fold (Array_sort cmp l).
  rewrite insert_perm, IH. reflexivity.
Qed.

Lemma nearest_by_unfold distance u points :
  nearest_by distance (Some u) points
  = take 25 (Array_sort by_dist (with_dist_by distance u points)).
Proof. destruct points; reflexivity. Qed.

(** A list of two or more entries one of which has no distance is not in
    order, however it is arranged. *)
Lemma nan_unsorted l a :
  StronglySorted dist_le l ->
  a ∈ l -> dist a = XNaN -> (2 <= length l)%nat -> False.
Proof.
  intros Hs. induction Hs as [|b l Hs IH Hb]; intros Ha Hnan Hlen.
  - inversion Ha.
  - apply elem_of_cons in Ha as [<- | Ha].
    + destruct l as [|c l]; [cbn in Hlen; lia|].
      apply Forall_cons in Hb as [Hc _].
      unfold dist_le in Hc. rewrite Hnan in Hc. exact Hc.
    + rewrite Forall_forall in Hb. specialize (Hb a Ha).
      unfold dist_le in Hb. rewrite Hnan in Hb.
      destruct (dist b); exact Hb.
Qed.

Lemma modest_here : modest here.
Proof.
  unfold modest, modest_num, here, real_of. cbn [fst snd].
  split; apply Rabs_le; simpl; lra.
Qed.

Lemma modest_away : modest (Fin 396 (-1), Fin (-7724) (-2)).
Proof.
  unfold modest, modest_num, real_of. cbn [fst snd].
  split; apply Rabs_le; simpl; lra.
Qed.

(** *** Overflow *)

Lemma three_lt_PI : 3 < PI.
Proof. pose proof PI2_3_2. lra. Qed.

Lemma huge_below : huge <= 6 * 10 ^ 307 * 3.
Proof.
  unfold huge. replace (6 * 10 ^ 307 * 3) with (IZR (6 * 10 ^ 307 * 3)).
  - apply IZR_le. vm_compute. discriminate.
  - rewrite !mult_IZR. rewrite (pow_IZR 10 307). reflexivity.
Qed.

(** A difference of [6 * 10^307] degrees or more, whether it still is a
    number or has itself overflowed, overflows on its way to radians. *)
Lemma toRad_overflow x :
  6 * 10 ^ 307 <= Rabs x -> exists s, toRad (fit x) = XInf s.
Proof.
  intros Hx. unfold fit. destruct (Rle_dec huge (Rabs x)) as [Hov | Hok].
  - unfold toRad, Math_PI, lit. cbn [xmul].
    unfold is_zero. destruct (Req_dec_T PI 0) as [H0 | _];
      [pose proof PI_RGT_0; lra|].
    cbn [xdiv]. eauto.
  - unfold toRad, Math_PI, lit. cbn [xmul].
    rewrite fit_huge.
    + cbn [xdiv]. eauto.
    + rewrite Rabs_mult. rewrite (Rabs_pos_eq PI) by (pose proof PI_RGT_0; lra).
      pose proof three_lt_PI. pose proof huge_below.
      assert (0 <= 6 * 10 ^ 307) by (apply Rmult_le_pos; [lra|apply pow_le; lra]).
      nra.
Qed.

Lemma far_beyond :
  6 * 10 ^ 307
  <= Rabs (IZR 7 * powerRZ 10 307 - IZR 3915 * powerRZ 10 (-2)).
Proof.
  assert (H307 : powerRZ 10 307 = 10 ^ 307) by reflexivity.
  rewrite H307.
  assert (Hp : 10 ^ 307 = 10 ^ 2 * 10 ^ 305)
    by (rewrite <- pow_add; reflexivity).
  assert (0 < 10 ^ 305) by (apply pow_lt; lra).
  rewrite Rabs_pos_eq; simpl powerRZ; rewrite Hp; nra.
Qed.

Lemma half_chord_overflow x :
  6 * 10 ^ 307 <= Rabs x -> half_chord (fit x) = XNaN.
Proof.
  intros Hx. destruct (toRad_overflow x Hx) as [s Hs].
  unfold half_chord. rewrite Hs. reflexivity.
Qed.

End RankerFacts.

(** ** Claims about the ranker *)

Module RankerClaims.
Import JS Builtins Eff PetMaps Arith Ranker Vocabulary Vocabulary2 RankerFacts.

(** C4, as amended.  Whatever function measures the distances, so for the
    distances [haversineKm] returns in doubles: when the distance of every
    point from the reference is a number, the list [nearest] returns has at
    most 25 entries and no more than there are points; each entry carries
    the distance of its point from the reference; the entries are in
    non-decreasing order of distance; and the entries at any one distance
    are, in the same order, the first such points of the input. *)
Theorem nearest_ranks_by_distance distance u points :
  Forall (fun p => exists x, distance u (lat p, lng p) = XFin x) points ->
  (length (nearest_by distance (Some u) points)
   <= Nat.min 25 (length points))%nat
  /\ Forall (fun a => dist a = distance u (lat (point a), lng (point a)))
       (nearest_by distance (Some u) points)
  /\ StronglySorted dist_le (nearest_by distance (Some u) points)
  /\ forall d,
       at_dist d (nearest_by distance (Some u) points)
       `prefix_of` at_dist d (with_dist_by distance u points).
Proof.
  intros Hps. rewrite nearest_by_unfold.
  pose proof (with_dist_by_finite distance u points Hps) as Hfin.
  split; [|split; [|split]].
  - rewrite length_take, Array_sort_length.
    unfold with_dist_by. rewrite length_map. lia.
  - apply Forall_take, Array_sort_Forall, with_dist_by_records.
  - apply StronglySorted_take, Array_sort_sorted, Hfin.
  - intros d. rewrite <- (Array_sort_at_dist d (with_dist_by distance u points)).
    apply at_dist_prefix, prefix_take.
Qed.

Lemma nearest_ranks_by_distance_witness :
  (length (nearest (Some here) [point_away; point_here])
   <= Nat.min 25 (length [point_away; point_here]))%nat
  /\ Forall (fun a => dist a = haversineKm here (lat (point a), lng (point a)))
       (nearest (Some here) [point_away; point_here])
  /\ StronglySorted dist_le (nearest (Some here) [point_away; point_here])
  /\ forall d,
       at_dist d (nearest (Some here) [point_away; point_here])
       `prefix_of` at_dist d (with_dist here [point_away; point_here]).
Proof.
  apply (nearest_ranks_by_distance haversineKm here [point_away; point_here]).
  repeat constructor; cbn [point_away point_here mk_point lat lng fst snd];
    unfold here; rewrite haversineKm_value;
    eauto using modest_here, modest_away.
Defined.

(** C4 as stated fails: a record whose latitude is written "7e307" has a
    finite coordinate and becomes a point, and the distance of that point
    from (39.15, -77.24) is NaN, because the difference of the latitudes
    overflows when it is taken to radians.  A list that holds this point
    and another one is not in non-decreasing order of distance, in whatever
    order the sort leaves it. *)
Lemma beyond_range_distance_is_no_number :
  getCoordsFromRecord huge_record = Some (Fin 7 307, Fin 0 0)
  /\ resolve_record huge_record ([], 0%Z) offline fresh
     = (Ok ([point_beyond], 0%Z), fresh)
  /\ haversineKm here (lat point_beyond, lng point_beyond) = XNaN
  /\ ~ StronglySorted dist_le (nearest (Some here) [point_beyond; point_here])
  /\ forall l,
       l ≡ₚ with_dist here [point_beyond; point_here] ->
       ~ StronglySorted dist_le l.
Proof.
  assert (Hnan : haversineKm here (lat point_beyond, lng point_beyond) = XNaN).
  { rewrite haversineKm_unfold.
    cbn [point_beyond mk_point lat lng here fst snd of_Num xsub].
    rewrite (half_chord_overflow (IZR 7 * powerRZ 10 307
                                  - IZR 3915 * powerRZ 10 (-2))%R).
    - cbn [xadd xsqrt xasin]. destruct (lit 2 * lit 6371)%xr; reflexivity.
    - apply far_beyond. }
  assert (Hperm : forall l,
            l ≡ₚ with_dist here [point_beyond; point_here] ->
            ~ StronglySorted dist_le l).
  { intros l Hl Hs.
    apply (nan_unsorted l {| point := point_beyond;
                             dist := haversineKm here (lat point_beyond,
                                                       lng point_beyond) |} Hs).
    - rewrite Hl. left.
    - exact Hnan.
    - rewrite (Permutation_length Hl). cbn. lia. }
  split; [vm_compute; reflexivity|].
  split; [vm_compute; reflexivity|].
  split; [exact Hnan|]. split; [|exact Hperm].
  apply Hperm. unfold nearest. rewrite nearest_by_unfold.
  rewrite take_ge by (rewrite Array_sort_length; cbn; lia).
  apply Array_sort_perm.
Qed.

(** The scenario of the ranker: from (39.15, -77.24), a point at that very
    position and one 0.45 degrees to the north, about 50 km away, given
    farthest first, come back nearest first. *)
Example nearest_puts_zero_distance_first :
  map point (nearest (Some here) [point_away; point_here])
  = [point_here; point_away].
Proof.
  unfold nearest, nearest_by, with_dist_by, here, point_away, point_here.
  cbn [map mk_point lat lng fst snd].
  rewrite !haversineKm_value by eauto using modest_here, modest_away.
  rewrite haversine_real_same.
  rewrite haversine_real_meridian.
  2: { unfold real_of. simpl. lra. }
  cbn [Array_sort foldr insert].
  erewrite by_dist_finite; [|reflexivity|reflexivity].
  destruct (Rlt_dec _ _) as [_ | Hn]; [reflexivity|].
  exfalso. apply Hn. pose proof PI_RGT_0.
  unfold real_of. simpl. nra.
Qed.

(** C9.  Without a reference position [nearest] returns the empty list,
    whatever the points. *)
Theorem nearest_without_reference points : nearest None points = [].
Proof. reflexivity. Qed.

End RankerClaims.

(** ** More about the geocoder *)

Module GeocodeMore.
Import JS Builtins Eff PetMaps Vocabulary Vocabulary2 EffFacts GeocodeFacts.

(** X1.  [geocode] writes through: a pair it returns is in the cache under
    the address when it returns.  A call that returns [null] leaves the
    storage exactly as it found it (failures are not cached), and so does a
    call that returns a member of [Object.prototype]. *)
Theorem geocode_caches_what_it_returns address env s :
  exists g s',
    geocode address env s = (Ok g, s')
    /\ (forall c, g = Some (Pair c) -> cached_at (store s') (ToString address) c)
    /\ (g = None -> store s' = store s)
    /\ (forall k, g = Some (Member k) -> store s' = store s).
Proof.
  destruct (geocode_outcome_holds address env s) as (g & s' & Hg & Ho).
  exists g, s'. split; [exact Hg|].
  destruct Ho as [Ht | Ht Hs | m v Ht Hc Hm | m Ht Hc Hm Hb | m Ht Hc Hm Hb
                 | m c0 Ht Hc Hm Hb Hf];
    (split; [intros c' Hc'; try discriminate Hc'
            | split; [intros Hn; try discriminate Hn; try reflexivity
                     | intros k Hk; try discriminate Hk; try reflexivity]]).
  - injection Hc' as ->.
    exact (cache_of_cached _ _ _ _ Hc (lookup_Pair _ _ _ Hm)).
  - injection Hc' as <-. cbn [with_store store].
    eexists. split; [reflexivity|]. apply lookup_insert_eq.
Qed.

(** X2.  Once [geocode] has returned something for an address, calling it
    again for that address, whatever the network then does, returns the same
    thing, without sleeping and without a request, and leaves the storage
    alone. *)
Theorem geocode_again_is_free address env env' s c s' :
  geocode address env s = (Ok (Some c), s') ->
  geocode address env' s'
  = (Ok (Some c), with_event s' (Called (ToString address))).
Proof.
  intros Hg.
  destruct (geocode_outcome_holds address env s) as (g & s1 & Hg' & Ho).
  rewrite Hg in Hg'. injection Hg' as <- <-.
  inversion Ho as [| | m v Ht Hc Hm | | | m c0 Ht Hc Hm Hb Hf]; subst.
  - apply (geocode_hit address env' _ m c Ht); [exact Hc|exact Hm].
  - apply (geocode_hit address env' _ (<[ToString address := c0]> m)
             (Pair c0) Ht); [reflexivity|].
    apply lookup_own, lookup_insert_eq.
Qed.

Lemma geocode_again_is_free_witness :
  geocode (VStr "100 Main St") offline
    {| store := Cached {[ "100 Main St" := (Fin 392 (-1), Fin (-773) (-1)) ]};
       trace := [Called "100 Main St"; Slept 1100;
                 Fetched (geocode_url (VStr "100 Main St"))] |}
  = (Ok (Some (Pair (Fin 392 (-1), Fin (-773) (-1)))),
     with_event
       {| store := Cached {[ "100 Main St" := (Fin 392 (-1), Fin (-773) (-1)) ]};
          trace := [Called "100 Main St"; Slept 1100;
                    Fetched (geocode_url (VStr "100 Main St"))] |}
       (Called "100 Main St")).
Proof.
  apply (geocode_again_is_free (VStr "100 Main St")
           (answering "39.2" "-77.3") offline fresh).
  vm_compute; reflexivity.
Defined.

(** X3.  [geocode] never removes or replaces a cache entry that is a finite
    pair: such an entry, cached before a call, is cached with the same
    coordinate after it. *)
Theorem geocode_keeps_entries address env s k c :
  coord_finite c = true ->
  cached_at (store s) k c ->
  cached_at (store (geocode address env s).2) k c.
Proof.
  intros _ Hk.
  destruct (geocode_outcome_holds address env s) as (g & s' & Hg & Ho).
  rewrite Hg. cbn [snd].
  exact (proj1 (outcome_store _ _ _ _ Ho) k c Hk).
Qed.

Lemma geocode_keeps_entries_witness :
  cached_at
    (store (geocode (VStr "9 Oak Ave") (answering "39.2" "-77.3")
              {| store := Cached {[ "100 Main St" := (Fin 391 (-1), Fin (-77) 0) ]};
                 trace := [] |}).2)
    "100 Main St" (Fin 391 (-1), Fin (-77) 0).
Proof.
  apply (geocode_keeps_entries (VStr "9 Oak Ave") (answering "39.2" "-77.3")
           {| store := Cached {[ "100 Main St" := (Fin 391 (-1), Fin (-77) 0) ]};
              trace := [] |}).
  - reflexivity.
  - eexists. split; [reflexivity|]. vm_compute; reflexivity.
Defined.

(** X4.  A call of [geocode] sends at most one request.  A request is due
    exactly when the address is truthy, the cache can be read and
    [cache[address]] is undefined.  When none is due the call adds nothing
    to the trace but its own mark.  When one is due the call first sleeps
    1100 ms; then, if the text to encode holds a lone surrogate, it returns
    [null] and sends nothing, and otherwise it sends the request for that
    address. *)
Theorem geocode_requests_only_on_miss address env s :
  exists g s',
    geocode address env s = (Ok g, s')
    /\ ((trace s' = trace s ++ [Called (ToString address)]
         /\ ~ (truthy address = true
               /\ exists m, cache_of (store s) = Some m
                            /\ lookup m (ToString address) = None))
        \/ (trace s' = trace s ++ [Called (ToString address); Slept 1100]
            /\ g = None
            /\ malformed address = true
            /\ truthy address = true
            /\ exists m, cache_of (store s) = Some m
                         /\ lookup m (ToString address) = None)
        \/ (trace s'
            = trace s ++ [Called (ToString address); Slept 1100;
                          Fetched (geocode_url address)]
            /\ malformed address = false
            /\ truthy address = true
            /\ exists m, cache_of (store s) = Some m
                         /\ lookup m (ToString address) = None)).
Proof.
  destruct (geocode_outcome_holds address env s) as (g & s' & Hg & Ho).
  exists g, s'. split; [exact Hg|].
  destruct Ho as [Ht | Ht Hs | m v Ht Hc Hm | m Ht Hc Hm Hb | m Ht Hc Hm Hb
                 | m c0 Ht Hc Hm Hb Hf].
  - left. split; [reflexivity|]. intros [Ht' _]. congruence.
  - left. split; [reflexivity|]. intros [_ (m & Hc & _)].
    rewrite Hs in Hc. discriminate.
  - left. split; [reflexivity|]. intros [_ (m' & Hc' & Hm')].
    rewrite Hc in Hc'. injection Hc' as <-. congruence.
  - right. left. split; [|eauto 6].
    unfold after_sleep, with_event. cbn [trace].
    rewrite <- !app_assoc. reflexivity.
  - right. right. split; [|eauto 6].
    unfold after_request, with_event. cbn [trace].
    rewrite <- !app_assoc. reflexivity.
  - right. right. split; [|eauto 6].
    unfold after_request, with_store, with_event. cbn [trace].
    rewrite <- !app_assoc. reflexivity.
Qed.

(** A lone surrogate in front of a text that starts with a comma is a lone
    surrogate of the whole. *)
Lemma has_lone_surrogate_cons c1 c2 s :
  has_lone_surrogate (String c1 (String c2 s))
  = ((byte_of c1 =? 237) && (160 <=? byte_of c2) && (byte_of c2 <=? 191))%N
    || has_lone_surrogate (String c2 s).
Proof. reflexivity. Qed.

Lemma has_lone_surrogate_app s t :
  has_lone_surrogate (s ++ String "," t)
  = has_lone_surrogate s || has_lone_surrogate (String "," t).
Proof.
  induction s as [|c1 s IH]; [reflexivity|].
  change (String c1 s ++ String "," t)%string
    with (String c1 (s ++ String "," t)%string).
  destruct s as [|c2 s].
  - change ("" ++ String "," t)%string with (String "," t).
    rewrite has_lone_surrogate_cons.
    destruct (byte_of c1 =? 237)%N; reflexivity.
  - change (String c2 s ++ String "," t)%string
      with (String c2 (s ++ String "," t)%string).
    rewrite has_lone_surrogate_cons.
    change (String c2 (s ++ String "," t)%string)
      with (String c2 s ++ String "," t)%string.
    rewrite IH, (has_lone_surrogate_cons c1 c2 s), orb_assoc. reflexivity.
Qed.

Lemma malformed_address address :
  malformed address = has_lone_surrogate (ToString address).
Proof.
  unfold malformed.
  change ", Montgomery County, MD" with (String "," " Montgomery County, MD").
  rewrite has_lone_surrogate_app.
  change (has_lone_surrogate (String "," " Montgomery County, MD")) with false.
  apply orb_false_r.
Qed.

(** X29.  An address that holds a lone surrogate is never asked of the
    network: when [cache[address]] is undefined, [geocode] sleeps its
    1100 ms, [encodeURIComponent] throws, and the call returns [null]
    without a request and without touching the storage. *)
Theorem torn_address_is_not_requested address env s m :
  truthy address = true ->
  cache_of (store s) = Some m ->
  lookup m (ToString address) = None ->
  has_lone_surrogate (ToString address) = true ->
  geocode address env s
  = (Ok None,
     {| store := store s;
        trace := trace s ++ [Called (ToString address); Slept 1100] |}).
Proof.
  intros Ht Hc Hm Hbad. rewrite <- malformed_address in Hbad.
  rewrite (geocode_malformed _ _ _ _ Ht Hc Hm Hbad).
  unfold after_sleep, with_event. cbn [store trace].
  rewrite <- app_assoc. reflexivity.
Qed.

Lemma torn_address_is_not_requested_witness :
  geocode (VStr torn_address) (answering "39.2" "-77.3") fresh
  = (Ok None,
     {| store := store fresh;
        trace := trace fresh ++ [Called (ToString (VStr torn_address));
                                 Slept 1100] |}).
Proof.
  apply (torn_address_is_not_requested (VStr torn_address)
           (answering "39.2" "-77.3") fresh ∅);
    vm_compute; reflexivity.
Defined.

(** X30.  An address that is the name of a member of [Object.prototype],
    and under which the cache has no entry of its own, gets that member:
    [geocode] returns it at once, without a sleep or a request, whatever
    the network would answer, and leaves the storage alone. *)
Theorem inherited_name_is_returned_unasked address env s m :
  truthy address = true ->
  cache_of (store s) = Some m ->
  m !! ToString address = None ->
  ToString address ∈ Object_prototype ->
  geocode address env s
  = (Ok (Some (Member (ToString address))),
     with_event s (Called (ToString address))).
Proof.
  intros Ht Hc Hm Hin.
  apply (geocode_hit address env s m _ Ht Hc).
  unfold lookup. rewrite Hm. unfold inherited.
  rewrite bool_decide_eq_true_2 by exact Hin. reflexivity.
Qed.

Lemma inherited_name_is_returned_unasked_witness :
  geocode (VStr "constructor") (answering "39.2" "-77.3") fresh
  = (Ok (Some (Member (ToString (VStr "constructor")))),
     with_event fresh (Called (ToString (VStr "constructor")))).
Proof.
  apply (inherited_name_is_returned_unasked (VStr "constructor")
           (answering "39.2" "-77.3") fresh ∅).
  - reflexivity.
  - reflexivity.
  - reflexivity.
  - apply (bool_decide_eq_true_1 _). vm_compute; reflexivity.
Defined.

End GeocodeMore.

(** ** The request URL *)

Module UrlFacts.
Import JS Builtins Eff PetMaps Vocabulary Vocabulary2.

Lemma byte_of_bounded c : (byte_of c < 256)%N.
Proof. unfold byte_of. apply N_ascii_bounded. Qed.

Lemma byte_of_inj c d : byte_of c = byte_of d -> c = d.
Proof.
  unfold byte_of. intros H.
  rewrite <- (ascii_N_embedding c), <- (ascii_N_embedding d), H. reflexivity.
Qed.

Lemma hex_digit_inj m n :
  (m < 16)%N -> (n < 16)%N -> hex_digit m = hex_digit n -> m = n.
Proof.
  intros Hm Hn H.
  assert (Hc : forall k, (k < 16)%N ->
            N_of_ascii (hex_digit k) = if (k <? 10)%N then (48 + k)%N else (55 + k)%N).
  { intros k Hk. unfold hex_digit. destruct (k <? 10)%N eqn:Hlt;
      apply N_ascii_embedding; [apply N.ltb_lt in Hlt|]; lia. }
  pose proof (f_equal N_of_ascii H) as HN.
  rewrite (Hc m Hm), (Hc n Hn) in HN.
  destruct (m <? 10)%N eqn:H1, (n <? 10)%N eqn:H2;
    try apply N.ltb_lt in H1; try apply N.ltb_lt in H2;
    try apply N.ltb_ge in H1; try apply N.ltb_ge in H2; lia.
Qed.

Lemma percent_reserved : uri_unreserved "%" = false.
Proof. reflexivity. Qed.

(** [encodeURIComponent] loses nothing: different strings are encoded
    differently. *)
Lemma encodeURIComponent_inj s t :
  encodeURIComponent s = encodeURIComponent t -> s = t.
Proof.
  revert t. induction s as [|c s IH]; intros [|d t]; cbn [encodeURIComponent].
  - reflexivity.
  - destruct (uri_unreserved d); discriminate.
  - destruct (uri_unreserved c); discriminate.
  - destruct (uri_unreserved c) eqn:Hc, (uri_unreserved d) eqn:Hd.
    + intros [= -> H]. f_equal. apply IH, H.
    + intros [= -> _]. rewrite percent_reserved in Hc. discriminate.
    + intros [= <- _]. rewrite percent_reserved in Hd. discriminate.
    + intros [= Hhi Hlo H]. f_equal; [|apply IH, H].
      apply byte_of_inj.
      pose proof (byte_of_bounded c). pose proof (byte_of_bounded d).
      apply hex_digit_inj in Hhi;
        [|apply N.Div0.div_lt_upper_bound; lia
         |apply N.Div0.div_lt_upper_bound; lia].
      apply hex_digit_inj in Hlo; [|apply N.mod_lt; lia|apply N.mod_lt; lia].
      rewrite (N.div_mod (byte_of c) 16), (N.div_mod (byte_of d) 16) by lia.
      rewrite Hhi, Hlo. reflexivity.
Qed.

Lemma list_ascii_of_string_app s t :
  String.list_ascii_of_string (s ++ t)
  = String.list_ascii_of_string s ++ String.list_ascii_of_string t.
Proof. induction s as [|c s IH]; simpl; [reflexivity|]. rewrite IH. reflexivity. Qed.

Lemma string_app_inv_tail s t u : (s ++ u)%string = (t ++ u)%string -> s = t.
Proof.
  intros H. apply (f_equal String.list_ascii_of_string) in H.
  rewrite !list_ascii_of_string_app in H. apply app_inv_tail in H.
  rewrite <- (String.string_of_list_ascii_of_string s),
    <- (String.string_of_list_ascii_of_string t), H. reflexivity.
Qed.

(** X5.  Two different address strings never share a request URL: the
    query keeps the whole address, whatever bytes it holds. *)
Theorem geocode_url_distinguishes_addresses (a b : string) :
  a <> b -> geocode_url (VStr a) <> geocode_url (VStr b).
Proof.
  unfold geocode_url. cbn [ToString]. intros Hne H. apply Hne.
  apply String.app_inj in H. apply encodeURIComponent_inj in H.
  exact (string_app_inv_tail _ _ _ H).
Qed.

Lemma geocode_url_distinguishes_addresses_witness :
  geocode_url (VStr "100 Main St") <> geocode_url (VStr "100 Main St.").
Proof.
  apply (geocode_url_distinguishes_addresses "100 Main St" "100 Main St.").
  discriminate.
Defined.

End UrlFacts.

(** ** More about the resolver and the loop *)

Module PipelineMore.
Import JS Builtins Eff PetMaps Vocabulary Vocabulary2.
Import EffFacts GeocodeFacts ExtractionFacts PipelineFacts PipelineClaims.
Import GeocodeMore.

#[local] Open Scope Z_scope.

(** *** Addresses *)

Lemma fold_or_else_truthy l a :
  truthy a = true -> fold_left or_else l a = a.
Proof.
  revert a. induction l as [|b l IH]; intros a Ha; [reflexivity|].
  cbn [fold_left]. unfold or_else at 2. rewrite Ha. apply IH, Ha.
Qed.

Lemma fold_or_else_falsy l a b :
  truthy a = false -> fold_left or_else (b :: l) a = fold_left or_else l b.
Proof. intros Ha. cbn [fold_left]. unfold or_else at 2. rewrite Ha. reflexivity. Qed.

Lemma fold_or_else_first pre v post a :
  Forall (fun x => truthy x = false) (a :: pre) ->
  truthy v = true ->
  fold_left or_else (pre ++ v :: post) a = v.
Proof.
  revert a. induction pre as [|b pre IH]; intros a Hf Hv.
  - apply Forall_cons in Hf as [Ha _]. cbn [app].
    rewrite (fold_or_else_falsy _ _ _ Ha). apply fold_or_else_truthy, Hv.
  - apply Forall_cons in Hf as [Ha Hf]. cbn [app].
    rewrite (fold_or_else_falsy _ _ _ Ha). apply IH; assumption.
Qed.

Lemma fold_or_else_none l a d :
  Forall (fun x => truthy x = false) (a :: l) ->
  fold_left or_else (l ++ [d]) a = d.
Proof.
  revert a. induction l as [|b l IH]; intros a Hf.
  - apply Forall_cons in Hf as [Ha _]. cbn [app fold_left].
    unfold or_else. rewrite Ha. reflexivity.
  - apply Forall_cons in Hf as [Ha Hf]. cbn [app].
    rewrite (fold_or_else_falsy _ _ _ Ha). apply IH, Hf.
Qed.

Lemma bestAddress_fold r :
  bestAddress r
  = fold_left or_else (tail (address_sources r) ++ [VNull])
      (get_opt (field r "intake_location") "human_address").
Proof. reflexivity. Qed.

(** X6.  [bestAddress] returns the first truthy value among, in this order,
    the [human_address] of [intake_location], the [human_address] of
    [found_location], [intake_location], [found_location], [address] and
    [location_text]; it returns [null] when none of them is truthy. *)
Theorem bestAddress_first_truthy r :
  (forall pre v post,
     address_sources r = pre ++ v :: post ->
     Forall (fun x => truthy x = false) pre ->
     truthy v = true ->
     bestAddress r = v)
  /\ (Forall (fun x => truthy x = false) (address_sources r) ->
      bestAddress r = VNull).
Proof.
  split.
  - intros pre v post Hs Hpre Hv. rewrite bestAddress_fold.
    destruct pre as [|a pre].
    + cbn [app] in Hs. unfold address_sources in Hs. injection Hs as <- _.
      apply fold_or_else_truthy, Hv.
    + rewrite Hs. cbn [app tail].
      assert (Ha : get_opt (field r "intake_location") "human_address" = a).
      { unfold address_sources in Hs. cbn [app] in Hs. congruence. }
      rewrite Ha, <- app_assoc. cbn [app].
      apply fold_or_else_first; assumption.
  - intros Hall. rewrite bestAddress_fold. apply fold_or_else_none.
    exact Hall.
Qed.

Lemma address_text_string v :
  truthy (address_text v) = true ->
  exists a, address_text v = VStr a /\ a <> "".
Proof.
  unfold address_text.
  destruct (is_string v) eqn:Hs.
  - destruct v; try discriminate Hs. cbn [truthy]. intros Ht.
    eexists. split; [reflexivity|].
    apply negb_true_iff, String.eqb_neq in Ht. exact Ht.
  - destruct (is_object v && truthy (get v "address")).
    + cbn [truthy]. intros Ht. eexists. split; [reflexivity|].
      apply negb_true_iff, String.eqb_neq in Ht. exact Ht.
    + discriminate.
Qed.

(** *** Traces *)

Lemma paced_app t1 t2 : paced t1 -> paced t2 -> paced (t1 ++ t2).
Proof.
  induction 1 as [|a tr Ha _ IH|a tr Ha _ IH|a tr Ha _ IH]; intros H2;
    cbn [app].
  - exact H2.
  - apply paced_call; auto.
  - apply paced_sleep; auto.
  - apply paced_request; auto.
Qed.

Lemma sleep_count_cons e tr :
  sleep_count (e :: tr)
  = ((if is_sleep e then 1 else 0) + sleep_count tr)%nat.
Proof. unfold sleep_count. rewrite filter_cons. destruct e; reflexivity. Qed.

Lemma fetch_count_cons e tr :
  fetch_count (e :: tr)
  = ((if is_fetch e then 1 else 0) + fetch_count tr)%nat.
Proof. unfold fetch_count. rewrite filter_cons. destruct e; reflexivity. Qed.

Lemma call_count_cons e tr :
  call_count (e :: tr) = ((if is_call e then 1 else 0) + call_count tr)%nat.
Proof. unfold call_count. rewrite filter_cons. destruct e; reflexivity. Qed.

Lemma paced_counts tr :
  paced tr ->
  (fetch_count tr <= sleep_count tr)%nat
  /\ (sleep_count tr <= call_count tr)%nat.
Proof.
  induction 1 as [|a tr _ _ [IH1 IH2]|a tr _ _ [IH1 IH2]|a tr _ _ [IH1 IH2]].
  - unfold fetch_count, sleep_count, call_count. simpl. lia.
  - rewrite fetch_count_cons, sleep_count_cons, call_count_cons.
    cbn [is_fetch is_sleep is_call]. lia.
  - rewrite !fetch_count_cons, !sleep_count_cons, !call_count_cons.
    cbn [is_fetch is_sleep is_call]. lia.
  - rewrite !fetch_count_cons, !sleep_count_cons, !call_count_cons.
    cbn [is_fetch is_sleep is_call]. lia.
Qed.

Lemma outcome_trace (a : string) s g s' :
  geocode_outcome (VStr a) s g s' ->
  trace s' = trace s ++ [Called a]
  \/ trace s' = trace s ++ [Called a; Slept 1100]
  \/ trace s' = trace s ++ [Called a; Slept 1100; Fetched (geocode_url (VStr a))].
Proof.
  intros Ho.
  destruct Ho as [Ht | Ht Hs | m v Ht Hc Hm | m Ht Hc Hm Hb | m Ht Hc Hm Hb
                 | m c0 Ht Hc Hm Hb Hf];
    try (left; reflexivity); right; [left|right|right];
    unfold after_request, after_sleep, with_store, with_event;
    cbn [trace ToString]; rewrite <- !app_assoc; reflexivity.
Qed.

(** What the search for the coordinate of a record adds to the trace and
    keeps in the store. *)
Lemma resolve_coords_trace r n env s :
  exists oc n' s' added,
    resolve_coords r n env s = (Ok (oc, n'), s')
    /\ trace s' = trace s ++ added
    /\ paced added
    /\ (call_count added <= if has_embedded r then 0 else 1)%nat
    /\ (forall k c, cached_at (store s) k c -> cached_at (store s') k c).
Proof.
  assert (Hskip : forall oc,
            exists (oc' : option Found) (n' : Z) s' added,
              (Ok (oc, n), s) = (Ok (oc', n'), s')
              /\ trace s' = trace s ++ added
              /\ paced added
              /\ (call_count added <= if has_embedded r then 0 else 1)%nat
              /\ (forall k c, cached_at (store s) k c ->
                    cached_at (store s') k c)).
  { intros oc. exists oc, n, s, []. split; [reflexivity|].
    split; [rewrite app_nil_r; reflexivity|]. split; [constructor|].
    split; [|auto]. unfold call_count. simpl. lia. }
  unfold resolve_coords, has_embedded in *.
  destruct (getCoordsFromRecord r) as [c|]; [apply Hskip|].
  unfold address_fallback.
  destruct (truthy (bestAddress r) && (n <? MAX_GEOCODE)); [|apply Hskip].
  destruct (truthy (address_text (bestAddress r))) eqn:Ht; [|apply Hskip].
  destruct (address_text_string _ Ht) as (a & -> & Ha).
  destruct (geocode_outcome_holds (VStr a) env s) as (g & s' & Hg & Ho).
  rewrite (bind_ok _ _ _ _ _ _ Hg).
  assert (Hadd : exists added,
            trace s' = trace s ++ added /\ paced added
            /\ (call_count added <= 1)%nat).
  { destruct (outcome_trace a s g s' Ho) as [-> | [-> | ->]]; eexists;
      (split; [reflexivity|]); split.
    - apply paced_call; [exact Ha|constructor].
    - rewrite call_count_cons. unfold call_count. simpl. lia.
    - apply paced_sleep; [exact Ha|constructor].
    - rewrite !call_count_cons. unfold call_count. simpl. lia.
    - apply paced_request; [exact Ha|constructor].
    - rewrite !call_count_cons. unfold call_count. simpl. lia. }
  destruct Hadd as (added & Htr & Hp & Hcalls).
  pose proof (proj1 (outcome_store _ _ _ _ Ho)) as Hkeep.
  destruct g as [c|]; unfold ret; do 4 eexists;
    (split; [reflexivity|]); eauto.
Qed.

(** What the loop adds to the trace and keeps in the store, whether it
    completes or throws. *)
Lemma resolve_all_trace env records :
  forall acc s,
  exists added,
    trace (resolve_all records acc env s).2 = trace s ++ added
    /\ paced added
    /\ (call_count added
        <= length (filter (fun r => has_embedded r = false) records))%nat
    /\ (forall k c, cached_at (store s) k c ->
          cached_at (store (resolve_all records acc env s).2) k c).
Proof.
  induction records as [|r records IH]; intros acc s.
  - exists []. split; [rewrite app_nil_r; reflexivity|].
    split; [constructor|]. split; [|auto]. unfold call_count. simpl. lia.
  - destruct acc as [out n].
    destruct (resolve_coords_trace r n env s)
      as (oc & n1 & s1 & add1 & Hr & Htr1 & Hp1 & Hc1 & Hk1).
    pose proof (resolve_record_state r out n env s) as Hst.
    rewrite Hr in Hst. cbn [snd] in Hst.
    assert (Hlen : (call_count add1
                    + length (filter (fun r => has_embedded r = false) records)
                    <= length (filter (fun r => has_embedded r = false)
                                 (r :: records)))%nat).
    { rewrite filter_cons. destruct (has_embedded r); cbn [length].
      - rewrite decide_False by discriminate. lia.
      - rewrite decide_True by reflexivity. cbn [length]. lia. }
    cbn [resolve_all]. unfold bind.
    destruct (resolve_record r (out, n) env s) as [[acc'|] s1'];
      cbn [snd] in Hst; subst s1'.
    + destruct (IH acc' s1) as (add2 & Htr2 & Hp2 & Hc2 & Hk2).
      exists (add1 ++ add2).
      split; [rewrite Htr2, Htr1, app_assoc; reflexivity|].
      split; [apply paced_app; assumption|]. split; [|auto].
      rewrite call_count_app. lia.
    + exists add1. cbn [snd]. split; [exact Htr1|]. split; [exact Hp1|].
      split; [lia|exact Hk1].
Qed.

Lemma cache_size_of st m : cache_of st = Some m -> cache_size st = size m.
Proof.
  destruct st; simpl; intros [= <-]; [symmetry; apply map_size_empty|reflexivity].
Qed.

Lemma outcome_growth address s g s' :
  geocode_outcome address s g s' ->
  Z.of_nat (cache_size (store s'))
  <= Z.of_nat (cache_size (store s)) + units g.
Proof.
  intros Ho.
  destruct Ho as [Ht | Ht Hs | m v Ht Hc Hm | m Ht Hc Hm Hb | m Ht Hc Hm Hb
                 | m c0 Ht Hc Hm Hb Hf];
    cbn [with_event after_request after_sleep with_store store units];
    try lia.
  apply lookup_None in Hm as [Hm _].
  rewrite (cache_size_of _ _ Hc). cbn [cache_size].
  rewrite map_size_insert_None by exact Hm. lia.
Qed.

Lemma resolve_coords_growth r n env s oc n' s' :
  resolve_coords r n env s = (Ok (oc, n'), s') ->
  n <= n'
  /\ Z.of_nat (cache_size (store s')) - Z.of_nat (cache_size (store s))
     <= n' - n.
Proof.
  unfold resolve_coords.
  destruct (getCoordsFromRecord r) as [c|].
  { intros [= <- <- <-]. lia. }
  unfold address_fallback.
  destruct (truthy (bestAddress r) && (n <? MAX_GEOCODE));
    [|intros [= <- <- <-]; lia].
  destruct (truthy (address_text (bestAddress r)));
    [|intros [= <- <- <-]; lia].
  destruct (geocode_outcome_holds (address_text (bestAddress r)) env s)
    as (g & s1 & Hg & Ho).
  rewrite (bind_ok _ _ _ _ _ _ Hg).
  pose proof (outcome_growth _ _ _ _ Ho) as Hgrow.
  destruct g as [c|]; unfold ret; intros [= <- <- <-];
    cbn [units] in Hgrow; lia.
Qed.

(** The search for the coordinate of a record keeps the counter within the
    ceiling. *)
Lemma resolve_coords_counter r n env s oc n' s' :
  resolve_coords r n env s = (Ok (oc, n'), s') ->
  n <= MAX_GEOCODE -> n' <= MAX_GEOCODE.
Proof.
  intros Hr Hn.
  destruct (resolve_coords_effect r n env s)
    as (oc0 & n0 & s0 & Hr0 & Hemb & Hfb & _).
  rewrite Hr in Hr0. injection Hr0 as <- <- <-.
  destruct (getCoordsFromRecord r) as [c|] eqn:Hc.
  - destruct (Hemb c eq_refl) as (_ & -> & _). exact Hn.
  - destruct (Hfb eq_refl) as (-> & Hlt & _).
    destruct oc as [v|]; cbn [units]; [|lia].
    assert (n < MAX_GEOCODE) by (apply Hlt; eauto). lia.
Qed.

(** What the cache gains and the budget still allows stay within the
    ceiling, whether the loop completes or throws. *)
Lemma resolve_all_growth env records :
  forall out n s,
    n <= MAX_GEOCODE ->
    Z.of_nat (cache_size (store (resolve_all records (out, n) env s).2)) + n
    <= Z.of_nat (cache_size (store s)) + MAX_GEOCODE.
Proof.
  induction records as [|r records IH]; intros out n s Hn.
  - cbn [resolve_all ret snd]. lia.
  - pose proof (resolve_record_state r out n env s) as Hst.
    destruct (resolve_coords r n env s) as [[[oc n1]|] s1] eqn:Hr.
    2: { destruct (resolve_coords_effect r n env s)
           as (? & ? & ? & Hr' & _). congruence. }
    cbn [snd] in Hst.
    pose proof (resolve_coords_growth _ _ _ _ _ _ _ Hr) as [Hle Hgrow].
    pose proof (resolve_coords_counter _ _ _ _ _ _ _ Hr Hn) as Hn1.
    cbn [resolve_all]. unfold bind.
    pose proof (resolve_record_cases r out n env s) as Hcases.
    destruct (resolve_record r (out, n) env s) as [[[out' n']|] s1'];
      cbn [snd] in Hst; subst s1'.
    + destruct Hcases as [(oc0 & n0 & s0 & Hr0 & Hrec) | (s0 & Hrec & _)];
        [|discriminate].
      rewrite Hr in Hr0. injection Hr0 as _ <- _.
      injection Hrec as _ ->.
      specialize (IH out' n1 s1 Hn1). lia.
    + cbn [snd]. lia.
Qed.

(** X7.  The trace a run adds, whether the run completes or throws, is
    paced: it is a sequence of calls of [geocode], each for a non-empty
    address string, each either alone, or followed at once by a sleep of
    1100 ms, or by that sleep and then the request for that address.  So no
    request of a run goes out without the sleep before it. *)
Theorem run_is_paced records env s :
  exists added,
    trace (locate records env s).2 = trace s ++ added
    /\ paced added.
Proof.
  rewrite locate_state.
  destruct (resolve_all_trace env records ([], 0) s)
    as (added & Htr & Hp & _).
  eauto.
Qed.

(** X8.  A run, whether it completes or throws, enters [geocode] at most
    once for each record that has no embedded coordinate and never for the
    others; it sleeps at most once for each call and sends at most one
    request for each sleep. *)
Theorem run_calls_at_most_once_per_record records env s :
  exists added,
    trace (locate records env s).2 = trace s ++ added
    /\ (call_count added
        <= length (filter (fun r => has_embedded r = false) records))%nat
    /\ (sleep_count added <= call_count added)%nat
    /\ (fetch_count added <= sleep_count added)%nat.
Proof.
  rewrite locate_state.
  destruct (resolve_all_trace env records ([], 0) s)
    as (added & Htr & Hp & Hc & _).
  destruct (paced_counts _ Hp) as [Hfs Hsc].
  exists added. auto.
Qed.

(** X9.  A run, whether it completes or throws, never removes or replaces a
    cache entry that is a finite pair: such an entry, cached before the run,
    is cached with the same coordinate after it. *)
Theorem run_keeps_entries records env s k c :
  coord_finite c = true ->
  cached_at (store s) k c ->
  cached_at (store (locate records env s).2) k c.
Proof.
  intros _ Hk. rewrite locate_state.
  destruct (resolve_all_trace env records ([], 0) s)
    as (_ & _ & _ & _ & Hkeep).
  apply Hkeep, Hk.
Qed.

Lemma run_keeps_entries_witness :
  cached_at
    (store (locate [address_record] (answering "39.2" "-77.3")
              {| store := Cached {[ "9 Oak Ave" := (Fin 391 (-1), Fin (-77) 0) ]};
                 trace := [] |}).2)
    "9 Oak Ave" (Fin 391 (-1), Fin (-77) 0).
Proof.
  apply (run_keeps_entries [address_record] (answering "39.2" "-77.3")
           {| store := Cached {[ "9 Oak Ave" := (Fin 391 (-1), Fin (-77) 0) ]};
              trace := [] |}).
  - reflexivity.
  - eexists. split; [reflexivity|]. vm_compute; reflexivity.
Defined.

(** X10.  A run adds at most 150 addresses to the cache, however long the
    feed is. *)
Theorem run_cache_growth_bounded records env s :
  (cache_size (store (locate records env s).2)
   <= cache_size (store s) + 150)%nat.
Proof.
  rewrite locate_state.
  pose proof (resolve_all_growth env records [] 0 s) as H.
  unfold MAX_GEOCODE in H. lia.
Qed.

(** X11.  Once the counter has reached the ceiling, a record without an
    embedded coordinate is dropped and its turn changes nothing: no call of
    [geocode], no sleep, no request, the counter and the store as before. *)
Theorem spent_budget_drops_record r out n env s :
  MAX_GEOCODE <= n ->
  getCoordsFromRecord r = None ->
  resolve_record r (out, n) env s = (Ok (out, n), s).
Proof.
  intros Hn Hc.
  rewrite (resolve_record_turn r out n env s None n s).
  - cbn [pushed]. rewrite app_nil_r. reflexivity.
  - unfold resolve_coords. rewrite Hc. unfold address_fallback.
    replace (n <? MAX_GEOCODE) with false by (symmetry; apply Z.ltb_ge, Hn).
    rewrite andb_false_r. reflexivity.
Qed.

Lemma spent_budget_drops_record_witness :
  resolve_record address_record ([], 150) (answering "39.2" "-77.3") fresh
  = (Ok ([], 150), fresh).
Proof.
  apply (spent_budget_drops_record address_record [] 150
           (answering "39.2" "-77.3") fresh).
  - vm_compute. discriminate.
  - vm_compute; reflexivity.
Defined.

Lemma embedded_point_fallback r c :
  getCoordsFromRecord r = None -> by_fallback (mk_point c r) = true.
Proof. intros H. unfold by_fallback. cbn [mk_point rec]. rewrite H. reflexivity. Qed.

Lemma embedded_point_not_fallback r c c' :
  getCoordsFromRecord r = Some c -> by_fallback (mk_point c' r) = false.
Proof. intros H. unfold by_fallback. cbn [mk_point rec]. rewrite H. reflexivity. Qed.

Lemma omap_embedded_cons r records :
  omap embedded_point (r :: records)
  = match getCoordsFromRecord r with
    | Some c => mk_point c r :: omap embedded_point records
    | None => omap embedded_point records
    end.
Proof.
  change (omap embedded_point (r :: records))
    with (match embedded_point r with
          | Some p => p :: omap embedded_point records
          | None => omap embedded_point records
          end).
  unfold embedded_point at 1. destruct (getCoordsFromRecord r); reflexivity.
Qed.

Lemma turns_embedded env records n s ocs n' s' :
  turns env records n s ocs n' s' ->
  filter (fun p => by_fallback p = false) (resolved_points records ocs)
  = omap embedded_point records.
Proof.
  induction 1 as [n s | r records n s oc n1 s1 ocs n2 s2 Hr _ IH];
    [reflexivity|].
  cbn [resolved_points]. rewrite filter_app, IH, omap_embedded_cons.
  unfold resolve_coords in Hr.
  destruct (getCoordsFromRecord r) as [c|] eqn:Hc.
  - injection Hr as Hoc <- <-.
    destruct oc as [c'|]; [|discriminate Hoc]. injection Hoc as <-.
    cbn [pushed].
    rewrite filter_cons_True by exact (embedded_point_not_fallback r c c Hc).
    reflexivity.
  - destruct oc as [c|]; cbn [pushed]; [|reflexivity].
    rewrite filter_cons_False; [reflexivity|].
    rewrite (embedded_point_fallback r c Hc). discriminate.
Qed.

(** X12.  In a list the loop hands over no record with an embedded
    coordinate is missing: whatever the network, the cache and the budget
    did, the points of the list that do not come from the fallback are
    exactly the records with an embedded coordinate, each at that
    coordinate, in the order of the feed. *)
Theorem embedded_records_always_kept records env s out s' :
  locate records env s = (Ok out, s') ->
  filter (fun p => by_fallback p = false) out
  = omap embedded_point records.
Proof.
  intros Hl.
  destruct (locate_Ok _ _ _ _ _ Hl) as (ocs & n' & Ht & _ & ->).
  exact (turns_embedded _ _ _ _ _ _ _ Ht).
Qed.

Lemma embedded_records_always_kept_witness :
  filter (fun p => by_fallback p = false)
    [mk_point (Fin 39 0, Fin (-771) (-1)) embedded_record]
  = omap embedded_point [address_record; embedded_record].
Proof.
  apply (embedded_records_always_kept [address_record; embedded_record]
           offline fresh
           [mk_point (Fin 39 0, Fin (-771) (-1)) embedded_record]
           {| store := Absent;
              trace := [Called "100 Main St"; Slept 1100;
                        Fetched (geocode_url (VStr "100 Main St"))] |}).
  vm_compute; reflexivity.
Defined.

Lemma resolve_all_embedded records :
  Forall (fun r => has_embedded r = true) records ->
  forall out n env s,
    resolve_all records (out, n) env s
    = (Ok (out ++ omap embedded_point records, n), s).
Proof.
  induction 1 as [|r records Hr _ IH]; intros out n env s.
  - cbn [resolve_all]. rewrite app_nil_r. reflexivity.
  - unfold has_embedded in Hr. cbn [resolve_all]. rewrite omap_embedded_cons.
    destruct (getCoordsFromRecord r) as [c|] eqn:Hc; [|discriminate].
    rewrite (bind_ok _ _ _ _ _ _
               (resolve_record_turn r out n env s (Some c) n s
                  ltac:(unfold resolve_coords; rewrite Hc; reflexivity))).
    rewrite IH. cbn [pushed]. rewrite <- app_assoc. reflexivity.
Qed.

(** X13.  A feed in which every record has an embedded coordinate is mapped
    whole and for free: one point per record, in order, and the storage and
    the trace are left as they were (no call of [geocode], no sleep, no
    request). *)
Theorem embedded_feed_needs_no_geocoding records env s :
  Forall (fun r => has_embedded r = true) records ->
  exists out,
    locate records env s = (Ok out, s)
    /\ map rec out = records
    /\ omap embedded_point records = out.
Proof.
  intros Hall. exists (omap embedded_point records).
  split; [|split; [|reflexivity]].
  - destruct records as [|r records]; [reflexivity|].
    unfold locate.
    rewrite (bind_ok _ _ _ _ _ _
               (resolve_all_embedded (r :: records) Hall [] 0 env s)).
    reflexivity.
  - induction Hall as [|r records Hr _ IH]; [reflexivity|].
    rewrite omap_embedded_cons. unfold has_embedded in Hr.
    destruct (getCoordsFromRecord r); [|discriminate].
    cbn [map mk_point rec]. rewrite IH. reflexivity.
Qed.

Lemma embedded_feed_needs_no_geocoding_witness :
  exists out,
    locate [embedded_record; far_record] offline fresh = (Ok out, fresh)
    /\ map rec out = [embedded_record; far_record]
    /\ omap embedded_point [embedded_record; far_record] = out.
Proof.
  apply (embedded_feed_needs_no_geocoding [embedded_record; far_record]
           offline fresh).
  repeat constructor.
Defined.

Lemma address_text_truthy_source v a :
  address_text v = VStr a -> a <> "" -> truthy v = true.
Proof.
  unfold address_text. destruct (is_string v) eqn:Hs.
  - intros -> Ha. cbn [truthy]. apply negb_true_iff, String.eqb_neq, Ha.
  - destruct (is_object v && truthy (get v "address")) eqn:Ho;
      [|discriminate].
    intros _ _. apply andb_true_iff in Ho as [Ho Hg].
    destruct v; try discriminate Ho; try reflexivity.
    discriminate Hg.
Qed.

Lemma inherited_nonempty a : a ∈ Object_prototype -> a <> "".
Proof.
  intros Hin ->. apply (bool_decide_eq_true_2 _) in Hin.
  vm_compute in Hin. discriminate.
Qed.

(** A record without an embedded coordinate whose address text is the name
    of a member of [Object.prototype], met with budget left and no entry of
    the cache under that name, makes its turn throw. *)
Lemma resolve_record_inherited r a out n env s m :
  getCoordsFromRecord r = None ->
  address_text (bestAddress r) = VStr a ->
  a ∈ Object_prototype ->
  n < MAX_GEOCODE ->
  cache_of (store s) = Some m ->
  m !! a = None ->
  resolve_record r (out, n) env s = (Thrown, with_event s (Called a)).
Proof.
  intros Hc Ha Hin Hn Hs Hm.
  pose proof (inherited_nonempty a Hin) as Hne.
  apply (resolve_record_member r out n env s a (n + 1)).
  unfold resolve_coords. rewrite Hc. unfold address_fallback.
  rewrite (address_text_truthy_source _ _ Ha Hne).
  replace (n <? MAX_GEOCODE) with true by (symmetry; apply Z.ltb_lt, Hn).
  rewrite Ha. cbn [andb truthy].
  replace (negb (String.eqb a "")) with true
    by (symmetry; apply negb_true_iff, String.eqb_neq, Hne).
  assert (Hg : geocode (VStr a) env s
               = (Ok (Some (Member a)), with_event s (Called a))).
  { apply (geocode_hit (VStr a) env s m (Member a)); [|exact Hs|].
    - cbn [truthy]. apply negb_true_iff, String.eqb_neq, Hne.
    - cbn [ToString]. unfold lookup. rewrite Hm. unfold inherited.
      rewrite bool_decide_eq_true_2 by exact Hin. reflexivity. }
  rewrite (bind_ok _ _ _ _ _ _ Hg). reflexivity.
Qed.

(** X14.  A record without an embedded coordinate whose address text is the
    name of a member of [Object.prototype], under which the cache has no
    entry of its own, stops the run where it stands first in the feed:
    [geocode] returns the member unasked, taking the array apart throws, the
    records after it are never looked at, whatever they hold, and no list
    is handed over. *)
Theorem inherited_name_stops_the_run r a after env s m :
  getCoordsFromRecord r = None ->
  address_text (bestAddress r) = VStr a ->
  a ∈ Object_prototype ->
  cache_of (store s) = Some m ->
  m !! a = None ->
  locate (r :: after) env s = (Thrown, with_event s (Called a)).
Proof.
  intros Hc Ha Hin Hs Hm.
  unfold locate. cbn [resolve_all].
  erewrite bind_thrown; [reflexivity|].
  apply bind_thrown.
  apply (resolve_record_inherited r a [] 0 env s m); try assumption.
  unfold MAX_GEOCODE. lia.
Qed.

Lemma inherited_name_stops_the_run_witness :
  locate [inherited_record; embedded_record] (answering "39.2" "-77.3") fresh
  = (Thrown, with_event fresh (Called "constructor")).
Proof.
  apply (inherited_name_stops_the_run inherited_record "constructor"
           [embedded_record] (answering "39.2" "-77.3") fresh ∅).
  - vm_compute; reflexivity.
  - vm_compute; reflexivity.
  - apply (bool_decide_eq_true_1 _). vm_compute; reflexivity.
  - reflexivity.
  - reflexivity.
Defined.

Lemma or_else_truthy_r a b : truthy b = true -> truthy (or_else a b) = true.
Proof. intros Hb. unfold or_else. destruct (truthy a) eqn:Ha; assumption. Qed.

(** X15.  Every point has a truthy name and a truthy species: a record
    without a usable [name] or [animalid] is shown as "Unknown", one without
    a usable [species] as "PET". *)
Theorem point_has_name_and_species c r :
  truthy (name (mk_point c r)) = true
  /\ truthy (species (mk_point c r)) = true
  /\ (truthy (field r "name") = false ->
      truthy (field r "animalid") = false ->
      name (mk_point c r) = VStr "Unknown")
  /\ (truthy (field r "species") = false ->
      species (mk_point c r) = VStr "PET").
Proof.
  cbn [mk_point name species]. repeat split.
  - apply or_else_truthy_r. reflexivity.
  - apply or_else_truthy_r. reflexivity.
  - intros H1 H2. unfold or_else. rewrite H1, H2. reflexivity.
  - intros H1. unfold or_else. rewrite H1. reflexivity.
Qed.


(** Coordinates given as JSON numbers are read as they are. *)
Example numeric_record_resolves :
  getCoordsFromRecord numeric_record = Some (Fin 3908 (-2), Fin (-772) (-1)).
Proof. vm_compute; reflexivity. Qed.

End PipelineMore.

(** ** More about the ranker *)

Module RankerMore.
Import JS Builtins Eff PetMaps Arith Ranker Vocabulary Vocabulary2 RankerFacts.

#[local] Open Scope R_scope.

(** *** The distance *)

Lemma of_Num_unreal n : Number_isFinite n = false -> unreal (of_Num n).
Proof.
  destruct n; cbn; try discriminate; intros _; [left|right|right]; eauto.
Qed.

Lemma xsub_unreal_l x y : unreal x -> unreal (x - y)%xr.
Proof.
  intros [-> | [s ->]]; [left; reflexivity|].
  destruct y as [|t|y]; cbn [xsub].
  - left; reflexivity.
  - destruct (Bool.eqb s t); [left; reflexivity|right; eauto].
  - right; eauto.
Qed.

Lemma xsub_unreal_r x y : unreal y -> unreal (x - y)%xr.
Proof.
  intros [-> | [t ->]]; [left; destruct x; reflexivity|].
  destruct x as [|s|x]; cbn [xsub].
  - left; reflexivity.
  - destruct (Bool.eqb s t); [left; reflexivity|right; eauto].
  - right; eauto.
Qed.

Lemma toRad_unreal x : unreal x -> unreal (toRad x).
Proof.
  unfold toRad, Math_PI, lit. intros [-> | [s ->]]; [left; reflexivity|].
  cbn [xmul]. destruct (is_zero PI); [left; reflexivity|].
  cbn [xdiv]. right; eauto.
Qed.

Lemma half_unreal x : unreal x -> unreal (x / lit 2)%xr.
Proof.
  unfold lit. intros [-> | [s ->]]; [left; reflexivity|].
  cbn [xdiv]. right; eauto.
Qed.

Lemma xsin_unreal x : unreal x -> xsin x = XNaN.
Proof. intros [-> | [s ->]]; reflexivity. Qed.

Lemma xcos_unreal x : unreal x -> xcos x = XNaN.
Proof. intros [-> | [s ->]]; reflexivity. Qed.

Lemma xmul_nan_r x : (x * XNaN)%xr = XNaN.
Proof. destruct x; reflexivity. Qed.

Lemma xadd_nan_r x : (x + XNaN)%xr = XNaN.
Proof. destruct x; reflexivity. Qed.

Lemma coord_not_finite (c : Coord) :
  coord_finite c = false ->
  Number_isFinite c.1 = false \/ Number_isFinite c.2 = false.
Proof.
  unfold coord_finite. intros H. apply andb_false_iff in H. exact H.
Qed.

Lemma half_chord_unreal d : unreal d -> half_chord d = XNaN.
Proof.
  intros Hd. unfold half_chord.
  rewrite (xsin_unreal _ (half_unreal _ (toRad_unreal _ Hd))). reflexivity.
Qed.

Lemma haversine_nan_of_terms (A B C : XR) :
  A = XNaN \/ B = XNaN ->
  (lit 2 * lit 6371 * xasin (xsqrt (A + C * B)))%xr = XNaN.
Proof.
  intros [-> | ->]; rewrite ?xmul_nan_r, ?xadd_nan_r; cbn [xadd xsqrt xasin];
    first [reflexivity | apply xmul_nan_r].
Qed.

(** With a coordinate that is not finite on either side the distance is
    NaN. *)
Lemma haversineKm_nan a b :
  coord_finite a = false \/ coord_finite b = false ->
  haversineKm a b = XNaN.
Proof.
  intros H. rewrite haversineKm_unfold. apply haversine_nan_of_terms.
  destruct H as [H | H]; apply coord_not_finite in H as [H | H];
    apply of_Num_unreal in H.
  - left. apply half_chord_unreal, xsub_unreal_r, H.
  - right. apply half_chord_unreal, xsub_unreal_r, H.
  - left. apply half_chord_unreal, xsub_unreal_l, H.
  - right. apply half_chord_unreal, xsub_unreal_l, H.
Qed.

(** *** Symmetry *)

Lemma is_neg_opp r : r <> 0 -> is_neg (- r) = negb (is_neg r).
Proof.
  intros Hr. unfold is_neg.
  destruct (Rlt_dec (- r) 0), (Rlt_dec r 0); try reflexivity; lra.
Qed.

Lemma fit_neg r : fit (- r) = xneg (fit r).
Proof.
  pose proof huge_large as Hh.
  unfold fit. rewrite Rabs_Ropp.
  destruct (Rle_dec huge (Rabs r)) as [Hov | _]; [|reflexivity].
  cbn [xneg]. rewrite is_neg_opp; [reflexivity|].
  intros ->. rewrite Rabs_R0 in Hov. lra.
Qed.

Lemma xsub_swap x y : (y - x)%xr = xneg (x - y)%xr.
Proof.
  destruct x as [|s|x], y as [|t|y]; cbn [xsub xneg]; try reflexivity.
  - destruct s, t; reflexivity.
  - destruct t; reflexivity.
  - replace (y - x) with (- (x - y)) by ring. apply fit_neg.
Qed.

Lemma xmul_neg_l a y : (xneg a * XFin y)%xr = xneg (a * XFin y)%xr.
Proof.
  destruct a as [|s|x]; cbn [xmul xneg]; try reflexivity.
  - destruct (is_zero y); [reflexivity|]. cbn [xneg].
    destruct s, (is_neg y); reflexivity.
  - replace (- x * y) with (- (x * y)) by ring. apply fit_neg.
Qed.

Lemma xdiv_neg_l a y :
  is_zero y = false -> (xneg a / XFin y)%xr = xneg (a / XFin y)%xr.
Proof.
  intros Hy. destruct a as [|s|x]; cbn [xdiv xneg]; try reflexivity.
  - destruct s, (is_neg y); reflexivity.
  - rewrite Hy. replace (- x / y) with (- (x / y)) by (unfold Rdiv; ring).
    apply fit_neg.
Qed.

Lemma xsin_neg a : xsin (xneg a) = xneg (xsin a).
Proof. destruct a; cbn [xsin xneg]; try reflexivity. rewrite sin_neg. reflexivity. Qed.

Lemma xsquare_neg a : xsquare (xneg a) = xsquare a.
Proof.
  unfold xsquare. destruct a as [|s|x]; cbn [xmul xneg]; try reflexivity.
  - destruct s; reflexivity.
  - rewrite Rmult_opp_opp. reflexivity.
Qed.

(** The contribution of a coordinate difference does not depend on its
    sign. *)
Lemma half_chord_neg d : half_chord (xneg d) = half_chord d.
Proof.
  unfold half_chord, toRad, Math_PI, lit.
  rewrite xmul_neg_l.
  rewrite !xdiv_neg_l by (apply is_zero_IZR; discriminate).
  rewrite xsin_neg. apply xsquare_neg.
Qed.

Lemma xmul_comm a b : (a * b)%xr = (b * a)%xr.
Proof.
  destruct a as [|s|x], b as [|t|y]; cbn [xmul]; try reflexivity.
  - destruct s, t; reflexivity.
  - destruct (is_zero y); [reflexivity|]. destruct s, (is_neg y); reflexivity.
  - destruct (is_zero x); [reflexivity|]. destruct (is_neg x), t; reflexivity.
  - rewrite Rmult_comm. reflexivity.
Qed.

(** X17.  The distance does not depend on the direction: from [a] to [b] it
    is what it is from [b] to [a], for all coordinates, finite or not. *)
Theorem haversineKm_symmetric a b : haversineKm a b = haversineKm b a.
Proof.
  rewrite !haversineKm_unfold.
  rewrite (xsub_swap (of_Num b.1) (of_Num a.1)), half_chord_neg.
  rewrite (xsub_swap (of_Num b.2) (of_Num a.2)), half_chord_neg.
  rewrite (xmul_comm (xcos (toRad (of_Num a.1)))). reflexivity.
Qed.

(** X18.  From a position to itself the distance is exactly 0, for
    coordinates of magnitude at most [10^6]. *)
Theorem haversineKm_same_place a :
  modest a -> haversineKm a a = XFin 0.
Proof.
  intros Ha.
  destruct a as [[| | |m1 e1] [| | |m2 e2]];
    try (destruct Ha as [H1 H2]; cbn in H1, H2; contradiction).
  rewrite (haversineKm_value _ _ _ _ _ _ _ _ Ha Ha), haversine_real_same.
  reflexivity.
Qed.

Lemma haversineKm_same_place_witness : haversineKm here here = XFin 0.
Proof. apply (haversineKm_same_place here). exact modest_here. Defined.

(** X19.  Finite coordinates do not make a distance: when the latitudes,
    or the longitudes, of the two positions differ by [6 * 10^307] degrees
    or more, the difference overflows on its way to radians, and the
    distance is NaN. *)
Theorem haversineKm_beyond_range a b x y :
  (of_Num a.1 = XFin x /\ of_Num b.1 = XFin y)
  \/ (of_Num a.2 = XFin x /\ of_Num b.2 = XFin y) ->
  6 * 10 ^ 307 <= Rabs (y - x) ->
  haversineKm a b = XNaN.
Proof.
  intros H Hfar. rewrite haversineKm_unfold. apply haversine_nan_of_terms.
  destruct H as [[-> ->] | [-> ->]]; [left|right]; cbn [xsub];
    apply half_chord_overflow, Hfar.
Qed.

Lemma haversineKm_beyond_range_witness :
  haversineKm here (Fin 7 307, Fin 0 0) = XNaN.
Proof.
  apply (haversineKm_beyond_range here (Fin 7 307, Fin 0 0)
           (IZR 3915 * powerRZ 10 (-2)) (IZR 7 * powerRZ 10 307)).
  - left. split; reflexivity.
  - apply far_beyond.
Defined.

(** *** The sort and the cut *)

Lemma nearest_unfold u points :
  nearest (Some u) points = take 25 (Array_sort by_dist (with_dist u points)).
Proof. unfold nearest, with_dist. apply nearest_by_unfold. Qed.

(** X20.  With a reference position, [nearest] returns exactly
    [min 25 n] of the [n] points, each once and with its distance: together
    with the entries it cuts off they are a permutation of the points with
    their distances, and with 25 points or fewer nothing is cut off. *)
Theorem nearest_is_a_cut_of_the_points u points :
  length (nearest (Some u) points) = Nat.min 25 (length points)
  /\ (exists rest, nearest (Some u) points ++ rest ≡ₚ with_dist u points)
  /\ ((length points <= 25)%nat ->
      nearest (Some u) points ≡ₚ with_dist u points).
Proof.
  rewrite nearest_unfold.
  assert (Hlen : length (Array_sort by_dist (with_dist u points))
                 = length points).
  { rewrite Array_sort_length. unfold with_dist, with_dist_by. apply length_map. }
  split; [|split].
  - rewrite length_take, Hlen. lia.
  - exists (drop 25 (Array_sort by_dist (with_dist u points))).
    rewrite take_drop. apply Array_sort_perm.
  - intros Hn. rewrite take_ge by lia. apply Array_sort_perm.
Qed.

(** X21.  Whatever function measures the distances, so for the distances
    [haversineKm] returns in doubles: when the distance of every point from
    the reference is a number, the entries [nearest] returns are the nearest
    ones: every entry it cuts off is at least as far from the reference as
    every entry it returns. *)
Theorem nearest_returns_the_nearest distance u points :
  Forall (fun p => exists x, distance u (lat p, lng p) = XFin x) points ->
  exists rest,
    nearest_by distance (Some u) points ++ rest
    ≡ₚ with_dist_by distance u points
    /\ forall a b, a ∈ nearest_by distance (Some u) points ->
                   b ∈ rest -> dist_le a b.
Proof.
  intros Hps. rewrite nearest_by_unfold.
  exists (drop 25 (Array_sort by_dist (with_dist_by distance u points))).
  split; [rewrite take_drop; apply Array_sort_perm|].
  intros a b Ha Hb.
  pose proof (Array_sort_sorted _ (with_dist_by_finite distance u points Hps))
    as Hs.
  rewrite <- (take_drop 25 (Array_sort by_dist (with_dist_by distance u points)))
    in Hs.
  exact (StronglySorted_app_1_elem_of _ _ _ _ _ Hs Ha Hb).
Qed.

Lemma nearest_returns_the_nearest_witness :
  exists rest,
    nearest (Some here) [point_away; point_here] ++ rest
    ≡ₚ with_dist here [point_away; point_here]
    /\ forall a b, a ∈ nearest (Some here) [point_away; point_here] ->
                   b ∈ rest -> dist_le a b.
Proof.
  apply (nearest_returns_the_nearest haversineKm here [point_away; point_here]).
  repeat constructor; cbn [point_away point_here mk_point lat lng fst snd];
    unfold here; rewrite haversineKm_value;
    eauto using modest_here, modest_away.
Defined.

Lemma insert_nan_first (a : Ranked) l :
  dist a = XNaN -> insert by_dist a l = a :: l.
Proof.
  intros Ha. destruct l as [|b l]; [reflexivity|]. cbn [insert].
  unfold by_dist. rewrite Ha. reflexivity.
Qed.

Lemma Array_sort_all_nan l :
  Forall (fun a => dist a = XNaN) l -> Array_sort by_dist l = l.
Proof.
  induction 1 as [|a l Ha _ IH]; [reflexivity|].
  cbn [Array_sort foldr]. fold (Array_sort by_dist l).
  rewrite IH. apply insert_nan_first, Ha.
Qed.

(** X22.  With a reference position that is not finite every distance is NaN,
    the comparator never moves anything, and [nearest] returns the first 25
    points in the order of the input. *)
Theorem nearest_without_finite_reference u points :
  coord_finite u = false ->
  map point (nearest (Some u) points) = take 25 points
  /\ Forall (fun a => dist a = XNaN) (nearest (Some u) points).
Proof.
  intros Hu. rewrite nearest_unfold.
  assert (Hnan : Forall (fun a => dist a = XNaN) (with_dist u points)).
  { unfold with_dist, with_dist_by. apply Forall_map, Forall_true. intros p. cbn [dist].
    apply haversineKm_nan. auto. }
  rewrite (Array_sort_all_nan _ Hnan). split.
  - unfold with_dist, with_dist_by. rewrite <- fmap_take.
    change (map point (map ?f ?l)) with (point <$> (f <$> l)).
    rewrite <- list_fmap_compose. apply list_fmap_id.
  - apply Forall_take, Hnan.
Qed.

Lemma nearest_without_finite_reference_witness :
  map point (nearest (Some (NaN, Fin 0 0)) [point_away; point_here])
  = take 25 [point_away; point_here]
  /\ Forall (fun a => dist a = XNaN)
       (nearest (Some (NaN, Fin 0 0)) [point_away; point_here]).
Proof.
  apply (nearest_without_finite_reference (NaN, Fin 0 0)
           [point_away; point_here]).
  reflexivity.
Defined.

End RankerMore.

(** ** Fitting the map *)

Module FitFacts.
Import JS Eff PetMaps Arith Ranker MathBuiltins Component.
Import Vocabulary Vocabulary2.

#[local] Open Scope R_scope.

Lemma powerRZ_nonneg_IZR k : (0 <= k)%Z -> powerRZ 10 k = IZR (10 ^ k).
Proof.
  intros Hk. rewrite <- (Z2Nat.id k Hk) at 1 2.
  rewrite <- pow_powerRZ, pow_IZR. reflexivity.
Qed.

(** A decimal scaled down to a smaller exponent. *)
Lemma real_of_scaled m e e0 :
  (e0 <= e)%Z -> real_of m e = IZR (m * 10 ^ (e - e0)) * powerRZ 10 e0.
Proof.
  intros He. unfold real_of.
  replace e with ((e - e0) + e0)%Z at 1 by lia.
  rewrite powerRZ_add by lra.
  rewrite (powerRZ_nonneg_IZR (e - e0)) by lia.
  rewrite mult_IZR. ring.
Qed.

Lemma dec_compare_spec m1 e1 m2 e2 :
  match dec_compare m1 e1 m2 e2 with
  | Lt => real_of m1 e1 < real_of m2 e2
  | Eq => real_of m1 e1 = real_of m2 e2
  | Gt => real_of m2 e2 < real_of m1 e1
  end.
Proof.
  unfold dec_compare.
  set (e0 := Z.min e1 e2).
  rewrite (real_of_scaled m1 e1 e0), (real_of_scaled m2 e2 e0)
    by (unfold e0; lia).
  assert (Hp : 0 < powerRZ 10 e0) by (apply powerRZ_lt; lra).
  destruct (Z.compare_spec (m1 * 10 ^ (e1 - e0)) (m2 * 10 ^ (e2 - e0)))
    as [Heq | Hlt | Hgt].
  - rewrite Heq. reflexivity.
  - apply Rmult_lt_compat_r; [exact Hp|]. apply IZR_lt, Hlt.
  - apply Rmult_lt_compat_r; [exact Hp|]. apply IZR_lt, Hgt.
Qed.

(** On finite numbers [Num_ltb] decides the order of the reals. *)
Lemma Num_ltb_finite m1 e1 m2 e2 :
  (Num_ltb (Fin m1 e1) (Fin m2 e2) = true -> real_of m1 e1 < real_of m2 e2)
  /\ (Num_ltb (Fin m1 e1) (Fin m2 e2) = false ->
      real_of m2 e2 <= real_of m1 e1).
Proof.
  cbn [Num_ltb]. pose proof (dec_compare_spec m1 e1 m2 e2) as H.
  destruct (dec_compare m1 e1 m2 e2); split; intros Hb; try discriminate Hb;
    lra.
Qed.

Lemma Num_le_finite m1 e1 m2 e2 :
  Num_le (Fin m1 e1) (Fin m2 e2) <-> real_of m1 e1 <= real_of m2 e2.
Proof. reflexivity. Qed.

Lemma Num_le_refl_finite x : Number_isFinite x = true -> Num_le x x.
Proof. destruct x; try discriminate. intros _. apply Rle_refl. Qed.

Lemma no_NaN_among_finite l :
  Forall (fun x => Number_isFinite x = true) l -> existsb is_NaN l = false.
Proof.
  induction 1 as [|x l Hx _ IH]; [reflexivity|].
  cbn [existsb]. rewrite IH. destruct x; try discriminate Hx. reflexivity.
Qed.

(** The fold of [Math.min] from a finite start over finite numbers ends on
    the start or on one of the numbers, at or below all of them. *)
Lemma min_fold_finite l :
  Forall (fun x => Number_isFinite x = true) l ->
  forall acc,
    Number_isFinite acc = true ->
    let r := fold_left (fun lowest x => if Num_ltb x lowest then x else lowest)
               l acc in
    Number_isFinite r = true
    /\ (r = acc \/ r ∈ l)
    /\ Num_le r acc
    /\ Forall (Num_le r) l.
Proof.
  induction 1 as [|x l Hx _ IH]; intros acc Hacc.
  - cbn. split; [exact Hacc|]. split; [left; reflexivity|].
    split; [apply Num_le_refl_finite, Hacc|constructor].
  - cbn [fold_left].
    set (acc' := if Num_ltb x acc then x else acc).
    assert (Hacc' : Number_isFinite acc' = true)
      by (unfold acc'; destruct (Num_ltb x acc); assumption).
    assert (Hle : Num_le acc' acc /\ Num_le acc' x).
    { unfold acc'. destruct x as [| | |m1 e1]; try discriminate Hx.
      destruct acc as [| | |m2 e2]; try discriminate Hacc.
      pose proof (Num_ltb_finite m1 e1 m2 e2) as [Ht Hf].
      destruct (Num_ltb (Fin m1 e1) (Fin m2 e2)); split;
        apply Num_le_finite; try apply Rle_refl;
        [apply Rlt_le, Ht; reflexivity | apply Hf; reflexivity]. }
    destruct (IH acc' Hacc') as (Hr & Hin & Hra & Hall).
    cbv zeta in *.
    set (r := fold_left _ l acc') in *.
    assert (Htrans : forall y, Num_le acc' y -> Num_le r y).
    { intros y Hy. destruct r as [| | |mr er]; try discriminate Hr.
      destruct acc' as [| | |ma ea]; try discriminate Hacc'.
      destruct y as [| | |my ey]; cbn in *; try contradiction; try reflexivity;
        try lra; try congruence. }
    split; [exact Hr|]. split; [|split].
    + destruct Hin as [-> | Hin]; [|right; right; exact Hin].
      unfold acc'. destruct (Num_ltb x acc); [right; left|left; reflexivity].
    + apply Htrans, Hle.
    + constructor; [apply Htrans, Hle|exact Hall].
Qed.

Lemma max_fold_finite l :
  Forall (fun x => Number_isFinite x = true) l ->
  forall acc,
    Number_isFinite acc = true ->
    let r := fold_left (fun highest x => if Num_ltb highest x then x else highest)
               l acc in
    Number_isFinite r = true
    /\ (r = acc \/ r ∈ l)
    /\ Num_le acc r
    /\ Forall (fun y => Num_le y r) l.
Proof.
  induction 1 as [|x l Hx _ IH]; intros acc Hacc.
  - cbn. split; [exact Hacc|]. split; [left; reflexivity|].
    split; [apply Num_le_refl_finite, Hacc|constructor].
  - cbn [fold_left].
    set (acc' := if Num_ltb acc x then x else acc).
    assert (Hacc' : Number_isFinite acc' = true)
      by (unfold acc'; destruct (Num_ltb acc x); assumption).
    assert (Hle : Num_le acc acc' /\ Num_le x acc').
    { unfold acc'. destruct x as [| | |m1 e1]; try discriminate Hx.
      destruct acc as [| | |m2 e2]; try discriminate Hacc.
      pose proof (Num_ltb_finite m2 e2 m1 e1) as [Ht Hf].
      destruct (Num_ltb (Fin m2 e2) (Fin m1 e1)); split;
        apply Num_le_finite; try apply Rle_refl;
        [apply Rlt_le, Ht; reflexivity | apply Hf; reflexivity]. }
    destruct (IH acc' Hacc') as (Hr & Hin & Hra & Hall).
    cbv zeta in *.
    set (r := fold_left _ l acc') in *.
    assert (Htrans : forall y, Num_le y acc' -> Num_le y r).
    { intros y Hy. destruct r as [| | |mr er]; try discriminate Hr.
      destruct acc' as [| | |ma ea]; try discriminate Hacc'.
      destruct y as [| | |my ey]; cbn in *; try contradiction; try reflexivity;
        try lra; try congruence. }
    split; [exact Hr|]. split; [|split].
    + destruct Hin as [-> | Hin]; [|right; right; exact Hin].
      unfold acc'. destruct (Num_ltb acc x); [right; left|left; reflexivity].
    + apply Htrans, Hle.
    + constructor; [apply Htrans, Hle|exact Hall].
Qed.

Lemma Math_min_finite x l :
  Forall (fun y => Number_isFinite y = true) (x :: l) ->
  Number_isFinite (Math_min (x :: l)) = true
  /\ Math_min (x :: l) ∈ x :: l
  /\ Forall (Num_le (Math_min (x :: l))) (x :: l).
Proof.
  intros Hall. unfold Math_min. rewrite (no_NaN_among_finite _ Hall).
  apply Forall_cons in Hall as [Hx Hl]. cbn [fold_left].
  replace (Num_ltb x PInf) with true
    by (destruct x; try discriminate Hx; reflexivity).
  destruct (min_fold_finite l Hl x Hx) as (Hr & Hin & Hle & Hrest).
  split; [exact Hr|]. split.
  - destruct Hin as [-> | Hin]; [left|right; exact Hin].
  - constructor; assumption.
Qed.

Lemma Math_max_finite x l :
  Forall (fun y => Number_isFinite y = true) (x :: l) ->
  Number_isFinite (Math_max (x :: l)) = true
  /\ Math_max (x :: l) ∈ x :: l
  /\ Forall (fun y => Num_le y (Math_max (x :: l))) (x :: l).
Proof.
  intros Hall. unfold Math_max. rewrite (no_NaN_among_finite _ Hall).
  apply Forall_cons in Hall as [Hx Hl]. cbn [fold_left].
  replace (Num_ltb NInf x) with true
    by (destruct x; try discriminate Hx; reflexivity).
  destruct (max_fold_finite l Hl x Hx) as (Hr & Hin & Hle & Hrest).
  split; [exact Hr|]. split.
  - destruct Hin as [-> | Hin]; [left|right; exact Hin].
  - constructor; assumption.
Qed.

Lemma existsb_is_NaN_false l x :
  existsb is_NaN l = false -> x ∈ l -> is_NaN x = false.
Proof.
  induction l as [|y l IH]; intros He Hin; [inversion Hin|].
  cbn [existsb] in He. apply orb_false_iff in He as [Hy Hl].
  apply elem_of_cons in Hin as [-> | Hin]; auto.
Qed.

Lemma min_fold_NInf l :
  existsb is_NaN l = false ->
  forall acc,
    is_NaN acc = false ->
    NInf ∈ l \/ acc = NInf ->
    fold_left (fun lowest x => if Num_ltb x lowest then x else lowest) l acc
    = NInf.
Proof.
  induction l as [|x l IH]; intros He acc Hacc Hin.
  - destruct Hin as [Hin | ->]; [inversion Hin|reflexivity].
  - cbn [existsb] in He. apply orb_false_iff in He as [Hx Hl].
    cbn [fold_left]. apply (IH Hl).
    + destruct (Num_ltb x acc); assumption.
    + destruct Hin as [Hin | ->].
      * apply elem_of_cons in Hin as [<- | Hin]; [|left; exact Hin].
        right. destruct acc; try discriminate Hacc; reflexivity.
      * right. destruct x; reflexivity.
Qed.

Lemma max_fold_PInf l :
  existsb is_NaN l = false ->
  forall acc,
    is_NaN acc = false ->
    PInf ∈ l \/ acc = PInf ->
    fold_left (fun highest x => if Num_ltb highest x then x else highest) l acc
    = PInf.
Proof.
  induction l as [|x l IH]; intros He acc Hacc Hin.
  - destruct Hin as [Hin | ->]; [inversion Hin|reflexivity].
  - cbn [existsb] in He. apply orb_false_iff in He as [Hx Hl].
    cbn [fold_left]. apply (IH Hl).
    + destruct (Num_ltb acc x); assumption.
    + destruct Hin as [Hin | ->].
      * apply elem_of_cons in Hin as [<- | Hin]; [|left; exact Hin].
        right. destruct acc; try discriminate Hacc; reflexivity.
      * right. destruct x; try discriminate Hx; reflexivity.
Qed.

(** A number that is not finite among the arguments leaves [Math.min] or
    [Math.max] not finite. *)
Lemma min_max_not_finite l x :
  x ∈ l -> Number_isFinite x = false ->
  Number_isFinite (Math_min l) && Number_isFinite (Math_max l) = false.
Proof.
  intros Hin Hx. unfold Math_min, Math_max.
  destruct (existsb is_NaN l) eqn:He; [reflexivity|].
  pose proof (existsb_is_NaN_false l x He Hin) as Hn.
  destruct x; try discriminate Hx; try discriminate Hn.
  - rewrite (max_fold_PInf l He NInf eq_refl (or_introl Hin)).
    apply andb_false_r.
  - rewrite (min_fold_NInf l He PInf eq_refl (or_introl Hin)). reflexivity.
Qed.

Lemma FitBounds_cons size p points pad :
  FitBounds size (p :: points) pad
  = let lats := map lat (p :: points) in
    let lngs := map lng (p :: points) in
    if Number_isFinite (Math_min lats) && Number_isFinite (Math_min lngs)
       && Number_isFinite (Math_max lats) && Number_isFinite (Math_max lngs)
    then
      Some {| south := Math_min lats; west := Math_min lngs;
              north := Math_max lats; east := Math_max lngs;
              padding := ((of_Num size.1 * of_Num pad)%xr,
                          (of_Num size.2 * of_Num pad)%xr) |}
    else None.
Proof. reflexivity. Qed.

Lemma points_finite_split points :
  Forall (fun p => point_finite p = true) points ->
  Forall (fun y => Number_isFinite y = true) (map lat points)
  /\ Forall (fun y => Number_isFinite y = true) (map lng points).
Proof.
  intros H. split; apply Forall_map; eapply Forall_impl; try exact H;
    intros p Hp; unfold point_finite, coord_finite in Hp;
    apply andb_true_iff in Hp as [H1 H2]; assumption.
Qed.

Lemma FitBounds_None_iff size points pad :
  FitBounds size points pad = None
  <-> points = [] \/ Exists (fun p => point_finite p = false) points.
Proof.
  split.
  - intros Hnone. destruct points as [|p points]; [left; reflexivity|].
    right.
    destruct (decide (Forall (fun q => point_finite q = true) (p :: points)))
      as [Hall' | Hn].
    2: { apply not_Forall_Exists in Hn; [|intros q; apply _].
         eapply Exists_impl; [exact Hn|]. intros q Hq. cbn in Hq.
         destruct (point_finite q); [exfalso; apply Hq; reflexivity|].
         reflexivity. }
    exfalso.
    destruct (points_finite_split _ Hall') as [Hlat Hlng].
    rewrite FitBounds_cons in Hnone. cbv zeta in Hnone. cbn [map] in *.
    destruct (Math_min_finite _ _ Hlat) as (H1 & _).
    destruct (Math_min_finite _ _ Hlng) as (H2 & _).
    destruct (Math_max_finite _ _ Hlat) as (H3 & _).
    destruct (Math_max_finite _ _ Hlng) as (H4 & _).
    rewrite H1, H2, H3, H4 in Hnone. discriminate.
  - intros [-> | Hex]; [reflexivity|].
    destruct points as [|p points]; [reflexivity|].
    rewrite FitBounds_cons. cbv zeta.
    apply Exists_exists in Hex as (q & Hin & Hq).
    unfold point_finite, coord_finite in Hq. cbn [fst snd] in Hq.
    apply andb_false_iff in Hq as [Hq | Hq].
    + pose proof (min_max_not_finite (map lat (p :: points)) (lat q)
                    (list_elem_of_fmap_2 lat _ _ Hin) Hq) as H.
      apply andb_false_iff in H as [H | H]; rewrite H;
        rewrite ?andb_false_r; reflexivity.
    + pose proof (min_max_not_finite (map lng (p :: points)) (lng q)
                    (list_elem_of_fmap_2 lng _ _ Hin) Hq) as H.
      apply andb_false_iff in H as [H | H]; rewrite H;
        rewrite ?andb_false_r; reflexivity.
Qed.

Lemma FitBounds_box size points pad call :
  FitBounds size points pad = Some call ->
  south call ∈ map lat points /\ north call ∈ map lat points
  /\ west call ∈ map lng points /\ east call ∈ map lng points
  /\ forall p, p ∈ points ->
       Num_le (south call) (lat p) /\ Num_le (lat p) (north call)
       /\ Num_le (west call) (lng p) /\ Num_le (lng p) (east call).
Proof.
  intros Hfit.
  assert (Hall : Forall (fun p => point_finite p = true) points).
  { apply Forall_forall. intros q Hq.
    destruct (point_finite q) eqn:Hf; [reflexivity|]. exfalso.
    assert (Hnone : FitBounds size points pad = None).
    { apply FitBounds_None_iff. right.
      apply Exists_exists. eauto. }
    congruence. }
  destruct points as [|p0 points]; [discriminate|].
  destruct (points_finite_split _ Hall) as [Hlat Hlng].
  rewrite FitBounds_cons in Hfit. cbv zeta in Hfit.
  destruct (_ && _) in Hfit; [|discriminate].
  injection Hfit as <-. cbn [south north west east].
  cbn [map] in Hlat, Hlng |- *.
  destruct (Math_min_finite _ _ Hlat) as (_ & Hs & Hsle).
  destruct (Math_min_finite _ _ Hlng) as (_ & Hw & Hwle).
  destruct (Math_max_finite _ _ Hlat) as (_ & Hn & Hnle).
  destruct (Math_max_finite _ _ Hlng) as (_ & He & Hele).
  repeat (split; [assumption|]).
  intros p Hp.
  change (lat p0 :: map lat points) with (map lat (p0 :: points)) in *.
  change (lng p0 :: map lng points) with (map lng (p0 :: points)) in *.
  rewrite Forall_forall in Hsle, Hwle, Hnle, Hele.
  pose proof (list_elem_of_fmap_2 lat _ _ Hp).
  pose proof (list_elem_of_fmap_2 lng _ _ Hp).
  auto.
Qed.

(** X23.  [FitBounds] moves the map exactly when there is at least one
    point and every point has a finite latitude and longitude: with no point,
    or with one coordinate that is NaN or infinite, it calls nothing. *)
Theorem FitBounds_fits_only_finite_points size points pad :
  FitBounds size points pad = None
  <-> points = [] \/ Exists (fun p => point_finite p = false) points.
Proof. apply FitBounds_None_iff. Qed.

(** X24.  When [FitBounds] moves the map, the box it asks for holds every
    point: its south and north are latitudes of points with every latitude
    between them, its west and east are longitudes of points with every
    longitude between them. *)
Theorem FitBounds_box_holds_every_point size points pad call :
  FitBounds size points pad = Some call ->
  south call ∈ map lat points /\ north call ∈ map lat points
  /\ west call ∈ map lng points /\ east call ∈ map lng points
  /\ forall p, p ∈ points ->
       Num_le (south call) (lat p) /\ Num_le (lat p) (north call)
       /\ Num_le (west call) (lng p) /\ Num_le (lng p) (east call).
Proof. apply FitBounds_box. Qed.

Lemma FitBounds_box_holds_every_point_witness :
  south sample_fit ∈ map lat [point_away; point_here]
  /\ north sample_fit ∈ map lat [point_away; point_here]
  /\ west sample_fit ∈ map lng [point_away; point_here]
  /\ east sample_fit ∈ map lng [point_away; point_here]
  /\ forall p, p ∈ [point_away; point_here] ->
       Num_le (south sample_fit) (lat p) /\ Num_le (lat p) (north sample_fit)
       /\ Num_le (west sample_fit) (lng p) /\ Num_le (lng p) (east sample_fit).
Proof.
  apply (FitBounds_box_holds_every_point (Fin 800 0, Fin 360 0)
           [point_away; point_here] default_pad sample_fit).
  reflexivity.
Defined.

End FitFacts.

(** ** Loading the feed *)

Module FeedFacts.
Import JS Builtins Eff PetMaps Component Vocabulary Vocabulary2.
Import EffFacts PipelineFacts.

#[local] Open Scope Z_scope.

(** X25.  Loading the feed never throws and sends exactly one request.  The
    records are the elements of the JSON array the response carries, whether
    or not the response is ok; they are the empty list when the request is
    rejected, when the body is not JSON and when the JSON is not an array. *)
Theorem load_records_never_raises env s :
  exists records,
    load_records env s = (Ok records, with_event s (Fetched SOC_DATA_URL))
    /\ (forall ok l,
          network env (fetch_count (trace s)) SOC_DATA_URL
          = Replied ok (Some (VArr l)) ->
          records = l)
    /\ ((forall ok l,
           network env (fetch_count (trace s)) SOC_DATA_URL
           <> Replied ok (Some (VArr l))) ->
        records = []).
Proof.
  unfold load_records, try_catch, bind, fetch, res_json, ret, throw, with_event.
  destruct (network env (fetch_count (trace s)) SOC_DATA_URL)
    as [|ok [data|]] eqn:Hn.
  - exists []. split; [reflexivity|]. split; [discriminate|reflexivity].
  - destruct data as [| | | | |l|]; eexists; (split; [reflexivity|]);
      (split; [intros ok' l' [= _ ?]; try discriminate; congruence|]);
      intros Hne; try reflexivity.
    exfalso. exact (Hne ok l eq_refl).
  - exists []. split; [reflexivity|]. split; [discriminate|reflexivity].
Qed.

Lemma resolve_entries_records records acc env s :
  resolve_entries (map Some records) acc env s
  = resolve_all records acc env s.
Proof.
  revert acc s. induction records as [|r records IH]; intros acc s;
    [reflexivity|].
  cbn [map resolve_entries resolve_all resolve_entry]. unfold bind.
  destruct (resolve_record r acc env s) as [[acc'|] s1]; [|reflexivity].
  apply IH.
Qed.

Lemma resolve_entries_app l1 l2 acc env s :
  resolve_entries (l1 ++ l2) acc env s
  = bind (resolve_entries l1 acc) (resolve_entries l2) env s.
Proof.
  revert acc s. induction l1 as [|e l1 IH]; intros acc s; [reflexivity|].
  cbn [app resolve_entries]. unfold bind.
  destruct (resolve_entry e acc env s) as [[acc'|] s1]; [|reflexivity].
  rewrite IH. unfold bind. reflexivity.
Qed.

(** X26.  A [null] entry in the feed stops the loop with an exception: the
    records before it are gone through as usual, with their calls, sleeps
    and requests, then the loop throws (if it has not thrown before), the
    entries after it are never looked at and no list of points is handed
    over. *)
Theorem null_entry_stops_the_loop before after env s :
  locate_entries (map Some before ++ None :: after) env s
  = (Thrown, (resolve_all before ([], 0) env s).2).
Proof.
  assert (Hthrown :
            resolve_entries (map Some before ++ None :: after) ([], 0) env s
            = (Thrown, (resolve_all before ([], 0) env s).2)).
  { rewrite resolve_entries_app. unfold bind.
    rewrite resolve_entries_records.
    destruct (resolve_all before ([], 0) env s) as [[acc|] s']; reflexivity. }
  unfold locate_entries.
  destruct (map Some before ++ None :: after) as [|e l] eqn:He.
  - destruct before; discriminate He.
  - unfold bind. rewrite Hthrown. reflexivity.
Qed.

(** A feed of one record and a [null]: the record is geocoded, then the
    loop throws. *)
Example null_entry_after_a_record :
  locate_entries [Some address_record; None] (answering "39.2" "-77.3") fresh
  = (Thrown,
     {| store := Cached {[ "100 Main St" := (Fin 392 (-1), Fin (-773) (-1)) ]};
        trace := [Called "100 Main St"; Slept 1100;
                  Fetched (geocode_url (VStr "100 Main St"))] |}).
Proof. vm_compute; reflexivity. Qed.

(** On a feed without [null] entries the loop over entries is the loop over
    records. *)
Lemma locate_entries_of_records records env s :
  locate_entries (map Some records) env s = locate records env s.
Proof.
  destruct records as [|r records]; [reflexivity|].
  unfold locate_entries, locate. cbn [map]. unfold bind.
  rewrite (resolve_entries_records (r :: records)). reflexivity.
Qed.

End FeedFacts.

(** ** From the feed to the maps *)

Module EndToEnd.
Import JS Builtins Eff PetMaps Arith Ranker MathBuiltins Component.
Import Vocabulary Vocabulary2.
Import PipelineFacts PipelineClaims RankerFacts RankerMore FitFacts.

Lemma nearest_points_among u points a :
  a ∈ nearest (Some u) points -> point a ∈ points.
Proof.
  rewrite nearest_unfold. intros Ha.
  apply (subseteq_take 25) in Ha.
  rewrite (Array_sort_perm by_dist (with_dist u points)) in Ha.
  unfold with_dist in Ha. apply list_elem_of_fmap_1 in Ha as (p & -> & Hp).
  exact Hp.
Qed.

(** X27.  With a position and at least one point, all points finite, the
    third map is always fitted, and to the nearest points: [FitBounds] makes
    its call, and the box holds every point of the nearest list.  Without a
    position nothing is fitted. *)
Theorem nearest_view_is_fitted size u points :
  points <> [] ->
  Forall (fun p => point_finite p = true) points ->
  nearest_view_fit size None points = None
  /\ exists call,
       nearest_view_fit size (Some u) points = Some call
       /\ forall a, a ∈ nearest (Some u) points ->
            Num_le (south call) (lat (point a))
            /\ Num_le (lat (point a)) (north call)
            /\ Num_le (west call) (lng (point a))
            /\ Num_le (lng (point a)) (east call).
Proof.
  intros Hne Hall. split; [reflexivity|].
  unfold nearest_view_fit.
  assert (Hlen : length (nearest (Some u) points) <> 0%nat).
  { rewrite nearest_unfold, length_take, Array_sort_length.
    unfold with_dist, with_dist_by. rewrite length_map.
    destruct points; [contradiction|]. cbn [length]. lia. }
  assert (Hfit : fitted_points (nearest (Some u) points) points
                 = map point (nearest (Some u) points)).
  { destruct (nearest (Some u) points); [contradiction|reflexivity]. }
  rewrite Hfit.
  destruct (FitBounds size (map point (nearest (Some u) points)) default_pad)
    as [call|] eqn:Hcall.
  - exists call. split; [reflexivity|]. intros a Ha.
    destruct (FitBounds_box _ _ _ _ Hcall) as (_ & _ & _ & _ & Hbox).
    apply Hbox. apply list_elem_of_fmap_2. exact Ha.
  - exfalso. apply FitBounds_None_iff in Hcall as [Hnil | Hex].
    + apply (f_equal length) in Hnil. rewrite length_map in Hnil.
      contradiction.
    + apply Exists_exists in Hex as (p & Hp & Hf).
      apply list_elem_of_fmap_1 in Hp as (a & -> & Ha).
      apply nearest_points_among in Ha.
      rewrite Forall_forall in Hall. rewrite (Hall _ Ha) in Hf. discriminate.
Qed.

Lemma nearest_view_is_fitted_witness :
  nearest_view_fit (Fin 800 0, Fin 360 0) None [point_away; point_here] = None
  /\ exists call,
       nearest_view_fit (Fin 800 0, Fin 360 0) (Some here)
         [point_away; point_here] = Some call
       /\ forall a, a ∈ nearest (Some here) [point_away; point_here] ->
            Num_le (south call) (lat (point a))
            /\ Num_le (lat (point a)) (north call)
            /\ Num_le (west call) (lng (point a))
            /\ Num_le (lng (point a)) (east call).
Proof.
  apply (nearest_view_is_fitted (Fin 800 0, Fin 360 0) here
           [point_away; point_here]).
  - discriminate.
  - repeat constructor.
Defined.

(** X28.  Ranking what a run hands over: whatever function measures the
    distances, so for the distances [haversineKm] returns in doubles, when
    the distance of every point of the list from the position is a number,
    the ranked list comes out sorted by distance, no longer than 25 and no
    longer than the feed. *)
Theorem run_then_rank_is_sorted distance records env s u out s' :
  locate records env s = (Ok out, s') ->
  Forall (fun p => exists x, distance u (lat p, lng p) = XFin x) out ->
  StronglySorted dist_le (nearest_by distance (Some u) out)
  /\ (length (nearest_by distance (Some u) out)
      <= Nat.min 25 (length records))%nat.
Proof.
  intros Hl Hfin.
  destruct (locate_Ok _ _ _ _ _ Hl) as (ocs & n' & _ & _ & Hout).
  rewrite nearest_by_unfold. split.
  - apply StronglySorted_take, Array_sort_sorted, with_dist_by_finite, Hfin.
  - rewrite length_take, Array_sort_length. unfold with_dist_by.
    rewrite length_map. rewrite Hout.
    pose proof (resolved_points_sublist records ocs) as Hsub.
    apply sublist_length in Hsub. rewrite length_map in Hsub. lia.
Qed.

Lemma run_then_rank_is_sorted_witness :
  StronglySorted dist_le
    (nearest (Some here)
       [mk_point (Fin 392 (-1), Fin (-773) (-1)) address_record;
        mk_point (Fin 39 0, Fin (-771) (-1)) embedded_record])
  /\ (length
        (nearest (Some here)
           [mk_point (Fin 392 (-1), Fin (-773) (-1)) address_record;
            mk_point (Fin 39 0, Fin (-771) (-1)) embedded_record])
      <= Nat.min 25 (length [address_record; embedded_record]))%nat.
Proof.
  apply (run_then_rank_is_sorted haversineKm
           [address_record; embedded_record]
           (answering "39.2" "-77.3") fresh here
           [mk_point (Fin 392 (-1), Fin (-773) (-1)) address_record;
            mk_point (Fin 39 0, Fin (-771) (-1)) embedded_record]
           {| store := Cached {[ "100 Main St"
                                 := (Fin 392 (-1), Fin (-773) (-1)) ]};
              trace := [Called "100 Main St"; Slept 1100;
                        Fetched (geocode_url (VStr "100 Main St"))] |}).
  - vm_compute; reflexivity.
  - repeat constructor; cbn [mk_point lat lng fst snd];
      unfold here; rewrite haversineKm_value;
      try (eexists; reflexivity);
      unfold modest, modest_num, real_of; cbn [fst snd];
      split; apply Rabs_le; simpl; lra.
Defined.

End EndToEnd.
